(** * Posts service of the Teacher AI Academy backend

    A shallow embedding of [backend/src/posts.ts] (class [PostsService]) and
    of the route handlers that call it, with the properties of the posts
    store stated and proved over the embedding.

    JavaScript strings are sequences of UTF-16 code units; they are modelled
    as [list N].  The regular expressions of [generateSlug] carry no [u]
    flag, so they work code unit by code unit, as the model does. *)

From Stdlib Require Import NArith ZArith List Bool Lia String Ascii.
From Stdlib Require Import Permutation.
From Stdlib Require DecimalString.
Import ListNotations.

Set Implicit Arguments.
Local Open Scope N_scope.
Local Abbreviation length := List.length.

(* ================================================================== *)
(** ** JavaScript strings *)

Module JS.

Definition codeunit := N.
Definition jsstring := list codeunit.

(** A string literal of the source, given by its ASCII characters. *)
Fixpoint units (s : string) : jsstring :=
  match s with
  | EmptyString => []
  | String a r => N_of_ascii a :: units r
  end.

Definition HYPHEN : codeunit := 0x2D.

Definition in_range (lo hi c : codeunit) : bool :=
  (lo <=? c) && (c <=? hi).

(** The class [\s] of a JavaScript regular expression, which is also the
    set that [String.prototype.trim] removes: WhiteSpace and
    LineTerminator of ECMA-262. *)
Definition is_space (c : codeunit) : bool :=
  in_range 0x09 0x0D c || (c =? 0x20) || (c =? 0xA0) || (c =? 0x1680)
  || in_range 0x2000 0x200A c || (c =? 0x2028) || (c =? 0x2029)
  || (c =? 0x202F) || (c =? 0x205F) || (c =? 0x3000)
  || (c =? 0xFEFF).

Definition is_lower_alpha (c : codeunit) : bool := in_range 0x61 0x7A c.
Definition is_digit (c : codeunit) : bool := in_range 0x30 0x39 c.

(** [String.prototype.toLowerCase], unit by unit.  The Unicode case
    mapping sends exactly [A-Z], U+0130 and U+212A to strings that contain
    an ASCII letter; those are written out.  Every other cased letter is
    mapped by JavaScript to another letter outside ASCII, and is left as it
    is here: [generateSlug] deletes either in its next step. *)
Definition lower_unit (c : codeunit) : jsstring :=
  if in_range 0x41 0x5A c then [c + 32]
  else if (c =? 0x130) then [0x69; 0x307]
  else if (c =? 0x212A) then [0x6B]
  else [c].

Definition toLowerCase (s : jsstring) : jsstring := flat_map lower_unit s.

(** [s.trim()]: drop the white space at both ends. *)
Fixpoint trimStart (s : jsstring) : jsstring :=
  match s with
  | c :: r => if is_space c then trimStart r else s
  | [] => []
  end.

Definition trim (s : jsstring) : jsstring :=
  rev (trimStart (rev (trimStart s))).

(** Truthiness of a string value: every string but the empty one. *)
Definition truthy (s : jsstring) : bool :=
  match s with [] => false | _ :: _ => true end.

(** [a || b] where [a] is a possibly undefined string. *)
Definition or_else (a : option jsstring) (b : jsstring) : jsstring :=
  match a with
  | Some s => if truthy s then s else b
  | None => b
  end.

Fixpoint eqb (a b : jsstring) : bool :=
  match a, b with
  | [], [] => true
  | x :: a', y :: b' => (x =? y) && eqb a' b'
  | _, _ => false
  end.

(** Does [s] begin with [part]? *)
Fixpoint is_prefix (part s : jsstring) : bool :=
  match part, s with
  | [], _ => true
  | a :: part', b :: s' => (a =? b) && is_prefix part' s'
  | _ :: _, [] => false
  end.

(** [s.includes(part)] *)
Fixpoint includes (s part : jsstring) : bool :=
  match s with
  | [] => is_prefix part []
  | _ :: r => is_prefix part s || includes r part
  end.

End JS.

Import JS.

(* ================================================================== *)
(** ** JavaScript numbers *)

(** The numbers of the service (pages, limits, offsets, counts) are
    integers held in IEEE 754 doubles.  A [Z] stands for the double of that
    value, and an operation gives the double that is nearest to its exact
    result.  Up to [2^53] every integer is a double and the arithmetic is
    exact; beyond, a double keeps 53 significant bits.  A result beyond the
    largest double, which is [Infinity] in JavaScript, is here a number
    beyond every range that the database client accepts, and the service
    does nothing else with it. *)
Module Double.

Definition MAX_SAFE_INTEGER : Z := (2 ^ 53 - 1)%Z.

(** The double nearest to the integer [n], a tie going to the even
    significand. *)
Definition round (n : Z) : Z :=
  let a := Z.abs n in
  if (a <? 2 ^ 53)%Z then n
  else
    let e := (Z.log2 a - 52)%Z in
    let q := (a / 2 ^ e)%Z in
    let r := (a mod 2 ^ e)%Z in
    let half := (2 ^ (e - 1))%Z in
    let q' := if (r <? half)%Z then q
              else if (half <? r)%Z then (q + 1)%Z
              else if Z.even q then q else (q + 1)%Z in
    (Z.sgn n * (q' * 2 ^ e))%Z.

Definition add (a b : Z) : Z := round (a + b).
Definition sub (a b : Z) : Z := round (a - b).
Definition mul (a b : Z) : Z := round (a * b).

End Double.

(* ================================================================== *)
(** ** Slugs: [generateSlug] (posts.ts, lines 69-76) *)

Module Slug.

(** [/[^a-z0-9\s-]/g]: the units that the first [replace] deletes are those
    outside this set. *)
Definition kept (c : codeunit) : bool :=
  is_lower_alpha c || is_digit c || is_space c || (c =? HYPHEN).

(** [.replace(/[^a-z0-9\s-]/g, '')] *)
Definition strip (s : jsstring) : jsstring := filter kept s.

(** [.replace(/\s+/g, '-')]: every maximal run of white space becomes one
    hyphen.  [in_run] tells that the previous unit was white space. *)
Fixpoint spaces_to_hyphen (in_run : bool) (s : jsstring) : jsstring :=
  match s with
  | [] => []
  | c :: r =>
      if is_space c
      then (if in_run then spaces_to_hyphen true r
            else HYPHEN :: spaces_to_hyphen true r)
      else c :: spaces_to_hyphen false r
  end.

(** [.replace(/-+/g, '-')]: every maximal run of hyphens becomes one. *)
Fixpoint collapse_hyphens (in_run : bool) (s : jsstring) : jsstring :=
  match s with
  | [] => []
  | c :: r =>
      if (c =? HYPHEN)
      then (if in_run then collapse_hyphens true r
            else HYPHEN :: collapse_hyphens true r)
      else c :: collapse_hyphens false r
  end.

(** The chain of [generateSlug] after [toLowerCase]. *)
Definition slug_of_lowered (s : jsstring) : jsstring :=
  trim (collapse_hyphens false (spaces_to_hyphen false (strip s))).

Definition generateSlug (title : jsstring) : jsstring :=
  slug_of_lowered (toLowerCase title).

(** The alphabet [a-z0-9-] of a slug. *)
Definition slug_char (c : codeunit) : bool :=
  is_lower_alpha c || is_digit c || (c =? HYPHEN).

Fixpoint no_double_hyphen (s : jsstring) : bool :=
  match s with
  | c :: ((d :: _) as r) =>
      negb ((c =? HYPHEN) && (d =? HYPHEN)) && no_double_hyphen r
  | _ => true
  end.

Definition no_leading_hyphen (s : jsstring) : bool :=
  match s with
  | c :: _ => negb (c =? HYPHEN)
  | [] => true
  end.

Definition no_trailing_hyphen (s : jsstring) : bool :=
  no_leading_hyphen (rev s).

(** What the specification asks of a slug. *)
Definition well_formed_slug (s : jsstring) : bool :=
  forallb slug_char s && no_leading_hyphen s && no_trailing_hyphen s
  && no_double_hyphen s.

End Slug.

(* ================================================================== *)
(** ** JSON: [JSON.stringify] and [JSON.parse] (ECMA-262, section 25.5) *)

Module JSON.

(** The value that [JSON.parse] builds.  A number keeps its literal text
    (its floating-point value is never looked at by the posts service); an
    object keeps its members in the order of the text. *)
#[warnings="-register-all"]
Inductive value : Type :=
| Null : value
| Bool : bool -> value
| Number : jsstring -> value
| Str : jsstring -> value
| Array : list value -> value
| Object : list (jsstring * value) -> value.

Definition QUOTE : codeunit := 0x22.
Definition BACKSLASH : codeunit := 0x5C.
Definition COMMA : codeunit := 0x2C.
Definition COLON : codeunit := 0x3A.
Definition LBRACKET : codeunit := 0x5B.
Definition RBRACKET : codeunit := 0x5D.
Definition LBRACE : codeunit := 0x7B.
Definition RBRACE : codeunit := 0x7D.

(** *** Serialisation of an array of strings *)

Definition hex_digit (d : N) : codeunit :=
  if d <? 10 then 0x30 + d else 0x61 + (d - 10).

(** [UnicodeEscape]: a backslash, [u] and four lower-case hex digits. *)
Definition unicode_escape (c : codeunit) : jsstring :=
  [BACKSLASH; 0x75; hex_digit (c / 4096 mod 16); hex_digit (c / 256 mod 16);
   hex_digit (c / 16 mod 16); hex_digit (c mod 16)].

Definition is_high_surrogate (c : codeunit) : bool := in_range 0xD800 0xDBFF c.
Definition is_low_surrogate (c : codeunit) : bool := in_range 0xDC00 0xDFFF c.

(** One code unit that is not part of a surrogate pair, as
    [QuoteJSONString] writes it. *)
Definition quote_unit (c : codeunit) : jsstring :=
  if c =? 0x08 then [BACKSLASH; 0x62]
  else if c =? 0x09 then [BACKSLASH; 0x74]
  else if c =? 0x0A then [BACKSLASH; 0x6E]
  else if c =? 0x0C then [BACKSLASH; 0x66]
  else if c =? 0x0D then [BACKSLASH; 0x72]
  else if c =? QUOTE then [BACKSLASH; QUOTE]
  else if c =? BACKSLASH then [BACKSLASH; BACKSLASH]
  else if (c <? 0x20) || is_high_surrogate c || is_low_surrogate c
       then unicode_escape c
  else [c].

(** The characters of a quoted string between its quotes.  A high
    surrogate followed by a low one is a code point of its own and is
    copied; a lone surrogate is escaped. *)
Fixpoint quote_body (s : jsstring) : jsstring :=
  match s with
  | [] => []
  | c :: r =>
      if is_high_surrogate c then
        match r with
        | d :: r' =>
            if is_low_surrogate d then c :: d :: quote_body r'
            else unicode_escape c ++ quote_body r
        | [] => unicode_escape c
        end
      else quote_unit c ++ quote_body r
  end.

Definition quote (s : jsstring) : jsstring :=
  QUOTE :: quote_body s ++ [QUOTE].

(** The elements of an array, separated by commas. *)
Fixpoint join_quoted (xs : list jsstring) : jsstring :=
  match xs with
  | [] => []
  | [x] => quote x
  | x :: r => quote x ++ COMMA :: join_quoted r
  end.

(** [JSON.stringify(xs)] for [xs : string[]], the only type at which the
    posts service calls it. *)
Definition stringify (xs : list jsstring) : jsstring :=
  LBRACKET :: join_quoted xs ++ [RBRACKET].

(** *** Parsing *)

(** JSON white space: tab, line feed, carriage return, space. *)
Definition is_ws (c : codeunit) : bool :=
  (c =? 0x09) || (c =? 0x0A) || (c =? 0x0D) || (c =? 0x20).

Fixpoint skip_ws (s : jsstring) : jsstring :=
  match s with
  | c :: r => if is_ws c then skip_ws r else s
  | [] => []
  end.

Definition hex_value (c : codeunit) : option N :=
  if in_range 0x30 0x39 c then Some (c - 0x30)
  else if in_range 0x61 0x66 c then Some (c - 0x61 + 10)
  else if in_range 0x41 0x46 c then Some (c - 0x41 + 10)
  else None.

Definition hex4 (a b c d : codeunit) : option codeunit :=
  match hex_value a, hex_value b, hex_value c, hex_value d with
  | Some x, Some y, Some z, Some w => Some (((x * 16 + y) * 16 + z) * 16 + w)
  | _, _, _, _ => None
  end.

(** The character after a backslash, other than [u]. *)
Definition simple_escape (e : codeunit) : option codeunit :=
  if e =? QUOTE then Some QUOTE
  else if e =? BACKSLASH then Some BACKSLASH
  else if e =? 0x2F then Some 0x2F
  else if e =? 0x62 then Some 0x08
  else if e =? 0x66 then Some 0x0C
  else if e =? 0x6E then Some 0x0A
  else if e =? 0x72 then Some 0x0D
  else if e =? 0x74 then Some 0x09
  else None.

Definition push {A B} (a : A) (p : option (list A * B)) : option (list A * B) :=
  match p with
  | Some (l, r) => Some (a :: l, r)
  | None => None
  end.

(** A string, from the unit after its opening quote: the string and the
    text after its closing quote. *)
Fixpoint parse_string_body (s : jsstring) : option (jsstring * jsstring) :=
  match s with
  | [] => None
  | c :: r =>
      if c =? QUOTE then Some ([], r)
      else if c =? BACKSLASH then
        match r with
        | [] => None
        | e :: r1 =>
            if e =? 0x75 then
              match r1 with
              | h1 :: h2 :: h3 :: h4 :: r2 =>
                  match hex4 h1 h2 h3 h4 with
                  | Some u => push u (parse_string_body r2)
                  | None => None
                  end
              | _ => None
              end
            else
              match simple_escape e with
              | Some u => push u (parse_string_body r1)
              | None => None
              end
        end
      else if c <? 0x20 then None
      else push c (parse_string_body r)
  end.

(** The longest prefix of decimal digits, and what follows it. *)
Fixpoint span_digits (s : jsstring) : jsstring * jsstring :=
  match s with
  | c :: r =>
      if is_digit c then let (ds, r') := span_digits r in (c :: ds, r')
      else ([], s)
  | [] => ([], [])
  end.

(** The integer part: an optional minus sign, then either a single zero
    or a non-zero digit followed by digits. *)
Definition parse_int_part (s : jsstring) : option (jsstring * jsstring) :=
  let (sign, s1) :=
    match s with
    | c :: r => if c =? 0x2D then ([c], r) else ([], s)
    | [] => ([], s)
    end in
  match s1 with
  | c :: r =>
      if c =? 0x30 then Some (sign ++ [c], r)
      else if in_range 0x31 0x39 c
           then let (ds, r') := span_digits r in Some (sign ++ c :: ds, r')
      else None
  | [] => None
  end.

(** The optional fraction: a dot and at least one digit. *)
Definition parse_frac_part (s : jsstring) : option (jsstring * jsstring) :=
  match s with
  | c :: r =>
      if c =? 0x2E then
        match span_digits r with
        | ([], _) => None
        | (ds, r') => Some (c :: ds, r')
        end
      else Some ([], s)
  | [] => Some ([], s)
  end.

(** The optional exponent: [e] or [E], an optional sign, at least one
    digit. *)
Definition parse_exp_part (s : jsstring) : option (jsstring * jsstring) :=
  match s with
  | c :: r =>
      if (c =? 0x65) || (c =? 0x45) then
        let (sign, r1) :=
          match r with
          | d :: r' => if (d =? 0x2B) || (d =? 0x2D) then ([d], r') else ([], r)
          | [] => ([], r)
          end in
        match span_digits r1 with
        | ([], _) => None
        | (ds, r') => Some (c :: sign ++ ds, r')
        end
      else Some ([], s)
  | [] => Some ([], s)
  end.

Definition parse_number (s : jsstring) : option (jsstring * jsstring) :=
  match parse_int_part s with
  | Some (i, s1) =>
      match parse_frac_part s1 with
      | Some (f, s2) =>
          match parse_exp_part s2 with
          | Some (e, s3) => Some (i ++ f ++ e, s3)
          | None => None
          end
      | None => None
      end
  | None => None
  end.

(** [s] without the prefix [p], when it starts with it. *)
Fixpoint strip_prefix (p s : jsstring) : option jsstring :=
  match p, s with
  | [], _ => Some s
  | a :: p', b :: s' => if a =? b then strip_prefix p' s' else None
  | _ :: _, [] => None
  end.

Definition parse_literal (s : jsstring) : option (value * jsstring) :=
  match strip_prefix (units "true") s with
  | Some r => Some (Bool true, r)
  | None =>
      match strip_prefix (units "false") s with
      | Some r => Some (Bool false, r)
      | None =>
          match strip_prefix (units "null") s with
          | Some r => Some (Null, r)
          | None => None
          end
      end
  end.

Definition tag_result {A B C} (f : A -> B) (p : option (A * C)) : option (B * C) :=
  match p with
  | Some (a, r) => Some (f a, r)
  | None => None
  end.

(** The recursive-descent parser, one level of it at a time: the three
    functions below take the parsers of the nested values as arguments. *)
Section Steps.

Variable value_rec : jsstring -> option (value * jsstring).
Variable elements_rec : jsstring -> option (list value * jsstring).
Variable members_rec : jsstring -> option (list (jsstring * value) * jsstring).

(** A value, after optional white space. *)
Definition value_step (s : jsstring) : option (value * jsstring) :=
  match skip_ws s with
  | [] => None
  | c :: r =>
      if c =? QUOTE then tag_result Str (parse_string_body r)
      else if c =? LBRACKET then
        match skip_ws r with
        | d :: r' =>
            if d =? RBRACKET then Some (Array [], r')
            else tag_result Array (elements_rec r)
        | [] => None
        end
      else if c =? LBRACE then
        match skip_ws r with
        | d :: r' =>
            if d =? RBRACE then Some (Object [], r')
            else tag_result Object (members_rec r)
        | [] => None
        end
      else if (c =? 0x2D) || is_digit c
           then tag_result Number (parse_number (c :: r))
      else parse_literal (c :: r)
  end.

(** The elements of a non-empty array and its closing bracket. *)
Definition elements_step (s : jsstring) : option (list value * jsstring) :=
  match value_rec s with
  | Some (v, r) =>
      match skip_ws r with
      | d :: r' =>
          if d =? COMMA then push v (elements_rec r')
          else if d =? RBRACKET then Some ([v], r')
          else None
      | [] => None
      end
  | None => None
  end.

(** The members of a non-empty object and its closing brace. *)
Definition members_step (s : jsstring)
  : option (list (jsstring * value) * jsstring) :=
  match skip_ws s with
  | q :: r =>
      if q =? QUOTE then
        match parse_string_body r with
        | Some (k, r1) =>
            match skip_ws r1 with
            | c :: r2 =>
                if c =? COLON then
                  match value_rec r2 with
                  | Some (v, r3) =>
                      match skip_ws r3 with
                      | d :: r4 =>
                          if d =? COMMA then push (k, v) (members_rec r4)
                          else if d =? RBRACE then Some ([(k, v)], r4)
                          else None
                      | [] => None
                      end
                  | None => None
                  end
                else None
            | [] => None
            end
        | None => None
        end
      else None
  | [] => None
  end.

End Steps.

(** [fuel] bounds the depth of the calls; [parse] below gives it a value
    that no text exhausts (lemma [JSONFacts.parse_value_fuel_enough]). *)
Fixpoint parse_value (fuel : nat) (s : jsstring) : option (value * jsstring) :=
  match fuel with
  | O => None
  | S f => value_step (parse_elements f) (parse_members f) s
  end

with parse_elements (fuel : nat) (s : jsstring) : option (list value * jsstring) :=
  match fuel with
  | O => None
  | S f => elements_step (parse_value f) (parse_elements f) s
  end

with parse_members (fuel : nat) (s : jsstring)
  : option (list (jsstring * value) * jsstring) :=
  match fuel with
  | O => None
  | S f => members_step (parse_value f) (parse_members f) s
  end.

Definition fuel_for (s : jsstring) : nat := 2 * length s + 1.

(** [JSON.parse(text)]: [None] stands for the [SyntaxError] it throws. *)
Definition parse (s : jsstring) : option value :=
  match parse_value (fuel_for s) s with
  | Some (v, r) =>
      match skip_ws r with
      | [] => Some v
      | _ :: _ => None
      end
  | None => None
  end.

(** A parser consumes: what it leaves is shorter than what it was given. *)
Definition consumes {A} (p : jsstring -> option (A * jsstring)) : Prop :=
  forall t a r, p t = Some (a, r) -> (length r < length t)%nat.

(** [p'] succeeds wherever [p] does, on the texts shorter than [s]. *)
Definition extends_below {A} (s : jsstring)
  (p p' : jsstring -> option (A * jsstring)) : Prop :=
  forall t y, (length t < length s)%nat -> p t = Some y -> p' t = Some y.

(** The JavaScript value of a [string[]]. *)
Definition of_strings (xs : list jsstring) : value := Array (map Str xs).

End JSON.

(* ================================================================== *)
(** ** Unicode: code points and UTF-8 *)

Module Unicode.

(** The code points of a string that leaves JavaScript: a high surrogate
    and the low one after it are one code point, and a surrogate without
    its partner is replaced by U+FFFD, as a UTF-8 encoder does. *)
Fixpoint code_points (s : jsstring) : list N :=
  match s with
  | [] => []
  | c :: r =>
      if JSON.is_high_surrogate c then
        match r with
        | d :: r' =>
            if JSON.is_low_surrogate d
            then (0x10000 + (c - 0xD800) * 0x400 + (d - 0xDC00)) :: code_points r'
            else 0xFFFD :: code_points r
        | [] => [0xFFFD]
        end
      else if JSON.is_low_surrogate c then 0xFFFD :: code_points r
      else c :: code_points r
  end.

(** The bytes of a code point in UTF-8. *)
Definition utf8_of (c : N) : list N :=
  if c <? 0x80 then [c]
  else if c <? 0x800 then [0xC0 + c / 0x40; 0x80 + c mod 0x40]
  else if c <? 0x10000
       then [0xE0 + c / 0x1000; 0x80 + (c / 0x40) mod 0x40; 0x80 + c mod 0x40]
  else [0xF0 + c / 0x40000; 0x80 + (c / 0x1000) mod 0x40;
        0x80 + (c / 0x40) mod 0x40; 0x80 + c mod 0x40].

(** The text in UTF-8, as SQLite stores it. *)
Definition utf8 (s : jsstring) : list N := flat_map utf8_of (code_points s).

End Unicode.

(* ================================================================== *)
(** ** The posts table behind the Prisma client *)

Module Prisma.

Inductive PostStatus : Type := DRAFT | PUBLISHED.

Definition status_eqb (a b : PostStatus) : bool :=
  match a, b with
  | DRAFT, DRAFT | PUBLISHED, PUBLISHED => true
  | _, _ => false
  end.

(** The enum values are the strings of their names. *)
Definition status_name (st : PostStatus) : jsstring :=
  match st with
  | DRAFT => units "DRAFT"
  | PUBLISHED => units "PUBLISHED"
  end.

(** An identifier of a post: opaque, drawn by the store from a counter. *)
Definition PostId := N.

(** A [Date], as its time value in milliseconds. *)
Definition Date := Z.

(** Modelled from the spec: [prisma/schema.prisma], which declares the
    [Post] model, is not among the sources.  The columns are those of the
    persisted record shape of the specification (section 6); a column is
    nullable where posts.ts passes a possibly undefined value to [create].
    [id] is an opaque identifier generated at creation, [slug] is unique,
    [createdAt] and [updatedAt] are maintained by the store.

    The record is parameterised by the type of [tags]: the stored row keeps
    the serialised text, [PostWithTags] the decoded value. *)
Record PostOf (T : Type) : Type := mkPost {
  id : PostId;
  title : jsstring;
  slug : jsstring;
  summary : option jsstring;
  contentMarkdown : jsstring;
  contentHtml : option jsstring;
  imageUrl : option jsstring;
  tags : T;
  sourceUrl : option jsstring;
  author : jsstring;
  publishedAt : Date;
  status : PostStatus;
  createdAt : Date;
  updatedAt : Date
}.

Definition Post := PostOf jsstring.

(** The table, in insertion order, and the supply of fresh identifiers. *)
Record Store : Type := mkStore {
  rows : list Post;
  next_id : PostId
}.

Definition empty_store : Store := {| rows := []; next_id := 0 |}.

Definition ids (s : Store) : list PostId := map (@id jsstring) (rows s).
Definition slugs (s : Store) : list jsstring := map (@slug jsstring) (rows s).

(** The invariant of the table: the primary key and the unique constraint
    on [slug] hold, and the identifiers handed out so far are below the
    next one. *)
Record wf (s : Store) : Prop := mkWf {
  wf_ids : NoDup (ids s);
  wf_slugs : NoDup (slugs s);
  wf_fresh : Forall (fun p : Post => id p < next_id s) (rows s)
}.

(** The errors of the client that the routes tell apart by their message,
    and the rejection of an argument. *)
Inductive PrismaError : Type :=
| RecordToUpdateNotFound
| RecordToDeleteDoesNotExist
| UniqueConstraintFailed
| InvalidArgument.

Inductive result (A : Type) : Type :=
| Ok : A -> result A
| Err : PrismaError -> result A.
Arguments Err {A} _.

(** [error.message], which the admin routes search for a phrase.  For a
    failed unique constraint on [slug] the message of the client ends with
    the sentence below; what stands before it names the call and its place
    in posts.ts, and has none of the phrases that the routes look for.  For
    the other errors, and above all for a record that is not found, the
    wording depends on the version of the client, which the repository
    does not fix: [cause] stands for it. *)
Definition UNIQUE_CONSTRAINT_TEXT : jsstring :=
  units "Unique constraint failed on the fields: (`slug`)".

Definition message (cause : PrismaError -> jsstring) (e : PrismaError)
  : jsstring :=
  match e with
  | UniqueConstraintFailed => UNIQUE_CONSTRAINT_TEXT
  | _ => cause e
  end.

(** The [data] argument of [post.create]. *)
Record CreateInput : Type := mkCreateInput {
  ci_title : jsstring;
  ci_slug : jsstring;
  ci_summary : option jsstring;
  ci_contentMarkdown : jsstring;
  ci_contentHtml : option jsstring;
  ci_imageUrl : option jsstring;
  ci_tags : jsstring;
  ci_sourceUrl : option jsstring;
  ci_author : jsstring;
  ci_publishedAt : Date;
  ci_status : PostStatus
}.

(** The [data] argument of [post.update]: a field that is [undefined]
    ([None]) is left as it is in the row. *)
Record UpdateInput : Type := mkUpdateInput {
  ui_title : option jsstring;
  ui_slug : option jsstring;
  ui_summary : option jsstring;
  ui_contentMarkdown : option jsstring;
  ui_contentHtml : option jsstring;
  ui_imageUrl : option jsstring;
  ui_tags : option jsstring;
  ui_sourceUrl : option jsstring;
  ui_author : option jsstring;
  ui_publishedAt : option Date;
  ui_status : option PostStatus
}.

Definition set {A} (new : option A) (old : A) : A :=
  match new with Some v => v | None => old end.

Definition set_nullable {A} (new : option A) (old : option A) : option A :=
  match new with Some v => Some v | None => old end.

Definition new_row (i : PostId) (now : Date) (d : CreateInput) : Post :=
  {| id := i; title := ci_title d; slug := ci_slug d;
     summary := ci_summary d; contentMarkdown := ci_contentMarkdown d;
     contentHtml := ci_contentHtml d; imageUrl := ci_imageUrl d;
     tags := ci_tags d; sourceUrl := ci_sourceUrl d; author := ci_author d;
     publishedAt := ci_publishedAt d; status := ci_status d;
     createdAt := now; updatedAt := now |}.

Definition absent {A} (a : option A) : bool :=
  match a with None => true | Some _ => false end.

(** The [data] object has no property at all (or only undefined ones):
    the client then writes nothing. *)
Definition no_data (d : UpdateInput) : bool :=
  absent (ui_title d) && absent (ui_slug d) && absent (ui_summary d)
  && absent (ui_contentMarkdown d) && absent (ui_contentHtml d)
  && absent (ui_imageUrl d) && absent (ui_tags d) && absent (ui_sourceUrl d)
  && absent (ui_author d) && absent (ui_publishedAt d)
  && absent (ui_status d).

(** The row after an update: the given fields are written, and
    [updatedAt] with them; with nothing to write the row stays as it is,
    [updatedAt] included. *)
Definition apply_update (now : Date) (d : UpdateInput) (p : Post) : Post :=
  {| id := id p;
     title := set (ui_title d) (title p);
     slug := set (ui_slug d) (slug p);
     summary := set_nullable (ui_summary d) (summary p);
     contentMarkdown := set (ui_contentMarkdown d) (contentMarkdown p);
     contentHtml := set_nullable (ui_contentHtml d) (contentHtml p);
     imageUrl := set_nullable (ui_imageUrl d) (imageUrl p);
     tags := set (ui_tags d) (tags p);
     sourceUrl := set_nullable (ui_sourceUrl d) (sourceUrl p);
     author := set (ui_author d) (author p);
     publishedAt := set (ui_publishedAt d) (publishedAt p);
     status := set (ui_status d) (status p);
     createdAt := createdAt p;
     updatedAt := if no_data d then updatedAt p else now |}.

(** [findUnique({ where: { id } })] and [findUnique({ where: { slug } })] *)
Definition findUnique_id (i : PostId) (s : Store) : option Post :=
  find (fun p => id p =? i) (rows s).

Definition findUnique_slug (sl : jsstring) (s : Store) : option Post :=
  find (fun p => JS.eqb (slug p) sl) (rows s).

(** The unique constraint on [slug]: does a row other than [i] hold [sl]? *)
Definition slug_taken_by_other (sl : jsstring) (i : PostId) (s : Store) : bool :=
  existsb (fun p => JS.eqb (slug p) sl && negb (id p =? i)) (rows s).

Definition slug_taken (sl : jsstring) (s : Store) : bool :=
  existsb (fun p => JS.eqb (slug p) sl) (rows s).

(** [post.create({ data })] *)
Definition create (now : Date) (d : CreateInput) (s : Store)
  : result Post * Store :=
  if slug_taken (ci_slug d) s then (Err UniqueConstraintFailed, s)
  else
    let p := new_row (next_id s) now d in
    (Ok p, {| rows := rows s ++ [p]; next_id := next_id s + 1 |}).

Fixpoint replace_row (p : Post) (l : list Post) : list Post :=
  match l with
  | [] => []
  | q :: r => if id q =? id p then p :: r else q :: replace_row p r
  end.

(** [post.update({ where: { id }, data })] *)
Definition update (now : Date) (i : PostId) (d : UpdateInput) (s : Store)
  : result Post * Store :=
  match findUnique_id i s with
  | None => (Err RecordToUpdateNotFound, s)
  | Some old =>
      let p := apply_update now d old in
      if slug_taken_by_other (slug p) i s then (Err UniqueConstraintFailed, s)
      else (Ok p, {| rows := replace_row p (rows s); next_id := next_id s |})
  end.

(** [post.delete({ where: { id } })] *)
Definition delete (i : PostId) (s : Store) : result Post * Store :=
  match findUnique_id i s with
  | None => (Err RecordToDeleteDoesNotExist, s)
  | Some old =>
      (Ok old, {| rows := filter (fun p => negb (id p =? i)) (rows s);
                  next_id := next_id s |})
  end.

(** [post.upsert({ where: { slug }, update, create })] *)
Definition upsert (now : Date) (sl : jsstring) (u : UpdateInput)
  (c : CreateInput) (s : Store) : result Post * Store :=
  match findUnique_slug sl s with
  | Some old => update now (id old) u s
  | None => create now c s
  end.

(** The [where] of [findMany] and [count]: a status, or no condition. *)
Definition WhereInput := option PostStatus.

Definition matches (w : WhereInput) (p : Post) : bool :=
  match w with
  | Some st => status_eqb (status p) st
  | None => true
  end.

Inductive OrderField : Type := ByPublishedAt | ByUpdatedAt | ByTitle.
Inductive SortOrder : Type := Asc | Desc.

(** [memcmp] of two byte sequences, the shorter one first when it is a
    prefix of the other. *)
Fixpoint bytes_leb (a b : list N) : bool :=
  match a, b with
  | [], _ => true
  | _ :: _, [] => false
  | x :: a', y :: b' => (x <? y) || ((x =? y) && bytes_leb a' b')
  end.

(** The order of a text column: SQLite compares the stored bytes. *)
Definition string_leb (a b : jsstring) : bool :=
  bytes_leb (Unicode.utf8 a) (Unicode.utf8 b).

Definition field_leb (f : OrderField) (p q : Post) : bool :=
  match f with
  | ByPublishedAt => (publishedAt p <=? publishedAt q)%Z
  | ByUpdatedAt => (updatedAt p <=? updatedAt q)%Z
  | ByTitle => string_leb (title p) (title q)
  end.

(** May [p] stand before [q] under [orderBy: { [f]: o }]? *)
Definition before (f : OrderField) (o : SortOrder) (p q : Post) : bool :=
  match o with
  | Asc => field_leb f p q
  | Desc => field_leb f q p
  end.

Fixpoint insert_sorted (le : Post -> Post -> bool) (p : Post) (l : list Post)
  : list Post :=
  match l with
  | [] => [p]
  | q :: r => if le p q then p :: l else q :: insert_sorted le p r
  end.

(** The rows in the requested order; rows with equal keys keep the order
    of the table. *)
Definition order_rows (f : OrderField) (o : SortOrder) (l : list Post)
  : list Post :=
  fold_right (insert_sorted (before f o)) [] l.

Definition opposite (o : SortOrder) : SortOrder :=
  match o with Asc => Desc | Desc => Asc end.

(** [skip] and [take] are 64-bit integers for the client: a number outside
    that range is rejected. *)
Definition in_int64 (n : Z) : bool :=
  ((- 2 ^ 63 <=? n) && (n <? 2 ^ 63))%Z.

(** The window [skip]/[take] of a result, given in the requested order
    ([forward]) and in the opposite one ([backward]).  A number that is no
    64-bit integer is rejected, and so is a negative [skip].  With a
    negative [take] the client queries in the opposite order, skips and
    takes there, and turns the rows it got around. *)
Definition window (skip take : Z) (forward backward : list Post)
  : result (list Post) :=
  if negb (in_int64 skip && in_int64 take) then Err InvalidArgument
  else if (skip <? 0)%Z then Err InvalidArgument
  else if (0 <=? take)%Z
       then Ok (firstn (Z.to_nat take) (skipn (Z.to_nat skip) forward))
  else Ok (rev (firstn (Z.to_nat (- take)) (skipn (Z.to_nat skip) backward))).

(** [post.findMany({ where, skip, take, orderBy })] *)
Definition findMany (w : WhereInput) (skip take : Z) (f : OrderField)
  (o : SortOrder) (s : Store) : result (list Post) :=
  let found := filter (matches w) (rows s) in
  window skip take (order_rows f o found) (order_rows f (opposite o) found).

(** [post.count({ where })] *)
Definition count (w : WhereInput) (s : Store) : Z :=
  Z.of_nat (length (filter (matches w) (rows s))).

End Prisma.

Import Prisma.

(* ================================================================== *)
(** ** [PostsService] (posts.ts) *)

Module Posts.

Record CreatePostData : Type := mkCreatePostData {
  cp_title : jsstring;
  cp_slug : option jsstring;
  cp_summary : option jsstring;
  cp_contentMarkdown : option jsstring;
  cp_contentHtml : option jsstring;
  cp_imageUrl : option jsstring;
  cp_tags : option (list jsstring);
  cp_sourceUrl : option jsstring;
  cp_author : option jsstring;
  cp_publishedAt : option Date;
  cp_status : option PostStatus
}.

Record UpdatePostData : Type := mkUpdatePostData {
  up_title : option jsstring;
  up_slug : option jsstring;
  up_summary : option jsstring;
  up_contentMarkdown : option jsstring;
  up_contentHtml : option jsstring;
  up_imageUrl : option jsstring;
  up_tags : option (list jsstring);
  up_sourceUrl : option jsstring;
  up_author : option jsstring;
  up_publishedAt : option Date;
  up_status : option PostStatus
}.

Definition PostWithTags := PostOf JSON.value.

Record PaginatedPosts : Type := mkPaginatedPosts {
  items : list PostWithTags;
  page : Z;
  total : Z;
  hasMore : bool
}.

(** A post that the public may see. *)
Definition published (p : PostWithTags) : Prop := status p = PUBLISHED.

(** [parseTags]: lines 47-53.  The value of [JSON.parse], whatever its
    shape, or the empty array when [JSON.parse] throws. *)
Definition parseTags (tagsJson : jsstring) : JSON.value :=
  match JSON.parse tagsJson with
  | Some v => v
  | None => JSON.Array []
  end.

(** [stringifyTags]: lines 56-58. *)
Definition stringifyTags (tags : list jsstring) : jsstring :=
  JSON.stringify tags.

(** [toPostWithTags]: lines 61-66. *)
Definition toPostWithTags (post : Post) : PostWithTags :=
  {| id := id post; title := title post; slug := slug post;
     summary := summary post; contentMarkdown := contentMarkdown post;
     contentHtml := contentHtml post; imageUrl := imageUrl post;
     tags := parseTags (tags post);
     sourceUrl := sourceUrl post; author := author post;
     publishedAt := publishedAt post; status := status post;
     createdAt := createdAt post; updatedAt := updatedAt post |}.

Definition generateSlug := Slug.generateSlug.

(** Is a possibly undefined string truthy? *)
Definition given (a : option jsstring) : bool :=
  match a with
  | Some s => truthy s
  | None => false
  end.

Definition SITE_AUTHOR : jsstring := units "Teacher AI Academy".

(** [const slug = data.slug || this.generateSlug(data.title)], lines 97
    and 214. *)
Definition slug_of (data : CreatePostData) : jsstring :=
  or_else (cp_slug data) (generateSlug (cp_title data)).

Section Service.

(** The markdown renderer [marked] of the package of that name. *)
Variable marked : jsstring -> jsstring.

(** [processContent]: lines 79-94.  The result object, as the pair of its
    two optional properties. *)
Definition processContent (md html : option jsstring)
  : option jsstring * option jsstring :=
  let result_md := if given md then md else None in
  let result_html :=
    if given md && negb (given html)
    then match md with Some m => Some (marked m) | None => None end
    else None in
  let result_html := if given html then html else result_html in
  (result_md, result_html).

(** The [data] object that [createPost] and the create branch of
    [upsertPostBySlug] build (lines 101-113 and 231-243). *)
Definition create_input (now : Date) (data : CreatePostData) : CreateInput :=
  let slug := slug_of data in
  let content := processContent (cp_contentMarkdown data) (cp_contentHtml data) in
  {| ci_title := cp_title data;
     ci_slug := slug;
     ci_summary := cp_summary data;
     ci_contentMarkdown := or_else (fst content) [];
     ci_contentHtml := snd content;
     ci_imageUrl := cp_imageUrl data;
     ci_tags := stringifyTags (match cp_tags data with Some t => t | None => [] end);
     ci_sourceUrl := cp_sourceUrl data;
     ci_author := or_else (cp_author data) SITE_AUTHOR;
     ci_publishedAt := match cp_publishedAt data with Some d => d | None => now end;
     ci_status := match cp_status data with Some st => st | None => PUBLISHED end |}.

(** [createPost]: lines 96-117. *)
Definition createPost (now : Date) (data : CreatePostData) (s : Store)
  : result PostWithTags * Store :=
  match Prisma.create now (create_input now data) s with
  | (Ok post, s') => (Ok (toPostWithTags post), s')
  | (Err e, s') => (Err e, s')
  end.

(** [updateData] of [updatePost] (lines 122-133): the spread of [data],
    over which the properties that [content] has are written, then [tags]
    serialised when given. *)
Definition update_input (data : UpdatePostData) : UpdateInput :=
  let content := processContent (up_contentMarkdown data) (up_contentHtml data) in
  {| ui_title := up_title data;
     ui_slug := up_slug data;
     ui_summary := up_summary data;
     ui_contentMarkdown :=
       match fst content with Some m => Some m | None => up_contentMarkdown data end;
     ui_contentHtml :=
       match snd content with Some h => Some h | None => up_contentHtml data end;
     ui_imageUrl := up_imageUrl data;
     ui_tags := option_map stringifyTags (up_tags data);
     ui_sourceUrl := up_sourceUrl data;
     ui_author := up_author data;
     ui_publishedAt := up_publishedAt data;
     ui_status := up_status data |}.

(** [updatePost]: lines 119-141. *)
Definition updatePost (now : Date) (i : PostId) (data : UpdatePostData)
  (s : Store) : result PostWithTags * Store :=
  match Prisma.update now i (update_input data) s with
  | (Ok post, s') => (Ok (toPostWithTags post), s')
  | (Err e, s') => (Err e, s')
  end.

(** [deletePost]: lines 143-147. *)
Definition deletePost (i : PostId) (s : Store) : result unit * Store :=
  match Prisma.delete i s with
  | (Ok _, s') => (Ok tt, s')
  | (Err e, s') => (Err e, s')
  end.

(** [getPostById]: lines 149-155. *)
Definition getPostById (i : PostId) (s : Store) : option PostWithTags :=
  option_map toPostWithTags (findUnique_id i s).

(** [getPostBySlug]: lines 157-163. *)
Definition getPostBySlug (sl : jsstring) (s : Store) : option PostWithTags :=
  option_map toPostWithTags (findUnique_slug sl s).

Record GetPostsOptions : Type := mkGetPostsOptions {
  o_status : option PostStatus;
  o_page : option Z;
  o_limit : option Z;
  o_orderBy : option OrderField;
  o_order : option SortOrder
}.

Definition default {A} (a : option A) (d : A) : A :=
  match a with Some v => v | None => d end.

(** [const maxLimit = Math.min(limit, 50)] and
    [const skip = (page - 1) * maxLimit], lines 180-181. *)
Definition maxLimit_of (options : GetPostsOptions) : Z :=
  Z.min (default (o_limit options) 10%Z) 50%Z.

Definition skip_of (options : GetPostsOptions) : Z :=
  Double.mul (Double.sub (default (o_page options) 1%Z) 1) (maxLimit_of options).

(** [const where = status ? { status } : {}], line 183, after the default
    of line 173. *)
Definition where_of (options : GetPostsOptions) : WhereInput :=
  let status := default (o_status options) PUBLISHED in
  if truthy (status_name status) then Some status else None.

(** [getPosts]: lines 165-201. *)
Definition getPosts (options : GetPostsOptions) (s : Store)
  : result PaginatedPosts :=
  let page := default (o_page options) 1%Z in
  let orderBy := default (o_orderBy options) ByPublishedAt in
  let order := default (o_order options) Desc in
  let maxLimit := maxLimit_of options in
  let skip := skip_of options in
  let where_ := where_of options in
  match findMany where_ skip maxLimit orderBy order s with
  | Ok posts =>
      let total := count where_ s in
      Ok {| items := map toPostWithTags posts;
            page := page;
            total := total;
            hasMore := (Double.add skip maxLimit <? total)%Z |}
  | Err e => Err e
  end.

(** [getPublishedPostsForRSS]: lines 203-211. *)
Definition getPublishedPostsForRSS (limit : option Z) (s : Store)
  : result (list PostWithTags) :=
  match findMany (Some PUBLISHED) 0 (default limit 50%Z) ByPublishedAt Desc s with
  | Ok posts => Ok (map toPostWithTags posts)
  | Err e => Err e
  end.

(** The [update] object of [upsertPostBySlug], lines 219-230: every
    property but [slug]; [summary], [contentHtml], [imageUrl] and
    [sourceUrl] are undefined when the payload does not have them. *)
Definition upsert_update_input (now : Date) (data : CreatePostData) : UpdateInput :=
  let content := processContent (cp_contentMarkdown data) (cp_contentHtml data) in
  {| ui_title := Some (cp_title data);
     ui_slug := None;
     ui_summary := cp_summary data;
     ui_contentMarkdown := Some (or_else (fst content) []);
     ui_contentHtml := snd content;
     ui_imageUrl := cp_imageUrl data;
     ui_tags := Some (stringifyTags (match cp_tags data with Some t => t | None => [] end));
     ui_sourceUrl := cp_sourceUrl data;
     ui_author := Some (or_else (cp_author data) SITE_AUTHOR);
     ui_publishedAt := Some (match cp_publishedAt data with Some d => d | None => now end);
     ui_status := Some (match cp_status data with Some st => st | None => PUBLISHED end) |}.

(** [upsertPostBySlug]: lines 213-247. *)
Definition upsertPostBySlug (now : Date) (data : CreatePostData) (s : Store)
  : result PostWithTags * Store :=
  let slug := slug_of data in
  match Prisma.upsert now slug (upsert_update_input now data)
          (create_input now data) s with
  | (Ok post, s') => (Ok (toPostWithTags post), s')
  | (Err e, s') => (Err e, s')
  end.

End Service.

End Posts.

Import Posts.

(* ================================================================== *)
(** ** Route handlers (routes/public.ts, routes/rss.ts, routes/posts.ts) *)

Module Routes.

(** What a handler sends: [res.json({ success: true, data })], or an error
    status with no post in its body. *)
Inductive Response (A : Type) : Type :=
| Success : A -> Response A
| Failure : N -> Response A.
Arguments Failure {A} _.

(** A query parameter that names a field or a direction: absent (or
    empty), one of the names the service knows, or any other text. *)
Inductive QueryName (A : Type) : Type :=
| Missing : QueryName A
| Named : A -> QueryName A
| Unknown : QueryName A.
Arguments Missing {A}.
Arguments Unknown {A}.

(** [parseInt(text) || d], with [None] for the [NaN] of [parseInt]. *)
Definition int_or (parsed : option Z) (d : Z) : Z :=
  match parsed with
  | Some n => if (n =? 0)%Z then d else n
  | None => d
  end.

Record ListQuery : Type := mkListQuery {
  q_page : option Z;
  q_limit : option Z;
  q_orderBy : QueryName OrderField;
  q_order : QueryName SortOrder
}.

(** The posts that a response carries. *)
Definition listing_posts (r : Response PaginatedPosts) : list PostWithTags :=
  match r with
  | Success result => items result
  | Failure _ => []
  end.

Definition single_post (r : Response PostWithTags) : list PostWithTags :=
  match r with
  | Success post => [post]
  | Failure _ => []
  end.

Definition feed_posts (r : Response (list PostWithTags)) : list PostWithTags :=
  match r with
  | Success posts => posts
  | Failure _ => []
  end.

Section Handlers.

Variable marked : jsstring -> jsstring.

(** The wording of the messages of the client that the repository does not
    fix (see [Prisma.message]). *)
Variable cause : PrismaError -> jsstring.

(** [GET /posts] of the public router.  A name that Prisma does not know
    makes the query throw, and the handler answers 500. *)
Definition public_posts (q : ListQuery) (s : Store) : Response PaginatedPosts :=
  let page := int_or (q_page q) 1 in
  let limit := Z.min (int_or (q_limit q) 10) 50 in
  match q_orderBy q, q_order q with
  | Unknown, _ | _, Unknown => Failure 500
  | ob, o =>
      let orderBy := match ob with Named f => f | _ => ByPublishedAt end in
      let order := match o with Named d => d | _ => Desc end in
      match getPosts {| o_status := Some PUBLISHED; o_page := Some page;
                        o_limit := Some limit; o_orderBy := Some orderBy;
                        o_order := Some order |} s with
      | Ok result => Success result
      | Err _ => Failure 500
      end
  end.

(** [GET /posts/:slug] of the public router. *)
Definition public_post (sl : jsstring) (s : Store) : Response PostWithTags :=
  match getPostBySlug sl s with
  | None => Failure 404
  | Some post =>
      if negb (status_eqb (status post) PUBLISHED) then Failure 404
      else Success post
  end.

(** [GET /] of the RSS router: the limit of the query, then the posts that
    become the items of the feed, one item each, in this order. *)
Definition rss_limit (parsed : option Z) : Z :=
  Z.min (int_or parsed 50) 100.

Definition rss_feed (parsed_limit : option Z) (s : Store)
  : Response (list PostWithTags) :=
  match getPublishedPostsForRSS (Some (rss_limit parsed_limit)) s with
  | Ok posts => Success posts
  | Err _ => Failure 500
  end.

(** [PUT /:id] of the admin router (routes/posts.ts, lines 72-115), for a
    body that passed validation: the [catch] searches the message of the
    error for two phrases, in this order. *)
Definition admin_update (now : Date) (i : PostId) (data : UpdatePostData)
  (s : Store) : Response PostWithTags * Store :=
  match updatePost marked now i data s with
  | (Ok post, s') => (Success post, s')
  | (Err e, s') =>
      if includes (message cause e) (units "Record to update not found")
      then (Failure 404, s')
      else if includes (message cause e) (units "Unique constraint")
      then (Failure 409, s')
      else (Failure 500, s')
  end.

(** [DELETE /:id] of the admin router (routes/posts.ts, lines 118-141). *)
Definition admin_delete (i : PostId) (s : Store) : Response unit * Store :=
  match deletePost i s with
  | (Ok _, s') => (Success tt, s')
  | (Err e, s') =>
      if includes (message cause e) (units "Record to delete does not exist")
      then (Failure 404, s')
      else (Failure 500, s')
  end.

End Handlers.

End Routes.

Import Routes.


(* ================================================================== *)
(** ** What the specification says, and sample data for the examples *)

Module Spec.

(** [clamp(x, lo, hi)] of the specification. *)
Definition clamp (x lo hi : Z) : Z := Z.max lo (Z.min x hi).

(** What a post shows of the call that wrote it, for the payload [data] of
    a create or an upsert at time [now]: every field but [id], [slug] and
    [createdAt].  [before] is the row that had the slug before the call, if
    there was one.  The fields that the call always writes have the value
    of the payload, or their default; [summary], [imageUrl] and [sourceUrl]
    have the value of the payload when it has one, and otherwise the value
    they had before (none for a new post); [contentHtml] is the HTML of
    the payload when that is not empty, else the rendering of its markdown
    when that is not empty, else the HTML that the post had before. *)
Definition nonempty (a : option jsstring) : option jsstring :=
  match a with
  | Some (c :: r) => Some (c :: r)
  | _ => None
  end.

Definition value_before (before : option Post) (field : Post -> option jsstring)
  : option jsstring :=
  match before with
  | Some old => field old
  | None => None
  end.

Definition carries (marked : jsstring -> jsstring) (now : Date)
  (data : CreatePostData) (before : option Post) (post : PostWithTags) : Prop :=
  title post = cp_title data
  /\ contentMarkdown post = default (cp_contentMarkdown data) []
  /\ contentHtml post
     = match nonempty (cp_contentHtml data), nonempty (cp_contentMarkdown data) with
       | Some html, _ => Some html
       | None, Some md => Some (marked md)
       | None, None => value_before before (@contentHtml _)
       end
  /\ tags post = JSON.of_strings (default (cp_tags data) [])
  /\ author post = default (nonempty (cp_author data)) SITE_AUTHOR
  /\ publishedAt post = default (cp_publishedAt data) now
  /\ status post = default (cp_status data) PUBLISHED
  /\ updatedAt post = now
  /\ summary post
     = match cp_summary data with
       | Some v => Some v
       | None => value_before before (@summary _)
       end
  /\ imageUrl post
     = match cp_imageUrl data with
       | Some v => Some v
       | None => value_before before (@imageUrl _)
       end
  /\ sourceUrl post
     = match cp_sourceUrl data with
       | Some v => Some v
       | None => value_before before (@sourceUrl _)
       end.


(** The stores that the service reaches from the empty table. *)
Inductive reachable (marked : jsstring -> jsstring) : Store -> Prop :=
| reach_empty : reachable marked empty_store
| reach_create (now : Date) (data : CreatePostData) (s : Store) :
    reachable marked s ->
    reachable marked (snd (createPost marked now data s))
| reach_update (now : Date) (i : PostId) (data : UpdatePostData) (s : Store) :
    reachable marked s ->
    reachable marked (snd (updatePost marked now i data s))
| reach_delete (i : PostId) (s : Store) :
    reachable marked s ->
    reachable marked (snd (deletePost i s))
| reach_upsert (now : Date) (data : CreatePostData) (s : Store) :
    reachable marked s ->
    reachable marked (snd (upsertPostBySlug marked now data s)).

End Spec.

Module Samples.

(** A stand-in for the renderer, where an example has to run one. *)
Definition sample_marked (md : jsstring) : jsstring :=
  units "<p>" ++ md ++ units "</p>".

Definition two_digits (n : N) : jsstring := [0x30 + n / 10; 0x30 + n mod 10].

(** The payload of the post numbered [n]. *)
Definition sample_data (n : N) (st : PostStatus) : CreatePostData :=
  {| cp_title := units "Post " ++ two_digits n;
     cp_slug := None;
     cp_summary := None;
     cp_contentMarkdown := Some (units "# Hi");
     cp_contentHtml := None;
     cp_imageUrl := None;
     cp_tags := Some [units "ai"; units "education"];
     cp_sourceUrl := None;
     cp_author := None;
     cp_publishedAt := None;
     cp_status := Some st |}.

(** The store after [createPost] was called for [count] posts numbered
    from [n] on, the post numbered [k] at time [k]. *)
Fixpoint add_posts (count : nat) (n : N) (st : PostStatus) (s : Store) : Store :=
  match count with
  | O => s
  | S k =>
      add_posts k (n + 1) st
        (snd (createPost sample_marked (Z.of_N n) (sample_data n st) s))
  end.

(** A store with that many published posts and drafts. *)
Definition sample_store (published drafts : nat) : Store :=
  add_posts drafts (N.of_nat published) DRAFT
    (add_posts published 0 PUBLISHED empty_store).

(** A payload whose only content is an empty markdown text. *)
Definition only_empty_markdown : CreatePostData :=
  {| cp_title := units "Hi";
     cp_slug := None;
     cp_summary := None;
     cp_contentMarkdown := Some [];
     cp_contentHtml := None;
     cp_imageUrl := None;
     cp_tags := None;
     cp_sourceUrl := None;
     cp_author := None;
     cp_publishedAt := None;
     cp_status := None |}.



(** A body of [PUT /:id]. *)
Definition title_update : UpdatePostData :=
  {| up_title := Some (units "Updated Title"); up_slug := None;
     up_summary := None; up_contentMarkdown := None; up_contentHtml := None;
     up_imageUrl := None; up_tags := None; up_sourceUrl := None;
     up_author := None; up_publishedAt := None; up_status := None |}.

(** Filters of the examples. *)
Definition page3 : GetPostsOptions :=
  {| o_status := Some PUBLISHED; o_page := Some 3%Z; o_limit := Some 10%Z;
     o_orderBy := None; o_order := None |}.

Definition page2_limit0 : GetPostsOptions :=
  {| o_status := Some PUBLISHED; o_page := Some 2%Z; o_limit := Some 0%Z;
     o_orderBy := None; o_order := None |}.

Definition page1_limit60 : GetPostsOptions :=
  {| o_status := Some PUBLISHED; o_page := Some 1%Z; o_limit := Some 60%Z;
     o_orderBy := None; o_order := None |}.

(** The page [10^20], which is a double. *)
Definition far_page : GetPostsOptions :=
  {| o_status := Some PUBLISHED; o_page := Some (10 ^ 20)%Z;
     o_limit := Some 10%Z; o_orderBy := None; o_order := None |}.

Definition no_options : GetPostsOptions :=
  {| o_status := None; o_page := None; o_limit := None;
     o_orderBy := None; o_order := None |}.

End Samples.

Import Spec Samples.

(* ================================================================== *)
(** ** Authentication middleware (middleware/auth.ts) *)

Module Auth.

(** What a middleware does with a request: it calls [next()], or it answers
    with a status and the chain stops. *)
Inductive Gate : Type :=
| Next : Gate
| Reject : N -> Gate.

(** [s.startsWith(prefix)] *)
Fixpoint startsWith (s prefix : jsstring) {struct prefix} : bool :=
  match prefix, s with
  | [], _ => true
  | a :: prefix', b :: s' => (a =? b) && startsWith s' prefix'
  | _ :: _, [] => false
  end.

(** [s.substring(start)] *)
Definition substring (start : nat) (s : jsstring) : jsstring := skipn start s.

Definition BEARER : jsstring := units "Bearer ".

(** [requireAuth], lines 7-33: [authHeader] is [req.headers.authorization]
    and [token] is [process.env.ADMIN_BEARER_TOKEN]. *)
Definition requireAuth (authHeader token : option jsstring) : Gate :=
  match token with
  | None => Reject 500
  | Some tok =>
      if negb (truthy tok) then Reject 500
      else if negb (given authHeader)
                || negb (startsWith (or_else authHeader []) BEARER)
           then Reject 401
      else
        let providedToken := substring 7 (or_else authHeader []) in
        if negb (JS.eqb providedToken tok) then Reject 401
        else Next
  end.

(** [requireWebhookSecret], lines 35-59: [providedSecret] is the header
    [x-n8n-secret] and [secret] is [process.env.N8N_WEBHOOK_SECRET]. *)
Definition requireWebhookSecret (providedSecret secret : option jsstring) : Gate :=
  match secret with
  | None => Reject 500
  | Some sec =>
      if negb (truthy sec) then Reject 500
      else if negb (given providedSecret) then Reject 401
      else if negb (JS.eqb (or_else providedSecret []) sec) then Reject 401
      else Next
  end.

(** A handler behind a middleware: it runs when the middleware calls
    [next()], and not at all otherwise. *)
Inductive Guarded (A : Type) : Type :=
| Handled : A -> Guarded A
| Denied : N -> Guarded A.
Arguments Denied {A} _.

Definition guarded {A} (g : Gate) (handler : Store -> A * Store) (s : Store)
  : Guarded A * Store :=
  match g with
  | Next => let (a, s') := handler s in (Handled a, s')
  | Reject status => (Denied status, s)
  end.

End Auth.

Import Auth.

(* ================================================================== *)
(** ** The other routes: admin, webhook, feed items *)

Module Admin.

(** An answer that carries its status: [res.status(code).json(...)]. *)
Inductive Reply (A : Type) : Type :=
| Sent : N -> A -> Reply A
| Refused : N -> Reply A.
Arguments Refused {A} _.

(** The [status] parameter of the admin listing, which the handler passes
    on as it is: absent, the empty text, one of the two names, or any other
    value. *)
Inductive StatusParam : Type :=
| StatusAbsent
| StatusEmpty
| StatusNamed (st : PostStatus)
| StatusOther.

Record AdminListQuery : Type := mkAdminListQuery {
  aq_page : option Z;
  aq_limit : option Z;
  aq_status : StatusParam;
  aq_orderBy : QueryName OrderField;
  aq_order : QueryName SortOrder
}.

(** The body of [getPosts] (posts.ts, lines 180-200) for a given [where]:
    [getPosts] itself is the case [where_of options]; the empty [where] is
    what line 183 builds for a [status] that is the empty text. *)
Definition getPosts_where (where_ : WhereInput) (options : GetPostsOptions)
  (s : Store) : result PaginatedPosts :=
  let page := default (o_page options) 1%Z in
  let orderBy := default (o_orderBy options) ByPublishedAt in
  let order := default (o_order options) Desc in
  let maxLimit := maxLimit_of options in
  let skip := skip_of options in
  match findMany where_ skip maxLimit orderBy order s with
  | Ok posts =>
      let total := count where_ s in
      Ok {| items := map toPostWithTags posts;
            page := page;
            total := total;
            hasMore := (Double.add skip maxLimit <? total)%Z |}
  | Err e => Err e
  end.

Section Handlers.

Variable marked : jsstring -> jsstring.
Variable cause : PrismaError -> jsstring.

(** [POST /] of the admin router (routes/posts.ts, lines 33-69), for a
    body that passed validation. *)
Definition admin_create (now : Date) (data : CreatePostData) (s : Store)
  : Reply PostWithTags * Store :=
  match createPost marked now data s with
  | (Ok post, s') => (Sent 201 post, s')
  | (Err e, s') =>
      if includes (message cause e) (units "Unique constraint")
      then (Refused 409, s')
      else (Refused 500, s')
  end.

(** [GET /] of the admin router (lines 144-171). *)
Definition admin_posts (q : AdminListQuery) (s : Store) : Response PaginatedPosts :=
  let page := int_or (aq_page q) 1 in
  let limit := int_or (aq_limit q) 10 in
  match aq_orderBy q, aq_order q with
  | Unknown, _ | _, Unknown => Failure 500
  | ob, o =>
      let orderBy := match ob with Named f => f | _ => ByPublishedAt end in
      let order := match o with Named d => d | _ => Desc end in
      let options st :=
        {| o_status := st; o_page := Some page; o_limit := Some limit;
           o_orderBy := Some orderBy; o_order := Some order |} in
      let answer :=
        match aq_status q with
        | StatusAbsent => getPosts (options None) s
        | StatusNamed st => getPosts (options (Some st)) s
        | StatusEmpty => getPosts_where None (options None) s
        | StatusOther => Err InvalidArgument
        end in
      match answer with
      | Ok result => Success result
      | Err _ => Failure 500
      end
  end.

(** [GET /:id] of the admin router (lines 174-197). *)
Definition admin_post (i : PostId) (s : Store) : Response PostWithTags :=
  match getPostById i s with
  | None => Failure 404
  | Some post => Success post
  end.

(** The admin requests, from the authentication on (the router installs
    [requireAuth] before the handlers, lines 27-30). *)
Definition admin_create_request (authHeader token : option jsstring)
  (now : Date) (data : CreatePostData) :=
  guarded (requireAuth authHeader token) (admin_create now data).

Definition admin_update_request (authHeader token : option jsstring)
  (now : Date) (i : PostId) (data : UpdatePostData) :=
  guarded (requireAuth authHeader token) (admin_update marked cause now i data).

Definition admin_delete_request (authHeader token : option jsstring)
  (i : PostId) :=
  guarded (requireAuth authHeader token) (admin_delete cause i).

(** The validated body of the n8n webhook (webhook router, lines 209-219
    of routes/posts.ts): the fields of a post, without [author] and [status]. *)
Record WebhookPayload : Type := mkWebhookPayload {
  wh_title : jsstring;
  wh_slug : option jsstring;
  wh_summary : option jsstring;
  wh_contentHtml : option jsstring;
  wh_contentMarkdown : option jsstring;
  wh_imageUrl : option jsstring;
  wh_tags : option (list jsstring);
  wh_sourceUrl : option jsstring;
  wh_publishedAt : option Date
}.

(** [{ ...validatedData, status: 'PUBLISHED' }] *)
Definition webhook_data (payload : WebhookPayload) : CreatePostData :=
  {| cp_title := wh_title payload;
     cp_slug := wh_slug payload;
     cp_summary := wh_summary payload;
     cp_contentMarkdown := wh_contentMarkdown payload;
     cp_contentHtml := wh_contentHtml payload;
     cp_imageUrl := wh_imageUrl payload;
     cp_tags := wh_tags payload;
     cp_sourceUrl := wh_sourceUrl payload;
     cp_author := None;
     cp_publishedAt := wh_publishedAt payload;
     cp_status := Some PUBLISHED |}.

(** [POST /] of the webhook router: the answer is [{ ok: true, id, slug }]. *)
Definition webhook (now : Date) (payload : WebhookPayload) (s : Store)
  : Reply (PostId * jsstring) * Store :=
  match upsertPostBySlug marked now (webhook_data payload) s with
  | (Ok post, s') => (Sent 200 (id post, slug post), s')
  | (Err _, s') => (Refused 500, s')
  end.

Definition webhook_request (providedSecret secret : option jsstring)
  (now : Date) (payload : WebhookPayload) :=
  guarded (requireWebhookSecret providedSecret secret) (webhook now payload).

End Handlers.

(** The options of an item of the feed, as the RSS router passes them to
    [feed.item] (lines 298-317 of routes/posts.ts). *)
Record FeedItem : Type := mkFeedItem {
  fi_title : jsstring;
  fi_description : jsstring;
  fi_url : jsstring;
  fi_guid : PostId;
  fi_date : Date;
  fi_author : jsstring;
  fi_categories : JSON.value;
  fi_content : jsstring
}.

Definition DEFAULT_SITE : jsstring := units "http://localhost:8080".

Definition feed_item (siteBaseUrl : jsstring) (post : PostWithTags) : FeedItem :=
  {| fi_title := title post;
     fi_description := or_else (summary post) (or_else (contentHtml post) []);
     fi_url := siteBaseUrl ++ units "/blog/" ++ slug post;
     fi_guid := id post;
     fi_date := publishedAt post;
     fi_author := author post;
     fi_categories := tags post;
     fi_content := or_else (contentHtml post) [] |}.

(** The items of the feed of [GET /] of the RSS router, in the order in
    which they are added; [site] is [process.env.SITE_BASE_URL]. *)
Definition rss_items (site : option jsstring) (parsed_limit : option Z)
  (s : Store) : Response (list FeedItem) :=
  let siteBaseUrl := or_else site DEFAULT_SITE in
  match getPublishedPostsForRSS (Some (rss_limit parsed_limit)) s with
  | Ok posts => Success (map (feed_item siteBaseUrl) posts)
  | Err _ => Failure 500
  end.

End Admin.

Import Admin.

(* ================================================================== *)
(** ** The seed script *)

Module Seed.

(** A text of several lines, as a template literal holds it: the lines
    joined by line feeds. *)
Fixpoint lines (l : list string) : jsstring :=
  match l with
  | [] => []
  | [x] => units x
  | x :: r => units x ++ 0x0A :: lines r
  end.

Definition WELCOME_MARKDOWN : jsstring :=
  lines
    ["# Welcome to Teacher AI Academy"%string;
     EmptyString;
     "We're excited to help you integrate AI into your teaching practice. This platform provides comprehensive resources, tools, and strategies to enhance your classroom experience."%string;
     EmptyString;
     "## What You'll Learn"%string;
     EmptyString;
     "- AI fundamentals for educators"%string;
     "- Practical implementation strategies"%string;
     "- Assessment and evaluation techniques"%string;
     "- Ethical considerations and best practices"%string;
     EmptyString;
     "## Getting Started"%string;
     EmptyString;
     "Begin your AI journey with our comprehensive curriculum designed specifically for teachers."%string].

Definition WELCOME_HTML : jsstring :=
  lines
    ["<h1>Welcome to Teacher AI Academy</h1>"%string;
     "<p>We're excited to help you integrate AI into your teaching practice. This platform provides comprehensive resources, tools, and strategies to enhance your classroom experience.</p>"%string;
     "<h2>What You'll Learn</h2>"%string;
     "<ul>"%string;
     "<li>AI fundamentals for educators</li>"%string;
     "<li>Practical implementation strategies</li>"%string;
     "<li>Assessment and evaluation techniques</li>"%string;
     "<li>Ethical considerations and best practices</li>"%string;
     "</ul>"%string;
     "<h2>Getting Started</h2>"%string;
     "<p>Begin your AI journey with our comprehensive curriculum designed specifically for teachers.</p>"%string].

Definition STARTED_MARKDOWN : jsstring :=
  lines
    ["# Getting Started with AI in the Classroom"%string;
     EmptyString;
     "Introducing AI to your classroom doesn't have to be overwhelming. Here's a step-by-step guide to get you started."%string;
     EmptyString;
     "## Step 1: Start Small"%string;
     EmptyString;
     "Begin with simple AI tools that enhance existing lessons rather than replacing your teaching methods entirely."%string;
     EmptyString;
     "## Step 2: Focus on Learning Objectives"%string;
     EmptyString;
     "Always start with your learning objectives and use AI to help achieve those goals."%string;
     EmptyString;
     "## Step 3: Maintain Human Oversight"%string;
     EmptyString;
     "AI should enhance your teaching, not replace your professional judgment and relationships with students."%string].

Definition STARTED_HTML : jsstring :=
  lines
    ["<h1>Getting Started with AI in the Classroom</h1>"%string;
     "<p>Introducing AI to your classroom doesn't have to be overwhelming. Here's a step-by-step guide to get you started.</p>"%string;
     "<h2>Step 1: Start Small</h2>"%string;
     "<p>Begin with simple AI tools that enhance existing lessons rather than replacing your teaching methods entirely.</p>"%string;
     "<h2>Step 2: Focus on Learning Objectives</h2>"%string;
     "<p>Always start with your learning objectives and use AI to help achieve those goals.</p>"%string;
     "<h2>Step 3: Maintain Human Oversight</h2>"%string;
     "<p>AI should enhance your teaching, not replace your professional judgment and relationships with students.</p>"%string].

(** An element of [samplePosts], lines 351-418 of routes/posts.ts. *)
Record SamplePost : Type := mkSamplePost {
  sp_title : jsstring;
  sp_slug : jsstring;
  sp_summary : jsstring;
  sp_contentMarkdown : jsstring;
  sp_contentHtml : jsstring;
  sp_tags : list jsstring;
  sp_author : jsstring;
  sp_status : PostStatus;
  sp_publishedAt : Date
}.

(** [samplePosts]; [now] is the time of [new Date()] and of [Date.now()]. *)
Definition samplePosts (now : Date) : list SamplePost :=
  [ {| sp_title := units "Welcome to Teacher AI Academy";
       sp_slug := units "welcome-to-teacher-ai-academy";
       sp_summary := units "Discover how artificial intelligence can transform your teaching practice and enhance student learning outcomes.";
       sp_contentMarkdown := WELCOME_MARKDOWN;
       sp_contentHtml := WELCOME_HTML;
       sp_tags := [units "welcome"; units "introduction"; units "ai-education"];
       sp_author := units "Teacher AI Academy";
       sp_status := PUBLISHED;
       sp_publishedAt := now |};
    {| sp_title := units "Getting Started with AI in the Classroom";
       sp_slug := units "getting-started-with-ai-in-the-classroom";
       sp_summary := units "Learn the essential first steps for introducing AI tools and concepts to your students in a safe and effective way.";
       sp_contentMarkdown := STARTED_MARKDOWN;
       sp_contentHtml := STARTED_HTML;
       sp_tags := [units "getting-started"; units "classroom"; units "ai-tools"];
       sp_author := units "Teacher AI Academy";
       sp_status := PUBLISHED;
       sp_publishedAt := (now - 86400000)%Z |} ].

(** [{ ...postData, tags: JSON.stringify(postData.tags) }] *)
Definition seed_input (p : SamplePost) : CreateInput :=
  {| ci_title := sp_title p;
     ci_slug := sp_slug p;
     ci_summary := Some (sp_summary p);
     ci_contentMarkdown := sp_contentMarkdown p;
     ci_contentHtml := Some (sp_contentHtml p);
     ci_imageUrl := None;
     ci_tags := JSON.stringify (sp_tags p);
     ci_sourceUrl := None;
     ci_author := sp_author p;
     ci_publishedAt := sp_publishedAt p;
     ci_status := sp_status p |}.

(** The loop of lines 421-428: one [create] per sample post; an error ends
    the script. *)
Fixpoint create_all (now : Date) (l : list SamplePost) (s : Store)
  : result unit * Store :=
  match l with
  | [] => (Ok tt, s)
  | p :: r =>
      match Prisma.create now (seed_input p) s with
      | (Ok _, s') => create_all now r s'
      | (Err e, s') => (Err e, s')
      end
  end.

(** [seed()], lines 339-437 of routes/posts.ts. *)
Definition seed (now : Date) (s : Store) : result unit * Store :=
  let existingPosts := count None s in
  if (0 <? existingPosts)%Z then (Ok tt, s)
  else create_all now (samplePosts now) s.

End Seed.

Import Seed.

(* ================================================================== *)
(** ** The blog helper of the site's pages *)

(** The class [BlogAPI] of the page script: how it asks the public router
    for a page of posts and what it then puts on the page.  The requests
    are taken to reach the server; the HTML of a post card, whose date
    depends on the locale of the browser, is not part of the model. *)
Module BlogAPI.


Definition QUOTE : jsstring := [0x22].


(** [getPosts(page = 1, limit = 10)], lines 19-33: the data of the answer
    of [GET /api/posts?page=...&limit=...], or [None] when the answer is
    not a success and the method throws. *)
Definition getPosts (page limit : Z) (s : Store) : option PaginatedPosts :=
  match public_posts {| q_page := Some page; q_limit := Some limit;
                        q_orderBy := Missing; q_order := Missing |} s with
  | Success data => Some data
  | Failure _ => None
  end.










End BlogAPI.

(* ================================================================== *)
(** ** Notions that the further properties are stated with *)

Module Notions.

(** The lexicographic order of two sequences of numbers. *)
Fixpoint lex_leb (a b : list N) : bool :=
  match a, b with
  | [], _ => true
  | _ :: _, [] => false
  | x :: a', y :: b' =>
      if x <? y then true else if y <? x then false else lex_leb a' b'
  end.

(** The order of two titles: by their code points. *)
Definition title_leb (a b : jsstring) : bool :=
  lex_leb (Unicode.code_points a) (Unicode.code_points b).

(** The order of [orderBy: { [f]: o }] on the posts that are returned. *)
Definition key_leb (f : OrderField) (a b : PostWithTags) : bool :=
  match f with
  | ByPublishedAt => (publishedAt a <=? publishedAt b)%Z
  | ByUpdatedAt => (updatedAt a <=? updatedAt b)%Z
  | ByTitle => title_leb (title a) (title b)
  end.

Definition in_order (f : OrderField) (o : SortOrder) (a b : PostWithTags) : bool :=
  match o with
  | Asc => key_leb f a b
  | Desc => key_leb f b a
  end.

(** Every element may stand before the next one. *)
Fixpoint sorted_by {A} (le : A -> A -> bool) (l : list A) : bool :=
  match l with
  | a :: ((b :: _) as r) => le a b && sorted_by le r
  | _ => true
  end.

(** A letter or a digit of a slug. *)
Definition alnum (c : codeunit) : bool := is_lower_alpha c || is_digit c.

(** The first and the last unit of [k] are letters or digits ([k] may be
    empty). *)
Definition clean_ends (k : jsstring) : bool :=
  match k with [] => true | c :: _ => alnum c end
  && match rev k with [] => true | c :: _ => alnum c end.

(** The last unit of [l] is a hyphen. *)
Definition ends_with_hyphen (l : jsstring) : Prop := exists t, l = t ++ [HYPHEN].

(** The [tags] column of the row is the serialised form of some sequence
    of strings. *)
Definition tags_written (p : Post) : Prop :=
  exists ts, tags p = stringifyTags ts.

(** The body [{}] of an update: no field at all. *)
Definition no_fields : UpdatePostData :=
  {| up_title := None; up_slug := None; up_summary := None;
     up_contentMarkdown := None; up_contentHtml := None; up_imageUrl := None;
     up_tags := None; up_sourceUrl := None; up_author := None;
     up_publishedAt := None; up_status := None |}.

(** The filter [options] for another page. *)
Definition with_page (options : GetPostsOptions) (p : Z) : GetPostsOptions :=
  {| o_status := o_status options; o_page := Some p;
     o_limit := o_limit options; o_orderBy := o_orderBy options;
     o_order := o_order options |}.

Definition items_of (r : result PaginatedPosts) : list PostWithTags :=
  match r with
  | Ok result => items result
  | Err _ => []
  end.

(** What a reader collects who asks for the pages [1], ..., [k] in turn. *)
Definition fetch_pages (options : GetPostsOptions) (k : nat) (s : Store)
  : list PostWithTags :=
  flat_map (fun p => items_of (getPosts (with_page options (Z.of_nat p)) s))
    (seq 1 k).

(** The rows of the requested status, in the requested order: the full
    result that [getPosts] cuts its pages from. *)
Definition full_listing (options : GetPostsOptions) (s : Store) : list PostWithTags :=
  map toPostWithTags
    (order_rows (default (o_orderBy options) ByPublishedAt)
       (default (o_order options) Desc)
       (filter (matches (where_of options)) (rows s))).



End Notions.

Import Notions.

Module MoreSamples.

(** Bodies of [PUT /:id]: new markdown; the slug of another post. *)
Definition markdown_update : UpdatePostData :=
  {| up_title := None; up_slug := None; up_summary := None;
     up_contentMarkdown := Some (units "# New"); up_contentHtml := None;
     up_imageUrl := None; up_tags := None; up_sourceUrl := None;
     up_author := None; up_publishedAt := None; up_status := None |}.

Definition slug_update : UpdatePostData :=
  {| up_title := None; up_slug := Some (units "post-00"); up_summary := None;
     up_contentMarkdown := None; up_contentHtml := None;
     up_imageUrl := None; up_tags := None; up_sourceUrl := None;
     up_author := None; up_publishedAt := None; up_status := None |}.

(** A body of the webhook with a title only. *)
Definition bare_payload (title_ : jsstring) : WebhookPayload :=
  {| wh_title := title_; wh_slug := None; wh_summary := None;
     wh_contentHtml := None; wh_contentMarkdown := None; wh_imageUrl := None;
     wh_tags := None; wh_sourceUrl := None; wh_publishedAt := None |}.

(** The row that [sample_store] holds for the post numbered [n]. *)
Definition sample_row (n : N) (st : PostStatus) : Post :=
  new_row n (Z.of_N n) (create_input sample_marked (Z.of_N n) (sample_data n st)).

Definition SECRET : jsstring := units "s3cret".

End MoreSamples.

Import MoreSamples.

(* ================================================================== *)
(** * Properties *)

(** ** Strings *)

Module JSFacts.

Lemma eqb_spec (a b : jsstring) : reflect (a = b) (JS.eqb a b).
Proof.
  revert b; induction a as [|x a IH]; intros [|y b]; simpl;
    try (constructor; congruence).
  destruct (N.eqb_spec x y) as [->|Hxy]; simpl.
  - destruct (IH b) as [->|Hab]; constructor; congruence.
  - constructor; congruence.
Qed.

Lemma eqb_refl (a : jsstring) : JS.eqb a a = true.
Proof. destruct (eqb_spec a a); congruence. Qed.

Lemma eqb_eq (a b : jsstring) : JS.eqb a b = true <-> a = b.
Proof. destruct (eqb_spec a b); split; congruence. Qed.

Lemma eqb_neq (a b : jsstring) : JS.eqb a b = false <-> a <> b.
Proof. destruct (eqb_spec a b); split; congruence. Qed.

(** Turns the boolean tests on code units into arithmetic. *)
Ltac units_arith :=
  unfold is_lower_alpha, is_digit, is_space, in_range, HYPHEN in *;
  repeat match goal with
         | H : _ = false |- _ => apply not_true_iff_false in H
         | |- _ = false => apply not_true_iff_false; intro
         end;
  rewrite ?orb_true_iff, ?andb_true_iff, ?N.leb_le, ?N.eqb_eq, ?N.ltb_lt in *.

Lemma trimStart_no_space (s : jsstring) :
  Forall (fun c => is_space c = false) s -> trimStart s = s.
Proof.
  destruct s as [|c r]; simpl; [reflexivity|].
  intros H; inversion H as [|? ? Hc _]; subst. now rewrite Hc.
Qed.

Lemma trim_no_space (s : jsstring) :
  Forall (fun c => is_space c = false) s -> trim s = s.
Proof.
  intros H. unfold trim. rewrite (trimStart_no_space H).
  rewrite trimStart_no_space; [apply rev_involutive|].
  now apply Forall_rev.
Qed.

End JSFacts.

(** ** Numbers *)

Module DoubleFacts.

(** Up to [2^53] an integer is its own double. *)
Lemma round_safe (n : Z) :
  (Z.abs n <= Double.MAX_SAFE_INTEGER)%Z -> Double.round n = n.
Proof.
  unfold Double.round, Double.MAX_SAFE_INTEGER. intros H.
  destruct (Z.ltb_spec (Z.abs n) (2 ^ 53)); [reflexivity | lia].
Qed.

(** Rounding does not go below the power of two under the number. *)
Lemma round_above_pow2 (k n : Z) :
  (53 <= k)%Z -> (2 ^ k <= n)%Z -> (2 ^ k <= Double.round n)%Z.
Proof.
  intros Hk Hn.
  assert (H53 : (2 ^ 53 <= 2 ^ k)%Z) by (apply Z.pow_le_mono_r; lia).
  assert (Hpos : (0 < n)%Z) by lia.
  unfold Double.round. rewrite (Z.abs_eq n) by lia.
  destruct (Z.ltb_spec n (2 ^ 53)); [lia|].
  rewrite (Z.sgn_pos n) by lia. rewrite Z.mul_1_l.
  assert (Hlog : (k <= Z.log2 n)%Z).
  { rewrite <- (Z.log2_pow2 k) by lia. apply Z.log2_le_mono. exact Hn. }
  set (e := (Z.log2 n - 52)%Z).
  assert (He : (1 <= e)%Z) by (unfold e; lia).
  assert (Hpe : (0 < 2 ^ e)%Z) by (apply Z.pow_pos_nonneg; lia).
  assert (Hq : (2 ^ 52 <= n / 2 ^ e)%Z).
  { apply Z.div_le_lower_bound; [exact Hpe|].
    rewrite <- Z.pow_add_r by lia. replace (e + 52)%Z with (Z.log2 n) by (unfold e; lia).
    apply Z.log2_spec. exact Hpos. }
  assert (Hk2 : (2 ^ k <= 2 ^ 52 * 2 ^ e)%Z).
  { rewrite <- Z.pow_add_r by lia. apply Z.pow_le_mono_r; unfold e; lia. }
  set (q := (n / 2 ^ e)%Z) in *.
  assert (Hq' : (q <= (if (n mod 2 ^ e <? 2 ^ (e - 1))%Z then q
                       else if (2 ^ (e - 1) <? n mod 2 ^ e)%Z then (q + 1)%Z
                       else if Z.even q then q else (q + 1)%Z))%Z).
  { destruct (_ <? _)%Z; [lia|]. destruct (_ <? _)%Z; [lia|].
    destruct (Z.even q); lia. }
  nia.
Qed.

End DoubleFacts.

(** ** Slugs *)

Module SlugFacts.

Import Slug JSFacts.

Lemma kept_not_space (c : codeunit) :
  kept c = true -> is_space c = false -> slug_char c = true.
Proof.
  unfold kept, slug_char. intros H Hs. rewrite Hs in H.
  now rewrite orb_false_r in H.
Qed.

Lemma slug_char_not_space (c : codeunit) :
  slug_char c = true -> is_space c = false.
Proof.
  unfold slug_char. intros H. units_arith. lia.
Qed.

Lemma slug_char_hyphen : slug_char HYPHEN = true.
Proof. reflexivity. Qed.

Lemma strip_kept (s : jsstring) : Forall (fun c => kept c = true) (strip s).
Proof.
  unfold strip. apply Forall_forall. intros c Hc.
  now apply filter_In in Hc.
Qed.

Lemma spaces_to_hyphen_chars (s : jsstring) :
  Forall (fun c => kept c = true) s ->
  forall b, Forall (fun c => slug_char c = true) (spaces_to_hyphen b s).
Proof.
  induction 1 as [|c r Hc _ IH]; intros b; simpl; [constructor|].
  destruct (is_space c) eqn:Hs.
  - destruct b; [apply IH|]. constructor; [apply slug_char_hyphen | apply IH].
  - constructor; [now apply kept_not_space | apply IH].
Qed.

Lemma collapse_hyphens_chars (P : codeunit -> Prop) (s : jsstring) :
  Forall P s -> forall b, Forall P (collapse_hyphens b s).
Proof.
  induction 1 as [|c r Hc _ IH]; intros b; simpl; [constructor|].
  destruct (N.eqb_spec c HYPHEN) as [->|Hne].
  - destruct b; [apply IH|]. constructor; [exact Hc | apply IH].
  - constructor; [exact Hc | apply IH].
Qed.

(** After a hyphen was written, the rest of the output does not start with
    one. *)
Lemma collapse_hyphens_in_run (s : jsstring) :
  no_leading_hyphen (collapse_hyphens true s) = true.
Proof.
  induction s as [|c r IH]; simpl; [reflexivity|].
  destruct (N.eqb_spec c HYPHEN) as [->|Hne]; [exact IH|].
  simpl. now apply negb_true_iff, N.eqb_neq.
Qed.

Lemma no_double_hyphen_cons (c : codeunit) (s : jsstring) :
  no_double_hyphen s = true ->
  (c = HYPHEN -> no_leading_hyphen s = true) ->
  no_double_hyphen (c :: s) = true.
Proof.
  destruct s as [|d r]; simpl; [reflexivity|].
  intros Hs Hlead. rewrite Hs, andb_true_r.
  destruct (N.eqb_spec c HYPHEN) as [Hc|Hc]; simpl; [|reflexivity].
  exact (Hlead Hc).
Qed.

Lemma collapse_hyphens_no_double (s : jsstring) (b : bool) :
  no_double_hyphen (collapse_hyphens b s) = true.
Proof.
  revert b; induction s as [|c r IH]; intros b; simpl; [reflexivity|].
  destruct (N.eqb_spec c HYPHEN) as [->|Hne].
  - destruct b; [apply IH|].
    apply no_double_hyphen_cons; [apply IH|].
    intros _. apply collapse_hyphens_in_run.
  - apply no_double_hyphen_cons; [apply IH|]. intros Hc. contradiction.
Qed.

(** The units that reach the final [trim] are slug characters: none of
    them is white space. *)
Lemma before_trim_chars (s : jsstring) :
  Forall (fun c => slug_char c = true)
    (collapse_hyphens false (spaces_to_hyphen false (strip s))).
Proof.
  apply collapse_hyphens_chars, spaces_to_hyphen_chars, strip_kept.
Qed.

(** The [trim()] that ends [generateSlug] removes nothing. *)
Lemma trim_is_identity (s : jsstring) :
  slug_of_lowered s = collapse_hyphens false (spaces_to_hyphen false (strip s)).
Proof.
  unfold slug_of_lowered. apply trim_no_space.
  eapply Forall_impl; [|apply before_trim_chars].
  intros c. apply slug_char_not_space.
Qed.

(** Whatever the title, the slug is made of [a-z0-9-] only. *)
Lemma generateSlug_chars (title : jsstring) :
  forallb slug_char (generateSlug title) = true.
Proof.
  unfold generateSlug. rewrite trim_is_identity.
  apply forallb_forall. apply Forall_forall. apply before_trim_chars.
Qed.

(** Whatever the title, the slug has no two hyphens in a row. *)
Lemma generateSlug_no_double_hyphen (title : jsstring) :
  no_double_hyphen (generateSlug title) = true.
Proof.
  unfold generateSlug. rewrite trim_is_identity.
  apply collapse_hyphens_no_double.
Qed.

Example generateSlug_welcome :
  generateSlug (units "Welcome to Teacher AI Academy")
  = units "welcome-to-teacher-ai-academy".
Proof. reflexivity. Qed.

Example generateSlug_leading_space :
  generateSlug (units " Hello") = units "-hello".
Proof. reflexivity. Qed.

(** C1 (the code departs from the specification).  [generateSlug] is a function
    and its result is made of [a-z0-9-] without two hyphens in a row, but a
    hyphen at either end stays: on the title ["Hello World !"] the result
    is ["hello-world-"], which ends with a hyphen.  The last step of the
    chain, [trim()], removes white space, and none is left by then. *)
Theorem C1_generateSlug_keeps_trailing_hyphen :
  generateSlug (units "Hello World !") = units "hello-world-"
  /\ no_trailing_hyphen (generateSlug (units "Hello World !")) = false
  /\ well_formed_slug (generateSlug (units "Hello World !")) = false.
Proof. repeat split; reflexivity. Qed.

End SlugFacts.
(** ** JSON *)

Module JSONFacts.

Import JSON JSFacts.

(** [lia] over lengths of strings, whichever name their type goes by. *)
Ltac len_lia := unfold jsstring, codeunit in *; simpl length in *; lia.

Lemma hex_value_digit (d : N) : d < 16 -> hex_value (hex_digit d) = Some d.
Proof.
  intros H.
  assert (Hd : d = 0 \/ d = 1 \/ d = 2 \/ d = 3 \/ d = 4 \/ d = 5 \/ d = 6
               \/ d = 7 \/ d = 8 \/ d = 9 \/ d = 10 \/ d = 11 \/ d = 12
               \/ d = 13 \/ d = 14 \/ d = 15) by lia.
  repeat (destruct Hd as [->|Hd]; [reflexivity|]). subst d. reflexivity.
Qed.

Lemma nibbles (c : N) :
  c < 65536 ->
  ((c / 4096 mod 16 * 16 + c / 256 mod 16) * 16 + c / 16 mod 16) * 16
  + c mod 16 = c.
Proof.
  intros H.
  change 4096 with (16 * (16 * 16)). change 256 with (16 * 16).
  rewrite <- !N.Div0.div_div.
  pose proof (N.div_mod c 16).
  pose proof (N.div_mod (c / 16) 16).
  pose proof (N.div_mod (c / 16 / 16) 16).
  pose proof (N.mod_small (c / 16 / 16 / 16) 16).
  assert (c / 16 / 16 / 16 < 16).
  { rewrite !N.Div0.div_div. apply N.Div0.div_lt_upper_bound. simpl. lia. }
  lia.
Qed.

Lemma hex4_escape (c : codeunit) :
  c < 65536 ->
  hex4 (hex_digit (c / 4096 mod 16)) (hex_digit (c / 256 mod 16))
       (hex_digit (c / 16 mod 16)) (hex_digit (c mod 16)) = Some c.
Proof.
  intros H. unfold hex4.
  rewrite !hex_value_digit by (apply N.mod_lt; lia).
  now rewrite nibbles.
Qed.

(** Reading back an escape [\uXXXX]. *)
Lemma parse_unicode_escape (c : codeunit) (t : jsstring) :
  c < 65536 ->
  parse_string_body (unicode_escape c ++ t) = push c (parse_string_body t).
Proof.
  intros H. unfold unicode_escape.
  cbn [app parse_string_body].
  change (BACKSLASH =? QUOTE) with false.
  change (BACKSLASH =? BACKSLASH) with true.
  change (0x75 =? 0x75) with true. cbv iota.
  now rewrite hex4_escape.
Qed.

(** Reading back one unit that [QuoteJSONString] wrote on its own. *)
Lemma parse_quote_unit (c : codeunit) (t : jsstring) :
  is_high_surrogate c = false ->
  parse_string_body (quote_unit c ++ t) = push c (parse_string_body t).
Proof.
  intros Hh. unfold quote_unit.
  repeat match goal with
         | |- context [if ?x =? ?y then _ else _] =>
             destruct (N.eqb_spec x y) as [->|?]; [reflexivity|]
         end.
  rewrite Hh, orb_false_r.
  destruct ((c <? 32) || is_low_surrogate c) eqn:He.
  - apply parse_unicode_escape.
    apply orb_true_iff in He. unfold is_low_surrogate, in_range in He.
    rewrite N.ltb_lt, andb_true_iff, !N.leb_le in He. lia.
  - apply orb_false_iff in He. destruct He as [Hc _].
    cbn [app parse_string_body].
    destruct (N.eqb_spec c QUOTE); [contradiction|].
    destruct (N.eqb_spec c BACKSLASH); [contradiction|].
    now rewrite Hc.
Qed.

Lemma surrogate_raw (c : codeunit) (t : jsstring) :
  is_high_surrogate c = true \/ is_low_surrogate c = true ->
  parse_string_body (c :: t) = push c (parse_string_body t).
Proof.
  intros H. unfold is_high_surrogate, is_low_surrogate, in_range in H.
  rewrite !andb_true_iff, !N.leb_le in H.
  cbn [parse_string_body].
  destruct (N.eqb_spec c QUOTE) as [E|_]; [unfold QUOTE in E; lia|].
  destruct (N.eqb_spec c BACKSLASH) as [E|_]; [unfold BACKSLASH in E; lia|].
  destruct (N.ltb_spec c 32); [lia|reflexivity].
Qed.

Lemma high_surrogate_bound (c : codeunit) :
  is_high_surrogate c = true -> c < 65536.
Proof.
  unfold is_high_surrogate, in_range. rewrite andb_true_iff, !N.leb_le. lia.
Qed.

(** A quoted string reads back as the string it was made from. *)
Lemma parse_quote_body (s rest : jsstring) :
  parse_string_body (quote_body s ++ QUOTE :: rest) = Some (s, rest).
Proof.
  remember (length s) as n eqn:Hn.
  assert (Hle : (length s <= n)%nat) by lia. clear Hn.
  revert s Hle. induction n as [|n IH]; intros s Hle.
  { destruct s; [reflexivity | simpl in Hle; lia]. }
  destruct s as [|c r]; [reflexivity|].
  simpl in Hle. cbn [quote_body].
  destruct (is_high_surrogate c) eqn:Hh.
  - destruct r as [|d r'].
    + rewrite parse_unicode_escape by now apply high_surrogate_bound.
      reflexivity.
    + destruct (is_low_surrogate d) eqn:Hl.
      * cbn [app]. rewrite !surrogate_raw by auto.
        rewrite IH by (simpl in Hle; lia). reflexivity.
      * rewrite <- app_assoc.
        rewrite parse_unicode_escape by now apply high_surrogate_bound.
        rewrite IH by lia. reflexivity.
  - rewrite <- app_assoc, parse_quote_unit by assumption.
    rewrite IH by lia. reflexivity.
Qed.


(** *** The parser consumes its input *)

Lemma skip_ws_length (s : jsstring) : (length (skip_ws s) <= length s)%nat.
Proof.
  induction s as [|c r IH]; simpl; [len_lia|].
  destruct (is_ws c); simpl; len_lia.
Qed.

Lemma skip_ws_cons (s r : jsstring) (c : codeunit) :
  skip_ws s = c :: r -> (length r < length s)%nat.
Proof.
  intros H. pose proof (skip_ws_length s) as Hl. rewrite H in Hl.
  simpl in Hl. len_lia.
Qed.

Lemma push_length {A} (a : A) (p : option (list A * jsstring)) l r (n : nat) :
  push a p = Some (l, r) ->
  (forall l', p = Some (l', r) -> (length r < n)%nat) ->
  (length r < n)%nat.
Proof.
  destruct p as [[l' r']|]; simpl; [|discriminate].
  intros [= <- <-] H. eapply H. reflexivity.
Qed.

Lemma parse_string_body_length (s str r : jsstring) :
  parse_string_body s = Some (str, r) -> (length r < length s)%nat.
Proof.
  remember (length s) as n eqn:Hn.
  assert (Hle : (length s <= n)%nat) by len_lia. rewrite Hn. clear Hn.
  revert s str r Hle. induction n as [|n IH]; intros s str r Hle.
  { destruct s; [discriminate | simpl in Hle; len_lia]. }
  destruct s as [|c t]; [discriminate|]. simpl in Hle.
  cbn [parse_string_body].
  destruct (c =? QUOTE).
  { intros [= <- <-]. simpl. len_lia. }
  destruct (c =? BACKSLASH).
  - destruct t as [|e t1]; [discriminate|].
    destruct (e =? 117).
    + destruct t1 as [|h1 [|h2 [|h3 [|h4 t2]]]]; try discriminate.
      destruct (hex4 h1 h2 h3 h4); [|discriminate].
      intros H. eapply push_length in H; [simpl; eassumption|].
      intros l' Hp. apply IH in Hp; simpl in *; len_lia.
    + destruct (simple_escape e); [|discriminate].
      intros H. eapply push_length in H; [simpl; eassumption|].
      intros l' Hp. apply IH in Hp; simpl in *; len_lia.
  - destruct (c <? 32); [discriminate|].
    intros H. eapply push_length in H; [simpl; eassumption|].
    intros l' Hp. apply IH in Hp; simpl in *; len_lia.
Qed.

Lemma span_digits_length (s ds r : jsstring) :
  span_digits s = (ds, r) -> (length r <= length s)%nat.
Proof.
  revert ds r; induction s as [|c t IH]; simpl; intros ds r.
  - intros [= <- <-]. simpl. len_lia.
  - destruct (is_digit c).
    + destruct (span_digits t) as [ds' r'] eqn:E. intros [= <- <-].
      specialize (IH _ _ eq_refl). len_lia.
    + intros [= <- <-]. simpl. len_lia.
Qed.

Lemma parse_int_part_length (s i r : jsstring) :
  parse_int_part s = Some (i, r) -> (length r < length s)%nat.
Proof.
  unfold parse_int_part.
  assert (Hgen : forall sign s1,
    (length s1 <= length s)%nat ->
    match s1 with
    | c :: t =>
        if c =? 48 then Some (sign ++ [c], t)
        else if in_range 49 57 c
             then let (ds, r') := span_digits t in Some (sign ++ c :: ds, r')
        else None
    | [] => None
    end = Some (i, r) -> (length r < length s)%nat).
  { intros sign [|c t] Hl; [discriminate|]. simpl in Hl.
    destruct (c =? 48).
    - intros [= <- <-]. len_lia.
    - destruct (in_range 49 57 c); [|discriminate].
      destruct (span_digits t) as [ds r'] eqn:E. intros [= <- <-].
      apply span_digits_length in E. len_lia. }
  destruct s as [|c t]; [discriminate|].
  destruct (c =? 45); intros H.
  - apply (Hgen [c] t); [len_lia | exact H].
  - apply (Hgen [] (c :: t)); [len_lia | exact H].
Qed.

Lemma parse_frac_part_length (s f r : jsstring) :
  parse_frac_part s = Some (f, r) -> (length r <= length s)%nat.
Proof.
  unfold parse_frac_part. destruct s as [|c t].
  - intros [= <- <-]. len_lia.
  - destruct (c =? 46).
    + destruct (span_digits t) as [[|d ds] r'] eqn:E; [discriminate|].
      intros [= <- <-]. apply span_digits_length in E. simpl. len_lia.
    + intros [= <- <-]. len_lia.
Qed.

Lemma parse_exp_part_length (s e r : jsstring) :
  parse_exp_part s = Some (e, r) -> (length r <= length s)%nat.
Proof.
  unfold parse_exp_part. destruct s as [|c t].
  - intros [= <- <-]. len_lia.
  - destruct ((c =? 101) || (c =? 69)).
    + assert (Hgen : forall sign r1, (length r1 <= length t)%nat ->
        match span_digits r1 with
        | ([], _) => None
        | (ds, r') => Some (c :: sign ++ ds, r')
        end = Some (e, r) -> (length r <= length (c :: t))%nat).
      { intros sign r1 Hl.
        destruct (span_digits r1) as [[|d ds] r'] eqn:E; [discriminate|].
        intros [= <- <-]. apply span_digits_length in E. simpl. len_lia. }
      destruct t as [|d t'].
      * apply (Hgen [] []). simpl. len_lia.
      * destruct ((d =? 43) || (d =? 45)).
        -- apply (Hgen [d] t'). simpl. len_lia.
        -- apply (Hgen [] (d :: t')). len_lia.
    + intros [= <- <-]. len_lia.
Qed.

Lemma parse_number_length (s n r : jsstring) :
  parse_number s = Some (n, r) -> (length r < length s)%nat.
Proof.
  unfold parse_number.
  destruct (parse_int_part s) as [[i s1]|] eqn:Hi; [|discriminate].
  destruct (parse_frac_part s1) as [[f s2]|] eqn:Hf; [|discriminate].
  destruct (parse_exp_part s2) as [[e s3]|] eqn:He; [|discriminate].
  intros [= <- <-].
  apply parse_int_part_length in Hi. apply parse_frac_part_length in Hf.
  apply parse_exp_part_length in He. len_lia.
Qed.

Lemma strip_prefix_length (p s r : jsstring) :
  strip_prefix p s = Some r -> (length r + length p = length s)%nat.
Proof.
  revert s; induction p as [|a p IH]; intros s; simpl.
  - intros [= <-]. len_lia.
  - destruct s as [|b s]; [discriminate|].
    destruct (a =? b); [|discriminate].
    intros H. apply IH in H. simpl. len_lia.
Qed.

Lemma parse_literal_length (s r : jsstring) (v : value) :
  parse_literal s = Some (v, r) -> (length r < length s)%nat.
Proof.
  unfold parse_literal.
  destruct (strip_prefix (units "true") s) eqn:E1.
  { intros [= <- <-]. apply strip_prefix_length in E1. simpl in E1. len_lia. }
  destruct (strip_prefix (units "false") s) eqn:E2.
  { intros [= <- <-]. apply strip_prefix_length in E2. simpl in E2. len_lia. }
  destruct (strip_prefix (units "null") s) eqn:E3; [|discriminate].
  intros [= <- <-]. apply strip_prefix_length in E3. simpl in E3. len_lia.
Qed.


Section StepFacts.

Variables (v v' : jsstring -> option (value * jsstring)).
Variables (e e' : jsstring -> option (list value * jsstring)).
Variables (m m' : jsstring -> option (list (jsstring * value) * jsstring)).



Lemma tag_result_inv {A B} (f : A -> B) (p : option (A * jsstring)) b r :
  tag_result f p = Some (b, r) -> exists a, p = Some (a, r) /\ b = f a.
Proof.
  destruct p as [[a r']|]; simpl; [|discriminate].
  intros [= <- <-]. now exists a.
Qed.

Lemma push_inv {A} (a : A) (p : option (list A * jsstring)) l r :
  push a p = Some (l, r) -> exists l', p = Some (l', r) /\ l = a :: l'.
Proof.
  destruct p as [[l' r']|]; simpl; [|discriminate].
  intros [= <- <-]. now exists l'.
Qed.

Lemma value_step_length (s r : jsstring) (x : value) :
  consumes e -> consumes m ->
  value_step e m s = Some (x, r) -> (length r < length s)%nat.
Proof.
  intros He Hm. unfold value_step.
  destruct (skip_ws s) as [|c t] eqn:Hs; [discriminate|].
  apply skip_ws_cons in Hs.
  destruct (c =? QUOTE).
  { intros H. apply tag_result_inv in H as (a & H & _).
    apply parse_string_body_length in H. len_lia. }
  destruct (c =? LBRACKET).
  { destruct (skip_ws t) as [|d t'] eqn:Ht; [discriminate|].
    apply skip_ws_cons in Ht.
    destruct (d =? RBRACKET).
    - intros [= <- <-]. len_lia.
    - intros H. apply tag_result_inv in H as (a & H & _).
      apply He in H. len_lia. }
  destruct (c =? LBRACE).
  { destruct (skip_ws t) as [|d t'] eqn:Ht; [discriminate|].
    apply skip_ws_cons in Ht.
    destruct (d =? RBRACE).
    - intros [= <- <-]. len_lia.
    - intros H. apply tag_result_inv in H as (a & H & _).
      apply Hm in H. len_lia. }
  destruct ((c =? 45) || is_digit c).
  { intros H. apply tag_result_inv in H as (a & H & _).
    apply parse_number_length in H. len_lia. }
  intros H. apply parse_literal_length in H. len_lia.
Qed.

Lemma elements_step_length (s r : jsstring) (l : list value) :
  consumes v -> consumes e ->
  elements_step v e s = Some (l, r) -> (length r < length s)%nat.
Proof.
  intros Hv He. unfold elements_step.
  destruct (v s) as [[x t]|] eqn:Hx; [|discriminate]. apply Hv in Hx.
  destruct (skip_ws t) as [|d t'] eqn:Ht; [discriminate|].
  apply skip_ws_cons in Ht.
  destruct (d =? COMMA).
  { intros H. apply push_inv in H as (l' & H & _). apply He in H. len_lia. }
  destruct (d =? RBRACKET); [|discriminate].
  intros [= <- <-]. len_lia.
Qed.

Lemma members_step_length (s r : jsstring) (l : list (jsstring * value)) :
  consumes v -> consumes m ->
  members_step v m s = Some (l, r) -> (length r < length s)%nat.
Proof.
  intros Hv Hm. unfold members_step.
  destruct (skip_ws s) as [|q t] eqn:Hs; [discriminate|].
  apply skip_ws_cons in Hs.
  destruct (q =? QUOTE); [|discriminate].
  destruct (parse_string_body t) as [[k t1]|] eqn:Hk; [|discriminate].
  apply parse_string_body_length in Hk.
  destruct (skip_ws t1) as [|c t2] eqn:Ht1; [discriminate|].
  apply skip_ws_cons in Ht1.
  destruct (c =? COLON); [|discriminate].
  destruct (v t2) as [[x t3]|] eqn:Hx; [|discriminate]. apply Hv in Hx.
  destruct (skip_ws t3) as [|d t4] eqn:Ht3; [discriminate|].
  apply skip_ws_cons in Ht3.
  destruct (d =? COMMA).
  { intros H. apply push_inv in H as (l' & H & _). apply Hm in H. len_lia. }
  destruct (d =? RBRACE); [|discriminate].
  intros [= <- <-]. len_lia.
Qed.

Lemma value_step_extends (s : jsstring) y :
  extends_below s e e' -> extends_below s m m' ->
  value_step e m s = Some y -> value_step e' m' s = Some y.
Proof.
  intros He Hm. unfold value_step.
  destruct (skip_ws s) as [|c t] eqn:Hs; [discriminate|].
  apply skip_ws_cons in Hs.
  destruct (c =? QUOTE); [trivial|].
  destruct (c =? LBRACKET).
  { destruct (skip_ws t) as [|d t'] eqn:Ht; [discriminate|].
    destruct (d =? RBRACKET); [trivial|].
    destruct (e t) as [[a r]|] eqn:Ha; [|discriminate].
    apply He in Ha; [|len_lia]. now rewrite Ha. }
  destruct (c =? LBRACE); [|trivial].
  destruct (skip_ws t) as [|d t'] eqn:Ht; [discriminate|].
  destruct (d =? RBRACE); [trivial|].
  destruct (m t) as [[a r]|] eqn:Ha; [|discriminate].
  apply Hm in Ha; [|len_lia]. now rewrite Ha.
Qed.

Lemma elements_step_extends (s : jsstring) y :
  consumes v ->
  (forall x, v s = Some x -> v' s = Some x) -> extends_below s e e' ->
  elements_step v e s = Some y -> elements_step v' e' s = Some y.
Proof.
  intros Hc Hv He. unfold elements_step.
  destruct (v s) as [[x t]|] eqn:Hx; [|discriminate].
  rewrite (Hv _ eq_refl). apply Hc in Hx.
  destruct (skip_ws t) as [|d t'] eqn:Ht; [discriminate|].
  apply skip_ws_cons in Ht.
  destruct (d =? COMMA); [|trivial].
  destruct (e t') as [[a r]|] eqn:Ha; [|discriminate].
  apply He in Ha; [|len_lia]. now rewrite Ha.
Qed.

Lemma members_step_extends (s : jsstring) y :
  consumes v ->
  extends_below s v v' -> extends_below s m m' ->
  members_step v m s = Some y -> members_step v' m' s = Some y.
Proof.
  intros Hc Hv Hm. unfold members_step.
  destruct (skip_ws s) as [|q t] eqn:Hs; [discriminate|].
  apply skip_ws_cons in Hs.
  destruct (q =? QUOTE); [|discriminate].
  destruct (parse_string_body t) as [[k t1]|] eqn:Hk; [|discriminate].
  apply parse_string_body_length in Hk.
  destruct (skip_ws t1) as [|c t2] eqn:Ht1; [discriminate|].
  apply skip_ws_cons in Ht1.
  destruct (c =? COLON); [|discriminate].
  destruct (v t2) as [[x t3]|] eqn:Hx; [|discriminate].
  rewrite (Hv t2 _ ltac:(len_lia) Hx). apply Hc in Hx.
  destruct (skip_ws t3) as [|d t4] eqn:Ht3; [discriminate|].
  apply skip_ws_cons in Ht3.
  destruct (d =? COMMA); [|trivial].
  destruct (m t4) as [[a r]|] eqn:Ha; [|discriminate].
  apply Hm in Ha; [|len_lia]. now rewrite Ha.
Qed.

End StepFacts.

Lemma parse_consumes (f : nat) :
  consumes (parse_value f) /\ consumes (parse_elements f)
  /\ consumes (parse_members f).
Proof.
  induction f as [|f (IHv & IHe & IHm)].
  - repeat split; intros t a r; discriminate.
  - repeat split; intros t a r; cbn [parse_value parse_elements parse_members].
    + now apply value_step_length.
    + now apply elements_step_length.
    + now apply members_step_length.
Qed.

(** More fuel never changes a result. *)
Lemma parse_fuel_mono (f : nat) :
  (forall f' s y, (f <= f')%nat ->
     parse_value f s = Some y -> parse_value f' s = Some y)
  /\ (forall f' s y, (f <= f')%nat ->
     parse_elements f s = Some y -> parse_elements f' s = Some y)
  /\ (forall f' s y, (f <= f')%nat ->
     parse_members f s = Some y -> parse_members f' s = Some y).
Proof.
  induction f as [|f (IHv & IHe & IHm)].
  - repeat split; intros f' s y _; discriminate.
  - destruct (parse_consumes f) as (Cv & Ce & Cm).
    repeat split; intros [|f'] s y Hle; try lia;
      cbn [parse_value parse_elements parse_members].
    + apply value_step_extends; intros t z _; [apply IHe | apply IHm]; lia.
    + apply elements_step_extends; [exact Cv | intros x; apply IHv; lia |].
      intros t z _; apply IHe; lia.
    + apply members_step_extends; [exact Cv | |];
        intros t z _; [apply IHv | apply IHm]; lia.
Qed.

(** No text exhausts the fuel that [parse] gives: a result reached with
    any fuel is reached with [fuel_for]. *)
Lemma parse_fuel_enough (f : nat) :
  (forall s y, parse_value f s = Some y ->
     parse_value (2 * length s + 1) s = Some y)
  /\ (forall s y, parse_elements f s = Some y ->
     parse_elements (2 * length s + 2) s = Some y)
  /\ (forall s y, parse_members f s = Some y ->
     parse_members (2 * length s + 2) s = Some y).
Proof.
  induction f as [|f (IHv & IHe & IHm)].
  - repeat split; intros s y; discriminate.
  - destruct (parse_consumes f) as (Cv & Ce & Cm).
    repeat split; intros s y.
    + replace (2 * length s + 1)%nat with (S (2 * length s)) by lia.
      cbn [parse_value]. apply value_step_extends; intros t z Hlt Hz.
      * apply IHe in Hz. revert Hz.
        apply (proj1 (proj2 (parse_fuel_mono _))). len_lia.
      * apply IHm in Hz. revert Hz.
        apply (proj2 (proj2 (parse_fuel_mono _))). len_lia.
    + replace (2 * length s + 2)%nat with (S (2 * length s + 1)) by lia.
      cbn [parse_elements]. apply elements_step_extends; [exact Cv | intros x; apply IHv |].
      intros t z Hlt Hz. apply IHe in Hz. revert Hz.
      apply (proj1 (proj2 (parse_fuel_mono _))). len_lia.
    + replace (2 * length s + 2)%nat with (S (2 * length s + 1)) by lia.
      cbn [parse_members]. apply members_step_extends; [exact Cv | |];
        intros t z Hlt Hz.
      * apply IHv in Hz. revert Hz.
        apply (proj1 (parse_fuel_mono _)). len_lia.
      * apply IHm in Hz. revert Hz.
        apply (proj2 (proj2 (parse_fuel_mono _))). len_lia.
Qed.

(** [parse] fails only on a text that the grammar rejects: whenever some
    fuel yields a value, [parse] finds the same one. *)
Lemma parse_value_fuel_enough (f : nat) (s : jsstring) y :
  parse_value f s = Some y -> parse_value (fuel_for s) s = Some y.
Proof. apply (proj1 (parse_fuel_enough f)). Qed.


(** *** Round trip *)

Lemma parse_value_quote (f : nat) (x tail : jsstring) :
  (0 < f)%nat -> parse_value f (quote x ++ tail) = Some (Str x, tail).
Proof.
  destruct f as [|f]; [lia|]. intros _.
  cbn [parse_value]. unfold value_step, quote.
  cbn [app skip_ws]. change (is_ws QUOTE) with false. cbv iota.
  change (QUOTE =? QUOTE) with true. cbv iota.
  rewrite <- app_assoc. cbn [app].
  now rewrite parse_quote_body.
Qed.

Lemma parse_elements_join (xs : list jsstring) :
  xs <> [] ->
  forall (f : nat) (rest : jsstring),
  (length xs < f)%nat ->
  parse_elements f (join_quoted xs ++ RBRACKET :: rest)
  = Some (map Str xs, rest).
Proof.
  induction xs as [|x r IH]; [congruence|]. intros _ f rest Hf.
  destruct f as [|f]; [simpl in Hf; lia|].
  assert (Hpos : (0 < f)%nat) by (simpl in Hf; lia).
  cbn [parse_elements]. unfold elements_step.
  destruct r as [|x' r'].
  - cbn [join_quoted map]. rewrite parse_value_quote by exact Hpos.
    cbn [skip_ws]. change (is_ws RBRACKET) with false. cbv iota.
    change (RBRACKET =? COMMA) with false.
    change (RBRACKET =? RBRACKET) with true. reflexivity.
  - change (join_quoted (x :: x' :: r'))
      with (quote x ++ COMMA :: join_quoted (x' :: r')).
    rewrite <- app_assoc. rewrite parse_value_quote by exact Hpos.
    cbn [app skip_ws]. change (is_ws COMMA) with false. cbv iota.
    change (COMMA =? COMMA) with true. cbv iota.
    rewrite IH; [reflexivity | congruence | simpl in *; lia].
Qed.

Lemma parse_value_stringify (xs : list jsstring) :
  parse_value (S (S (length xs))) (stringify xs) = Some (of_strings xs, []).
Proof.
  unfold stringify, of_strings. cbn [parse_value]. unfold value_step.
  cbn [skip_ws]. change (is_ws LBRACKET) with false. cbv iota.
  change (LBRACKET =? QUOTE) with false.
  change (LBRACKET =? LBRACKET) with true. cbv iota.
  destruct xs as [|x r].
  - reflexivity.
  - assert (Hq : exists t, join_quoted (x :: r) = QUOTE :: t).
    { destruct r; cbn [join_quoted]; unfold quote; cbn [app]; eauto. }
    destruct Hq as (t & Hq).
    rewrite Hq at 1. cbn [app skip_ws]. change (is_ws QUOTE) with false.
    cbv iota. change (QUOTE =? RBRACKET) with false. cbv iota.
    rewrite parse_elements_join; [reflexivity | congruence | lia].
Qed.

(** [JSON.parse(JSON.stringify(xs))] is [xs], for every array of strings. *)
Lemma parse_stringify (xs : list jsstring) :
  parse (stringify xs) = Some (of_strings xs).
Proof.
  unfold parse.
  now rewrite (@parse_value_fuel_enough _ _ _ (parse_value_stringify xs)).
Qed.

(** An array of strings that is cut before its closing bracket is no JSON
    text. *)
Lemma parse_elements_cut (xs : list jsstring) :
  xs <> [] -> forall f : nat, parse_elements f (join_quoted xs) = None.
Proof.
  induction xs as [|x r IH]; [congruence|]. intros _ f.
  destruct f as [|f]; [reflexivity|].
  cbn [parse_elements]. unfold elements_step.
  destruct f as [|f]; [reflexivity|].
  destruct r as [|x' r'].
  - cbn [join_quoted]. rewrite <- (app_nil_r (quote x)).
    rewrite parse_value_quote by lia. reflexivity.
  - change (join_quoted (x :: x' :: r'))
      with (quote x ++ COMMA :: join_quoted (x' :: r')).
    rewrite parse_value_quote by lia.
    cbn [skip_ws]. change (is_ws COMMA) with false. cbv iota.
    change (COMMA =? COMMA) with true. cbv iota.
    rewrite IH by congruence. reflexivity.
Qed.

Lemma parse_cut (xs : list jsstring) :
  parse (removelast (stringify xs)) = None.
Proof.
  unfold stringify.
  change (LBRACKET :: join_quoted xs ++ [RBRACKET])
    with ((LBRACKET :: join_quoted xs) ++ [RBRACKET]).
  rewrite removelast_last. unfold parse.
  set (f := fuel_for _). destruct f as [|f]; [reflexivity|].
  cbn [parse_value]. unfold value_step.
  cbn [skip_ws]. change (is_ws LBRACKET) with false. cbv iota.
  change (LBRACKET =? QUOTE) with false.
  change (LBRACKET =? LBRACKET) with true. cbv iota.
  destruct xs as [|x r]; [reflexivity|].
  assert (Hq : exists t, join_quoted (x :: r) = QUOTE :: t).
  { destruct r; cbn [join_quoted]; unfold quote; cbn [app]; eauto. }
  destruct Hq as (t & Hq).
  rewrite Hq at 1. cbn [skip_ws]. change (is_ws QUOTE) with false.
  cbv iota. change (QUOTE =? RBRACKET) with false. cbv iota.
  now rewrite parse_elements_cut.
Qed.

Example parse_stringify_escapes :
  parse (stringify [units "a b"; [0x22; 0x5C; 0x0A; 0x01; 0xD800; 0x41]])
  = Some (of_strings [units "a b"; [0x22; 0x5C; 0x0A; 0x01; 0xD800; 0x41]]).
Proof. reflexivity. Qed.

Example parse_rejects_open_array : parse (units "[1, 2") = None.
Proof. reflexivity. Qed.

Example parse_accepts_number : parse (units "42") = Some (Number (units "42")).
Proof. reflexivity. Qed.

End JSONFacts.

(** ** The store *)

Module StoreFacts.

Import JSFacts.


Lemma wf_empty : wf empty_store.
Proof. split; simpl; constructor. Qed.

Lemma find_id_some (i : PostId) (s : Store) (p : Post) :
  findUnique_id i s = Some p -> In p (rows s) /\ id p = i.
Proof.
  unfold findUnique_id. intros H. apply find_some in H as [Hin Hid].
  split; [exact Hin | now apply N.eqb_eq].
Qed.

Lemma find_id_none (i : PostId) (s : Store) :
  findUnique_id i s = None <-> ~ In i (ids s).
Proof.
  unfold findUnique_id, ids. split.
  - intros H Hin. apply in_map_iff in Hin as (p & Hp & Hin).
    apply (find_none _ _ H) in Hin. rewrite Hp, N.eqb_refl in Hin.
    discriminate.
  - intros H. destruct (find _ _) as [p|] eqn:E; [|reflexivity].
    apply find_some in E as [Hin Hid]. apply N.eqb_eq in Hid.
    exfalso. apply H. apply in_map_iff. now exists p.
Qed.

Lemma find_slug_some (sl : jsstring) (s : Store) (p : Post) :
  findUnique_slug sl s = Some p -> In p (rows s) /\ slug p = sl.
Proof.
  unfold findUnique_slug. intros H. apply find_some in H as [Hin Hsl].
  split; [exact Hin | now apply eqb_eq].
Qed.

Lemma find_slug_none (sl : jsstring) (s : Store) :
  findUnique_slug sl s = None <-> ~ In sl (slugs s).
Proof.
  unfold findUnique_slug, slugs. split.
  - intros H Hin. apply in_map_iff in Hin as (p & Hp & Hin).
    apply (find_none _ _ H) in Hin. rewrite Hp, eqb_refl in Hin.
    discriminate.
  - intros H. destruct (find _ _) as [p|] eqn:E; [|reflexivity].
    apply find_some in E as [Hin Hsl]. apply eqb_eq in Hsl.
    exfalso. apply H. apply in_map_iff. now exists p.
Qed.

Lemma slug_taken_iff (sl : jsstring) (s : Store) :
  slug_taken sl s = true <-> In sl (slugs s).
Proof.
  unfold slug_taken, slugs. rewrite existsb_exists, in_map_iff.
  split; intros (p & H1 & H2).
  - exists p. split; [now apply eqb_eq | exact H1].
  - exists p. split; [exact H2 | now apply eqb_eq].
Qed.

Lemma slug_taken_find (sl : jsstring) (s : Store) :
  findUnique_slug sl s = None -> slug_taken sl s = false.
Proof.
  intros H. apply find_slug_none in H. apply not_true_iff_false.
  now rewrite slug_taken_iff.
Qed.

Lemma slug_taken_by_other_false (sl : jsstring) (i : PostId) (s : Store) :
  slug_taken_by_other sl i s = false <->
  (forall p, In p (rows s) -> slug p = sl -> id p = i).
Proof.
  unfold slug_taken_by_other. split.
  - intros H p Hin Hsl.
    destruct (N.eqb_spec (id p) i) as [E|E]; [exact E|]. exfalso.
    apply not_true_iff_false in H. apply H. apply existsb_exists.
    exists p. split; [exact Hin|].
    apply andb_true_iff. split; [now apply eqb_eq|].
    now apply negb_true_iff, N.eqb_neq.
  - intros H. apply not_true_iff_false. intros E.
    apply existsb_exists in E as (p & Hin & E).
    apply andb_true_iff in E as [E1 E2]. apply eqb_eq in E1.
    apply negb_true_iff, N.eqb_neq in E2. apply E2. now apply H.
Qed.

(** In a table with unique slugs and identifiers, a row is found by
    either key. *)
Lemma find_id_in (s : Store) (p : Post) :
  NoDup (ids s) -> In p (rows s) -> findUnique_id (id p) s = Some p.
Proof.
  unfold findUnique_id, ids. induction (rows s) as [|q r IH]; simpl.
  - intros _ [].
  - intros Hnd [->|Hin]; [now rewrite N.eqb_refl|].
    inversion Hnd as [|? ? Hq Hr]; subst.
    destruct (N.eqb_spec (id q) (id p)) as [E|_]; [|now apply IH].
    exfalso. apply Hq. rewrite E. now apply in_map.
Qed.

Lemma find_slug_in (s : Store) (p : Post) :
  NoDup (slugs s) -> In p (rows s) -> findUnique_slug (slug p) s = Some p.
Proof.
  unfold findUnique_slug, slugs. induction (rows s) as [|q r IH]; simpl.
  - intros _ [].
  - intros Hnd [->|Hin]; [now rewrite eqb_refl|].
    inversion Hnd as [|? ? Hq Hr]; subst.
    destruct (eqb_spec (slug q) (slug p)) as [E|_]; [|now apply IH].
    exfalso. apply Hq. rewrite E. now apply in_map.
Qed.

(** *** [replace_row] *)


Lemma replace_row_ids (p : Post) (l : list Post) :
  map (@id jsstring) (replace_row p l) = map (@id jsstring) l.
Proof.
  induction l as [|q r IH]; simpl; [reflexivity|].
  destruct (N.eqb_spec (id q) (id p)) as [E|E]; simpl; congruence.
Qed.

Lemma replace_row_in_inv (p q : Post) (l : list Post) :
  In q (replace_row p l) -> q = p \/ In q l.
Proof.
  induction l as [|x r IH]; simpl; [intros []|].
  destruct (id x =? id p); simpl.
  - intros [<-|Hin]; auto.
  - intros [<-|Hin]; auto. destruct (IH Hin); auto.
Qed.

Lemma replace_row_other (p q : Post) (l : list Post) :
  In q l -> id q <> id p -> In q (replace_row p l).
Proof.
  intros Hin Hne. induction l as [|x r IH]; simpl; [exact Hin|].
  destruct Hin as [->|Hin].
  - destruct (N.eqb_spec (id q) (id p)); [contradiction | now left].
  - destruct (id x =? id p); right; auto.
Qed.

Lemma replace_row_new (p : Post) (l : list Post) :
  In (id p) (map (@id jsstring) l) -> In p (replace_row p l).
Proof.
  induction l as [|x r IH]; simpl; [intros []|].
  destruct (N.eqb_spec (id x) (id p)) as [E|E]; [now left|].
  intros [H|H]; [contradiction | right; auto].
Qed.

Lemma replace_row_slugs (p : Post) (l : list Post) :
  NoDup (map (@id jsstring) l) -> NoDup (map (@slug jsstring) l) ->
  (forall x, In x l -> slug x = slug p -> id x = id p) ->
  NoDup (map (@slug jsstring) (replace_row p l)).
Proof.
  induction l as [|q r IH]; simpl; intros Hid Hsl Hp; [constructor|].
  inversion Hid as [|? ? Hq1 Hr1]; inversion Hsl as [|? ? Hq2 Hr2]; subst.
  destruct (N.eqb_spec (id q) (id p)) as [E|E]; simpl.
  - constructor; [|exact Hr2].
    intros Hin. apply in_map_iff in Hin as (x & Hx & Hin).
    apply Hq1. rewrite E, <- (Hp x); [now apply in_map | now right | exact Hx].
  - constructor; [|apply IH; auto].
    intros Hin. apply in_map_iff in Hin as (x & Hx & Hin).
    apply replace_row_in_inv in Hin as [->|Hin].
    + apply E. apply Hp; [now left | now symmetry].
    + apply Hq2. rewrite <- Hx. now apply in_map.
Qed.

(** *** The invariant is kept *)

Lemma NoDup_snoc {A} (a : A) (l : list A) :
  NoDup l -> ~ In a l -> NoDup (l ++ [a]).
Proof.
  intros Hl Ha. apply (Permutation_NoDup (Permutation_cons_append l a)).
  now constructor.
Qed.

Lemma wf_create (now : Date) (d : CreateInput) (s s' : Store) r :
  wf s -> Prisma.create now d s = (r, s') -> wf s'.
Proof.
  intros [Hid Hsl Hfr]. unfold Prisma.create.
  destruct (slug_taken (ci_slug d) s) eqn:Ht.
  { now intros [= <- <-]. }
  intros [= <- <-]. split; unfold ids, slugs; simpl.
  - rewrite map_app. apply NoDup_snoc; [exact Hid|]. simpl.
    intros Hin. apply in_map_iff in Hin as (p & Hp & Hin).
    rewrite Forall_forall in Hfr. apply Hfr in Hin. lia.
  - rewrite map_app. apply NoDup_snoc; [exact Hsl|]. simpl.
    apply not_true_iff_false in Ht. now rewrite slug_taken_iff in Ht.
  - apply Forall_app. split.
    + eapply Forall_impl; [|exact Hfr]. simpl. intros p Hp. lia.
    + constructor; [simpl; lia | constructor].
Qed.

Lemma wf_update (now : Date) (i : PostId) (d : UpdateInput) (s s' : Store) r :
  wf s -> Prisma.update now i d s = (r, s') -> wf s'.
Proof.
  intros [Hid Hsl Hfr]. unfold Prisma.update.
  destruct (findUnique_id i s) as [old|] eqn:Hf.
  2:{ intros [= <- <-]. now split. }
  apply find_id_some in Hf as [Hin Hi].
  destruct (slug_taken_by_other _ i s) eqn:Ht.
  { intros [= <- <-]. now split. }
  intros [= <- <-].
  rewrite slug_taken_by_other_false in Ht.
  split; unfold ids, slugs; simpl.
  - rewrite replace_row_ids. exact Hid.
  - apply replace_row_slugs; auto. simpl. intros x Hx Hs.
    rewrite Hi. now apply Ht.
  - apply Forall_forall. intros q Hq.
    rewrite Forall_forall in Hfr.
    apply replace_row_in_inv in Hq as [->|Hq]; [|now apply Hfr].
    simpl. now apply Hfr.
Qed.

Lemma wf_delete (i : PostId) (s s' : Store) r :
  wf s -> Prisma.delete i s = (r, s') -> wf s'.
Proof.
  intros [Hid Hsl Hfr]. unfold Prisma.delete.
  destruct (findUnique_id i s) as [old|] eqn:Hf.
  2:{ intros [= <- <-]. now split. }
  intros [= <- <-]. split; unfold ids, slugs in *; simpl.
  - clear Hsl Hfr Hf. induction (rows s) as [|q l IH]; simpl; [constructor|].
    inversion Hid as [|? ? Hq Hl]; subst.
    destruct (negb (id q =? i)); simpl; [|auto].
    constructor; [|auto]. intros Hin. apply Hq.
    apply in_map_iff in Hin as (x & Hx & Hin). apply filter_In in Hin as [Hin _].
    rewrite <- Hx. now apply in_map.
  - clear Hid Hfr Hf. induction (rows s) as [|q l IH]; simpl; [constructor|].
    inversion Hsl as [|? ? Hq Hl]; subst.
    destruct (negb (id q =? i)); simpl; [|auto].
    constructor; [|auto]. intros Hin. apply Hq.
    apply in_map_iff in Hin as (x & Hx & Hin). apply filter_In in Hin as [Hin _].
    rewrite <- Hx. now apply in_map.
  - apply Forall_forall. intros q Hq. apply filter_In in Hq as [Hq _].
    rewrite Forall_forall in Hfr. now apply Hfr.
Qed.

Lemma wf_upsert (now : Date) (sl : jsstring) (u : UpdateInput)
  (c : CreateInput) (s s' : Store) r :
  wf s -> Prisma.upsert now sl u c s = (r, s') -> wf s'.
Proof.
  intros Hwf. unfold Prisma.upsert.
  destruct (findUnique_slug sl s); [apply wf_update | apply wf_create]; exact Hwf.
Qed.

End StoreFacts.

(** ** Queries *)

Module QueryFacts.

Import StoreFacts.

Lemma insert_sorted_perm (le : Post -> Post -> bool) (p : Post) (l : list Post) :
  Permutation (insert_sorted le p l) (p :: l).
Proof.
  induction l as [|q r IH]; simpl; [reflexivity|].
  destruct (le p q); [reflexivity|].
  rewrite IH. apply perm_swap.
Qed.

(** Ordering moves rows and neither adds nor drops one. *)
Lemma order_rows_perm (f : OrderField) (o : SortOrder) (l : list Post) :
  Permutation (order_rows f o l) l.
Proof.
  unfold order_rows. induction l as [|p r IH]; simpl; [reflexivity|].
  rewrite insert_sorted_perm. now constructor.
Qed.

Lemma order_rows_length (f : OrderField) (o : SortOrder) (l : list Post) :
  length (order_rows f o l) = length l.
Proof. apply Permutation_length, order_rows_perm. Qed.

Lemma Forall_firstn {A} (P : A -> Prop) (n : nat) (l : list A) :
  Forall P l -> Forall P (firstn n l).
Proof.
  intros H. rewrite <- (firstn_skipn n l) in H.
  now apply Forall_app in H.
Qed.

Lemma Forall_skipn {A} (P : A -> Prop) (n : nat) (l : list A) :
  Forall P l -> Forall P (skipn n l).
Proof.
  intros H. rewrite <- (firstn_skipn n l) in H.
  now apply Forall_app in H.
Qed.

Lemma in_int64_iff (n : Z) :
  in_int64 n = true <-> (- 2 ^ 63 <= n < 2 ^ 63)%Z.
Proof.
  unfold in_int64. rewrite andb_true_iff, Z.leb_le, Z.ltb_lt. tauto.
Qed.

(** A window holds rows of the result only. *)
Lemma window_Forall (P : Post -> Prop) (skip take : Z)
  (forward backward out : list Post) :
  Forall P forward -> Forall P backward ->
  window skip take forward backward = Ok out -> Forall P out.
Proof.
  intros Hf Hb. unfold window.
  destruct (negb _); [discriminate|].
  destruct (skip <? 0)%Z; [discriminate|].
  destruct (0 <=? take)%Z; intros [= <-].
  - now apply Forall_firstn, Forall_skipn.
  - now apply Forall_rev, Forall_firstn, Forall_skipn.
Qed.

(** A window holds at most [|take|] rows. *)
Lemma window_length (skip take : Z) (forward backward out : list Post) :
  window skip take forward backward = Ok out ->
  (Z.of_nat (length out) <= Z.abs take)%Z.
Proof.
  unfold window.
  destruct (negb _); [discriminate|].
  destruct (skip <? 0)%Z; [discriminate|].
  destruct (0 <=? take)%Z eqn:Ht; intros [= <-].
  - apply Z.leb_le in Ht. pose proof (firstn_le_length (Z.to_nat take)
      (skipn (Z.to_nat skip) forward)). rewrite length_firstn. lia.
  - apply Z.leb_gt in Ht. rewrite length_rev, length_firstn. lia.
Qed.

(** The window of a request with [skip] and [take] that are not negative
    and that the client accepts. *)
Lemma window_nonneg (skip take : Z) (forward backward : list Post) :
  (0 <= skip < 2 ^ 63)%Z -> (0 <= take < 2 ^ 63)%Z ->
  window skip take forward backward
  = Ok (firstn (Z.to_nat take) (skipn (Z.to_nat skip) forward)).
Proof.
  intros Hs Ht. unfold window.
  rewrite (proj2 (in_int64_iff skip)), (proj2 (in_int64_iff take)) by lia.
  cbn [andb negb].
  destruct (Z.ltb_spec skip 0); [lia|].
  destruct (Z.leb_spec 0 take); [reflexivity | lia].
Qed.

(** A number that is no 64-bit integer is rejected. *)
Lemma window_out_of_range (skip take : Z) (forward backward : list Post) :
  (2 ^ 63 <= skip)%Z \/ (take < - 2 ^ 63)%Z ->
  window skip take forward backward = Err InvalidArgument.
Proof.
  intros H. unfold window.
  replace (in_int64 skip && in_int64 take) with false; [reflexivity|].
  symmetry. apply andb_false_iff. unfold in_int64.
  rewrite !andb_false_iff, !Z.leb_gt, !Z.ltb_ge. lia.
Qed.

Lemma window_nonneg_length (skip take : Z) (l : list Post) :
  (0 <= skip)%Z -> (0 <= take)%Z ->
  Z.of_nat (length (firstn (Z.to_nat take) (skipn (Z.to_nat skip) l)))
  = Z.max 0 (Z.min take (Z.of_nat (length l) - skip)).
Proof.
  intros Hs Ht. rewrite length_firstn, length_skipn. lia.
Qed.

Lemma filter_matches (w : WhereInput) (l : list Post) :
  Forall (fun p => matches w p = true) (filter (matches w) l).
Proof.
  apply Forall_forall. intros p Hp. now apply filter_In in Hp.
Qed.

(** [findMany] returns rows that satisfy its [where]. *)
Lemma findMany_matches (w : WhereInput) (skip take : Z) (f : OrderField)
  (o : SortOrder) (s : Store) (out : list Post) :
  findMany w skip take f o s = Ok out ->
  Forall (fun p => matches w p = true) out.
Proof.
  unfold findMany. cbv zeta. apply window_Forall;
    (eapply Permutation_Forall; [symmetry; apply order_rows_perm|]);
    apply filter_matches.
Qed.

Lemma findMany_length (w : WhereInput) (skip take : Z) (f : OrderField)
  (o : SortOrder) (s : Store) (out : list Post) :
  findMany w skip take f o s = Ok out ->
  (Z.of_nat (length out) <= Z.abs take)%Z.
Proof. apply window_length. Qed.


Lemma status_eqb_eq (a b : PostStatus) : status_eqb a b = true <-> a = b.
Proof. destruct a, b; simpl; split; congruence. Qed.

Lemma toPostWithTags_published (l : list Post) :
  Forall (fun p => matches (Some PUBLISHED) p = true) l ->
  Forall published (map toPostWithTags l).
Proof.
  intros H. apply Forall_map. eapply Forall_impl; [|exact H].
  intros p Hp. unfold published. simpl in *. now apply status_eqb_eq.
Qed.

(** [where] is always the status, given or defaulted. *)
Lemma where_of_status (options : GetPostsOptions) :
  where_of options = Some (default (o_status options) PUBLISHED).
Proof.
  unfold where_of. now destruct (default (o_status options) PUBLISHED).
Qed.

Lemma getPosts_inv (options : GetPostsOptions) (s : Store) (r : PaginatedPosts) :
  getPosts options s = Ok r ->
  exists posts,
    findMany (where_of options) (skip_of options) (maxLimit_of options)
      (default (o_orderBy options) ByPublishedAt)
      (default (o_order options) Desc) s = Ok posts
    /\ items r = map toPostWithTags posts
    /\ page r = default (o_page options) 1%Z
    /\ total r = count (where_of options) s
    /\ hasMore r
       = (Double.add (skip_of options) (maxLimit_of options) <? total r)%Z.
Proof.
  unfold getPosts. destruct (findMany _ _ _ _ _ _) as [posts|] eqn:E;
    [|discriminate].
  intros [= <-]. exists posts. simpl. auto.
Qed.

End QueryFacts.

(** ** Listing: [getPosts], the public routes and the feed *)

Module ListingFacts.

Import StoreFacts QueryFacts DoubleFacts.

Lemma clamp_min (limit : Z) : (1 <= limit)%Z -> clamp limit 1 50 = Z.min limit 50.
Proof. unfold clamp. lia. Qed.

Lemma count_length (st : PostStatus) (s : Store) :
  count (Some st) s
  = Z.of_nat (length (filter (fun p : Post => status_eqb (status p) st) (rows s))).
Proof. reflexivity. Qed.

(** As long as the offset is a safe integer, it is computed exactly. *)
Lemma skip_of_exact (options : GetPostsOptions) :
  let page_ := default (o_page options) 1%Z in
  (1 <= page_)%Z -> (0 <= maxLimit_of options)%Z ->
  ((page_ - 1) * maxLimit_of options <= Double.MAX_SAFE_INTEGER)%Z ->
  skip_of options = ((page_ - 1) * maxLimit_of options)%Z.
Proof.
  intros page_ Hp Hl Hs. unfold skip_of, Double.mul, Double.sub.
  fold page_. set (m := maxLimit_of options) in *.
  unfold Double.MAX_SAFE_INTEGER in Hs.
  destruct (Z.eq_dec m 0) as [->|Hm].
  - now rewrite !Z.mul_0_r.
  - rewrite (round_safe (page_ - 1)) by (unfold Double.MAX_SAFE_INTEGER; nia).
    apply round_safe. unfold Double.MAX_SAFE_INTEGER. nia.
Qed.

(** An offset beyond a number of rows stays beyond it when it is
    rounded. *)
Lemma skip_of_beyond (options : GetPostsOptions) (size : Z) :
  let page_ := default (o_page options) 1%Z in
  (1 <= page_)%Z -> (1 <= maxLimit_of options)%Z ->
  (size <= Double.MAX_SAFE_INTEGER)%Z ->
  (size <= (page_ - 1) * maxLimit_of options)%Z ->
  (size <= skip_of options)%Z.
Proof.
  intros page_ Hp Hl Hsize Hs. unfold skip_of, Double.mul, Double.sub.
  fold page_. set (m := maxLimit_of options) in *.
  unfold Double.MAX_SAFE_INTEGER in *.
  destruct (Z.le_gt_cases (2 ^ 53) (page_ - 1)) as [Hbig|Hsmall].
  - pose proof (@round_above_pow2 53 (page_ - 1) ltac:(lia) Hbig) as H53.
    assert (H : (2 ^ 53 <= Double.round (Double.round (page_ - 1) * m))%Z)
      by (apply round_above_pow2; nia).
    lia.
  - rewrite (round_safe (page_ - 1)) by (unfold Double.MAX_SAFE_INTEGER; lia).
    destruct (Z.le_gt_cases (2 ^ 53) ((page_ - 1) * m)) as [Hb|Hb].
    + pose proof (@round_above_pow2 53 _ ltac:(lia) Hb). lia.
    + rewrite round_safe by (unfold Double.MAX_SAFE_INTEGER; nia). exact Hs.
Qed.

(** [getPosts] returns for a page and a limit that are not negative and
    whose product is a safe integer, and then it holds the window of the
    ordered rows of the requested status. *)
Lemma getPosts_returns (options : GetPostsOptions) (s : Store) :
  let page_ := default (o_page options) 1%Z in
  let offset := ((page_ - 1) * maxLimit_of options)%Z in
  (1 <= page_)%Z -> (0 <= maxLimit_of options)%Z ->
  (page_ * maxLimit_of options <= Double.MAX_SAFE_INTEGER)%Z ->
  getPosts options s
  = Ok {| items :=
            map toPostWithTags
              (firstn (Z.to_nat (maxLimit_of options))
                 (skipn (Z.to_nat offset)
                    (order_rows (default (o_orderBy options) ByPublishedAt)
                       (default (o_order options) Desc)
                       (filter (matches (where_of options)) (rows s)))));
          page := page_;
          total := count (where_of options) s;
          hasMore :=
            (offset + maxLimit_of options <? count (where_of options) s)%Z |}.
Proof.
  intros page_ offset Hpage Hlimit Hsafe.
  unfold Double.MAX_SAFE_INTEGER in Hsafe.
  assert (Hskip : skip_of options = offset).
  { apply skip_of_exact; fold page_; unfold Double.MAX_SAFE_INTEGER; nia. }
  unfold getPosts, findMany. cbv zeta. rewrite Hskip.
  unfold Double.add.
  rewrite round_safe by (unfold Double.MAX_SAFE_INTEGER, offset; nia).
  rewrite window_nonneg; [reflexivity | unfold offset; nia | unfold maxLimit_of in *; lia].
Qed.

(** A page beyond [2^63] is rejected, whatever the table holds. *)
Lemma getPosts_far_page (options : GetPostsOptions) (s : Store) :
  (2 ^ 63 < default (o_page options) 1)%Z -> (1 <= maxLimit_of options)%Z ->
  getPosts options s = Err InvalidArgument.
Proof.
  intros Hp Hl. unfold getPosts, findMany. cbv zeta.
  rewrite window_out_of_range; [reflexivity|]. left.
  unfold skip_of, Double.mul, Double.sub.
  pose proof (@round_above_pow2 63 (default (o_page options) 1 - 1)%Z
                ltac:(lia) ltac:(lia)) as H.
  apply round_above_pow2; nia.
Qed.

Lemma getPosts_items_length (options : GetPostsOptions) (s : Store) r :
  getPosts options s = Ok r ->
  (Z.of_nat (length (items r)) <= Z.abs (maxLimit_of options))%Z.
Proof.
  intros H. apply getPosts_inv in H as (posts & Hf & Hi & _).
  rewrite Hi, length_map. eapply findMany_length, Hf.
Qed.

(** C3 (as amended: the limit is at least 1, [page * clamp(limit, 1, 50)]
    is a safe integer, and [hasMore] uses the clamped limit).  For such a
    page and limit [getPosts] returns; the rows it skips are
    [(page - 1) * clamp(limit, 1, 50)], [hasMore] compares that offset plus
    the clamped limit with [total], and [total] counts the rows of the
    requested status whatever the page and the limit.  With 25 published
    posts and 5 drafts, page 1 of the published posts by 10 has 10 items
    and more to come, and page 3 has 5 items and no more. *)
Theorem C3_getPosts_window (options : GetPostsOptions) (s : Store) :
  let page_ := default (o_page options) 1%Z in
  let limit := default (o_limit options) 10%Z in
  let st := default (o_status options) PUBLISHED in
  let size := clamp limit 1 50 in
  let offset := ((page_ - 1) * size)%Z in
  let matching := filter (fun p : Post => status_eqb (status p) st) (rows s) in
  (1 <= page_)%Z -> (1 <= limit)%Z ->
  (page_ * size <= Double.MAX_SAFE_INTEGER)%Z ->
  exists r,
    getPosts options s = Ok r
    /\ page r = page_
    /\ skip_of options = offset
    /\ total r = Z.of_nat (length matching)
    /\ hasMore r = (offset + size <? total r)%Z
    /\ items r
       = map toPostWithTags
           (firstn (Z.to_nat size)
              (skipn (Z.to_nat offset)
                 (order_rows (default (o_orderBy options) ByPublishedAt)
                    (default (o_order options) Desc) matching)))
    /\ Z.of_nat (length (items r)) = Z.max 0 (Z.min size (total r - offset))
    /\ (st = PUBLISHED -> limit = 10%Z ->
        count (Some PUBLISHED) s = 25%Z -> count (Some DRAFT) s = 5%Z ->
        total r = 25%Z
        /\ (page_ = 1%Z -> length (items r) = 10%nat /\ hasMore r = true)
        /\ (page_ = 3%Z -> length (items r) = 5%nat /\ hasMore r = false)).
Proof.
  intros page_ limit st size offset matching Hpage Hlimit Hsafe.
  assert (Hsize : size = maxLimit_of options).
  { unfold size, maxLimit_of. now apply clamp_min. }
  assert (Hsize_pos : (1 <= size)%Z) by (unfold size, clamp; lia).
  assert (Hskip : skip_of options = offset).
  { unfold offset. rewrite Hsize.
    apply skip_of_exact; rewrite <- ?Hsize; fold page_;
      first [lia | unfold Double.MAX_SAFE_INTEGER in *; nia]. }
  assert (Hoff : (0 <= offset)%Z) by (unfold offset; nia).
  rewrite getPosts_returns by (rewrite <- ?Hsize; fold page_; lia).
  rewrite where_of_status, <- Hsize. fold st page_ offset.
  change (filter (matches (Some st)) (rows s)) with matching.
  eexists. split; [reflexivity|]. cbn [page total hasMore items].
  rewrite count_length. fold matching.
  assert (Hlen : Z.of_nat (length (map toPostWithTags
            (firstn (Z.to_nat size) (skipn (Z.to_nat offset)
               (order_rows (default (o_orderBy options) ByPublishedAt)
                  (default (o_order options) Desc) matching)))))
          = Z.max 0 (Z.min size (Z.of_nat (length matching) - offset))).
  { rewrite length_map, window_nonneg_length by lia.
    now rewrite order_rows_length. }
  split; [reflexivity|]. split; [exact Hskip|].
  repeat (split; [reflexivity|]).
  split; [exact Hlen|].
  intros Hst Hl Hpub _.
  assert (Hm : Z.of_nat (length matching) = 25%Z).
  { unfold matching. rewrite Hst. exact Hpub. }
  assert (Hten : size = 10%Z) by (unfold size, clamp; lia).
  rewrite Hm in *. split; [reflexivity|].
  split; intros Hp; unfold offset in *; rewrite Hp, Hten in *;
    (split; [lia | reflexivity]).
Qed.


Lemma C3_getPosts_window_witness :
  exists r, getPosts page3 (sample_store 25 5) = Ok r
            /\ total r = 25%Z /\ length (items r) = 5%nat /\ hasMore r = false.
Proof.
  destruct (@C3_getPosts_window page3 (sample_store 25 5))
    as (r & Hr & _ & _ & _ & _ & _ & _ & Hex);
    [simpl; lia | simpl; lia | vm_compute; discriminate |].
  destruct Hex as (Ht & _ & H3); [reflexivity | reflexivity | reflexivity | reflexivity |].
  exists r. destruct (H3 eq_refl) as [Hl Hm]. auto.
Defined.


(** C3 as stated fails in three ways.  A limit below 1 is left as it is by
    [Math.min(limit, 50)]: page 2 with limit 0 skips no row and fetches
    none, where the specification has offset 1.  [hasMore] uses the limit
    after the cap, not the requested one: page 1 with limit 60 of 55 posts
    has more to come, where [offset + limit < total] is false.  And for a
    page whose offset is no 64-bit integer the query is rejected and
    [getPosts] returns nothing. *)
Lemma C3_counterexample :
  ((1 <= default (o_page page2_limit0) 1)%Z
   /\ skip_of page2_limit0 = 0%Z
   /\ ((2 - 1) * clamp 0 1 50)%Z = 1%Z
   /\ exists r, getPosts page2_limit0 (sample_store 2 0) = Ok r
                /\ items r = [] /\ total r = 2%Z)
  /\ ((1 <= default (o_page page1_limit60) 1)%Z
      /\ ((1 - 1) * clamp 60 1 50)%Z = 0%Z
      /\ exists r, getPosts page1_limit60 (sample_store 55 0) = Ok r
                   /\ total r = 55%Z /\ hasMore r = true
                   /\ hasMore r <> (0 + 60 <? total r)%Z)
  /\ ((1 <= default (o_page far_page) 1)%Z
      /\ getPosts far_page (sample_store 2 0) = Err InvalidArgument).
Proof.
  split; [|split].
  - split; [simpl; lia|]. split; [reflexivity|]. split; [reflexivity|].
    eexists. split; [vm_compute; reflexivity|]. split; reflexivity.
  - split; [simpl; lia|]. split; [reflexivity|].
    eexists. split; [vm_compute; reflexivity|].
    split; [reflexivity|]. split; [reflexivity|]. simpl. discriminate.
  - split; [simpl; lia|]. vm_compute. reflexivity.
Qed.

(** A request that the public route passes on: with [limit=-5] and
    [page=2] the offset is negative, the query is rejected and the route
    answers 500. *)
Example public_posts_negative_limit :
  public_posts {| q_page := Some 2%Z; q_limit := Some (-5)%Z;
                  q_orderBy := Missing; q_order := Missing |}
    (sample_store 3 0) = Failure 500.
Proof. reflexivity. Qed.


(** *** The caps on the limit *)

Lemma rss_limit_above (limit : Z) :
  (50 < limit)%Z -> rss_limit (Some limit) = Z.min limit 100.
Proof.
  intros H. unfold rss_limit, int_or.
  destruct (Z.eqb_spec limit 0); [lia | reflexivity].
Qed.

Lemma rss_feed_returns (parsed : option Z) (s : Store) :
  (0 <= rss_limit parsed)%Z ->
  rss_feed parsed s
  = Success (map toPostWithTags
               (firstn (Z.to_nat (rss_limit parsed))
                  (order_rows ByPublishedAt Desc
                     (filter (matches (Some PUBLISHED)) (rows s))))).
Proof.
  intros H. unfold rss_feed, getPublishedPostsForRSS, findMany.
  cbn [default]. cbv zeta.
  assert (Hcap : (rss_limit parsed <= 100)%Z) by (unfold rss_limit; lia).
  now rewrite window_nonneg by lia.
Qed.

(** C4 (as amended: the feed is capped at 100, and 50 is its default).
    For a requested limit above 50, [getPosts] fetches with the limit 50:
    whatever it returns has at most 50 items, and it returns for every
    page whose offset is a safe integer.  The RSS route fetches with the
    limit [min(limit, 100)] and its feed has that many items, or all the
    published posts when they are fewer: at most 100.  Without a limit the
    feed has 50 items, or all the published posts when they are fewer. *)
Theorem C4_limit_caps (limit : Z) (s : Store) :
  (50 < limit)%Z ->
  (forall options,
     o_limit options = Some limit ->
     maxLimit_of options = 50%Z
     /\ (forall r, getPosts options s = Ok r -> (length (items r) <= 50)%nat)
     /\ ((1 <= default (o_page options) 1)%Z ->
         (default (o_page options) 1 * 50 <= Double.MAX_SAFE_INTEGER)%Z ->
         exists r, getPosts options s = Ok r))
  /\ (exists posts,
        rss_feed (Some limit) s = Success posts
        /\ rss_limit (Some limit) = Z.min limit 100
        /\ (length posts <= 100)%nat
        /\ Z.of_nat (length posts)
           = Z.min (Z.min limit 100) (count (Some PUBLISHED) s))
  /\ (exists posts,
        rss_feed None s = Success posts
        /\ rss_limit None = 50%Z
        /\ Z.of_nat (length posts) = Z.min 50 (count (Some PUBLISHED) s)).
Proof.
  intros Hlimit. split; [|split].
  - intros options Hl.
    assert (Hmax : maxLimit_of options = 50%Z).
    { unfold maxLimit_of. rewrite Hl. simpl. lia. }
    split; [exact Hmax|]. split.
    + intros r Hr. apply getPosts_items_length in Hr. rewrite Hmax in Hr. lia.
    + intros Hpage Hsafe. rewrite getPosts_returns by (rewrite ?Hmax; lia).
      eexists. reflexivity.
  - rewrite rss_feed_returns by (rewrite rss_limit_above; lia).
    eexists. split; [reflexivity|]. rewrite rss_limit_above by lia.
    split; [reflexivity|].
    rewrite length_map, length_firstn, order_rows_length.
    unfold count. split; lia.
  - rewrite rss_feed_returns by (cbv; discriminate).
    eexists. split; [reflexivity|]. split; [reflexivity|].
    change (rss_limit None) with 50%Z.
    rewrite length_map, length_firstn, order_rows_length.
    unfold count. lia.
Qed.

Lemma C4_limit_caps_witness :
  exists posts, rss_feed (Some 60%Z) (sample_store 3 1) = Success posts
                /\ (length posts <= 100)%nat.
Proof.
  destruct (@C4_limit_caps 60%Z (sample_store 3 1))
    as (_ & (posts & H & _ & Hl & _) & _); [lia|].
  exists posts. split; [exact H | exact Hl].
Defined.

(** C4 as stated fails for the feed: asked for 60 items of 60 published
    posts, the RSS route puts all 60 in the feed, more than 50. *)
Lemma C4_counterexample_rss_60 :
  (50 < 60)%Z
  /\ length (feed_posts (rss_feed (Some 60%Z) (sample_store 60 0))) = 60%nat
  /\ ~ (length (feed_posts (rss_feed (Some 60%Z) (sample_store 60 0))) <= 50)%nat.
Proof.
  assert (H : length (feed_posts (rss_feed (Some 60%Z) (sample_store 60 0))) = 60%nat)
    by (vm_compute; reflexivity).
  split; [lia|]. split; [exact H|]. rewrite H. lia.
Qed.

(** *** Public queries *)

(** C5.  Whatever the store holds, every post that the public listing, the
    public lookup by slug or the RSS feed sends has status [PUBLISHED]. *)
Theorem C5_public_only_published (s : Store) (q : ListQuery) (sl : jsstring)
  (parsed_limit : option Z) :
  Forall published (listing_posts (public_posts q s))
  /\ Forall published (single_post (public_post sl s))
  /\ Forall published (feed_posts (rss_feed parsed_limit s)).
Proof.
  split; [|split].
  - unfold public_posts.
    destruct (q_orderBy q), (q_order q); simpl; try constructor;
      match goal with
      | |- context [getPosts ?o s] =>
          destruct (getPosts o s) as [r|] eqn:E; simpl; [|constructor];
          apply getPosts_inv in E as (posts & Hf & Hi & _);
          rewrite Hi; apply toPostWithTags_published;
          apply findMany_matches in Hf; exact Hf
      end.
  - unfold public_post.
    destruct (getPostBySlug sl s) as [post|]; simpl; [|constructor].
    destruct (status_eqb (status post) PUBLISHED) eqn:E; simpl; constructor;
      [|constructor].
    now apply status_eqb_eq.
  - unfold rss_feed, getPublishedPostsForRSS.
    destruct (findMany _ _ _ _ _ _) as [posts|] eqn:E; simpl; [|constructor].
    apply toPostWithTags_published. now apply findMany_matches in E.
Qed.

Example public_post_hides_draft :
  public_post (units "post-03") (sample_store 3 2) = Failure 404
  /\ option_map (@status _) (getPostBySlug (units "post-03") (sample_store 3 2))
     = Some DRAFT.
Proof. split; reflexivity. Qed.

(** *** The default status *)

(** C9.  When the filter has no [status], [getPosts] does what it does for
    [status: PUBLISHED]: every item is published and [total] counts the
    published rows only. *)
Theorem C9_status_defaults_to_published (options : GetPostsOptions) (s : Store) :
  o_status options = None ->
  getPosts options s
  = getPosts {| o_status := Some PUBLISHED; o_page := o_page options;
                o_limit := o_limit options; o_orderBy := o_orderBy options;
                o_order := o_order options |} s
  /\ forall r, getPosts options s = Ok r ->
       Forall published (items r)
       /\ total r
          = Z.of_nat (length (filter (fun p : Post => status_eqb (status p) PUBLISHED)
                                (rows s))).
Proof.
  intros Hst. split.
  - unfold getPosts, where_of, skip_of, maxLimit_of. now rewrite Hst.
  - intros r Hr. apply getPosts_inv in Hr as (posts & Hf & Hi & _ & Ht & _).
    rewrite where_of_status, Hst in Hf, Ht. simpl in Hf, Ht. split.
    + rewrite Hi. apply toPostWithTags_published.
      now apply findMany_matches in Hf.
    + rewrite Ht. reflexivity.
Qed.


Lemma C9_status_defaults_to_published_witness :
  exists r, getPosts no_options (sample_store 2 1) = Ok r
            /\ Forall published (items r) /\ total r = 2%Z.
Proof.
  destruct (@C9_status_defaults_to_published no_options (sample_store 2 1) eq_refl)
    as [_ H].
  destruct (getPosts no_options (sample_store 2 1)) as [r|e] eqn:E;
    [|vm_compute in E; discriminate E].
  exists r. split; [reflexivity|].
  destruct (H r eq_refl) as [H1 H2]. split; [exact H1|].
  rewrite H2. reflexivity.
Defined.

End ListingFacts.

(** ** Writing: create, update, delete, upsert *)

Module WriteFacts.

Import JSFacts JSONFacts StoreFacts.

Section WithRenderer.

Variable marked : jsstring -> jsstring.

Lemma createPost_inv (now : Date) (data : CreatePostData) (s s' : Store)
  (p : PostWithTags) :
  createPost marked now data s = (Ok p, s') ->
  let row := new_row (next_id s) now (create_input marked now data) in
  Prisma.create now (create_input marked now data) s = (Ok row, s')
  /\ p = toPostWithTags row
  /\ rows s' = rows s ++ [row].
Proof.
  unfold createPost, Prisma.create.
  destruct (slug_taken _ s); [discriminate|].
  intros [= <- <-]. auto.
Qed.

Lemma wf_createPost (now : Date) (data : CreatePostData) (s : Store) :
  wf s -> wf (snd (createPost marked now data s)).
Proof.
  intros Hwf. unfold createPost.
  destruct (Prisma.create _ _ s) as [[post|e] s'] eqn:E; simpl;
    (eapply wf_create; [exact Hwf | exact E]).
Qed.

Lemma wf_updatePost (now : Date) (i : PostId) (data : UpdatePostData) (s : Store) :
  wf s -> wf (snd (updatePost marked now i data s)).
Proof.
  intros Hwf. unfold updatePost.
  destruct (Prisma.update _ _ _ s) as [[post|e] s'] eqn:E; simpl;
    (eapply wf_update; [exact Hwf | exact E]).
Qed.

Lemma wf_deletePost (i : PostId) (s : Store) :
  wf s -> wf (snd (deletePost i s)).
Proof.
  intros Hwf. unfold deletePost.
  destruct (Prisma.delete _ s) as [[post|e] s'] eqn:E; simpl;
    (eapply wf_delete; [exact Hwf | exact E]).
Qed.

Lemma wf_upsertPostBySlug (now : Date) (data : CreatePostData) (s : Store) :
  wf s -> wf (snd (upsertPostBySlug marked now data s)).
Proof.
  intros Hwf. unfold upsertPostBySlug.
  destruct (Prisma.upsert _ _ _ _ s) as [[post|e] s'] eqn:E; simpl;
    (eapply wf_upsert; [exact Hwf | exact E]).
Qed.

End WithRenderer.

Lemma wf_add_posts (count : nat) (n : N) (st : PostStatus) (s : Store) :
  wf s -> wf (add_posts count n st s).
Proof.
  revert n s; induction count as [|k IH]; intros n s Hwf; simpl; [exact Hwf|].
  apply IH. now apply wf_createPost.
Qed.

Lemma wf_sample_store (published drafts : nat) : wf (sample_store published drafts).
Proof. unfold sample_store. apply wf_add_posts, wf_add_posts, wf_empty. Qed.

(** The invariant holds in every store that the service can reach. *)
Lemma reachable_wf (marked : jsstring -> jsstring) (s : Store) :
  reachable marked s -> wf s.
Proof.
  induction 1 as [|now data s _ IH|now i data s _ IH|i s _ IH|now data s _ IH].
  - apply wf_empty.
  - now apply wf_createPost.
  - now apply wf_updatePost.
  - now apply wf_deletePost.
  - now apply wf_upsertPostBySlug.
Qed.

(** *** Tags *)

Lemma parseTags_stringifyTags (tags : list jsstring) :
  parseTags (stringifyTags tags) = JSON.of_strings tags.
Proof. unfold parseTags, stringifyTags. now rewrite parse_stringify. Qed.

(** The serialised form of a sequence of strings begins with a bracket. *)
Lemma stringifyTags_bracket (tags : list jsstring) :
  exists t, stringifyTags tags = JSON.LBRACKET :: t.
Proof. unfold stringifyTags, JSON.stringify. eauto. Qed.

(** C6 (as amended: malformed is read as no JSON text).  Decoding the
    serialised form of a sequence of strings gives the sequence back; so
    the post that [getPostById] returns after a [createPost] has the tags
    of the payload (none when the payload has no tags).  A stored text on
    which [JSON.parse] throws decodes to the empty sequence, as does every
    serialised sequence that was cut before its closing bracket; a stored
    text that [JSON.parse] accepts decodes to the value that it denotes,
    whatever that value is. *)
Theorem C6_tags_round_trip :
  (forall tags : list jsstring,
     parseTags (stringifyTags tags) = JSON.of_strings tags)
  /\ (forall marked now data s p s',
        wf s -> createPost marked now data s = (Ok p, s') ->
        tags p = JSON.of_strings (default (cp_tags data) [])
        /\ option_map (@tags _) (getPostById (id p) s')
           = Some (JSON.of_strings (default (cp_tags data) [])))
  /\ (forall stored : jsstring,
        JSON.parse stored = None -> parseTags stored = JSON.Array [])
  /\ (forall tags : list jsstring,
        parseTags (removelast (stringifyTags tags)) = JSON.Array [])
  /\ (forall (stored : jsstring) (v : JSON.value),
        JSON.parse stored = Some v -> parseTags stored = v).
Proof.
  split; [exact parseTags_stringifyTags|]. split; [|split; [|split]].
  - intros marked now data s p s' Hwf Hc.
    pose proof (wf_createPost marked now data Hwf) as Hwf'.
    rewrite Hc in Hwf'. simpl in Hwf'.
    apply createPost_inv in Hc as (_ & -> & Hrows).
    assert (Ht : tags (toPostWithTags (new_row (next_id s) now
                   (create_input marked now data)))
                 = JSON.of_strings (default (cp_tags data) [])).
    { simpl. now rewrite parseTags_stringifyTags. }
    split; [exact Ht|].
    unfold getPostById.
    change (id (toPostWithTags (new_row (next_id s) now (create_input marked now data))))
      with (id (new_row (next_id s) now (create_input marked now data))).
    rewrite find_id_in; [simpl; now rewrite parseTags_stringifyTags | apply Hwf' |].
    rewrite Hrows. apply in_or_app. right. now left.
  - intros stored H. unfold parseTags. now rewrite H.
  - intros tags. unfold parseTags, stringifyTags. now rewrite parse_cut.
  - intros stored v H. unfold parseTags. now rewrite H.
Qed.

Lemma C6_tags_round_trip_witness :
  parseTags (stringifyTags [units "ai"; units "education"])
  = JSON.of_strings [units "ai"; units "education"]
  /\ option_map (@tags _) (getPostById 0 (sample_store 1 0))
     = Some (JSON.of_strings [units "ai"; units "education"])
  /\ parseTags (units "[oops") = JSON.Array [].
Proof.
  destruct C6_tags_round_trip as (H1 & H2 & H3 & _).
  split; [apply H1|]. split; [|apply H3; reflexivity].
  exact (proj2 (H2 sample_marked 0%Z (sample_data 0 PUBLISHED) empty_store
                  _ _ wf_empty eq_refl)).
Defined.

(** C6 as stated fails for a stored text that is no sequence of tags and
    yet a JSON text: [42] is the serialised form of no sequence of strings,
    and it decodes to the number 42, not to the empty sequence. *)
Lemma C6_counterexample_not_a_sequence :
  (forall tags : list jsstring, stringifyTags tags <> units "42")
  /\ parseTags (units "42") = JSON.Number (units "42")
  /\ parseTags (units "42") <> JSON.Array [].
Proof.
  split; [|split; [reflexivity | discriminate]].
  intros tags H. destruct (stringifyTags_bracket tags) as (t & Ht).
  rewrite Ht in H. discriminate H.
Qed.

Example parseTags_other_values :
  parseTags (units "null") = JSON.Null
  /\ parseTags (units "{}") = JSON.Object []
  /\ parseTags (units "[1]") = JSON.Array [JSON.Number (units "1")].
Proof. repeat split. Qed.


(** *** Content *)

Lemma processContent_markdown marked (md : jsstring) (html : option jsstring) :
  md <> [] -> given html = false ->
  processContent marked (Some md) html = (Some md, Some (marked md)).
Proof.
  intros Hmd Hh. unfold processContent. rewrite Hh.
  destruct md; [congruence | reflexivity].
Qed.

Lemma processContent_html marked (md : option jsstring) (html : jsstring) :
  html <> [] -> snd (processContent marked md (Some html)) = Some html.
Proof.
  intros Hh. unfold processContent.
  destruct html; [congruence | reflexivity].
Qed.

(** C7 (as amended: a content that is the empty string counts as not
    supplied).  After a [createPost] that succeeded: when the payload has a
    non-empty [contentMarkdown] and no [contentHtml] (or an empty one), the
    stored [contentHtml] is what the renderer makes of the markdown; when
    the payload has a non-empty [contentHtml], the stored [contentHtml] is
    that text, with or without markdown. *)
Theorem C7_contentHtml_of_create (marked : jsstring -> jsstring) (now : Date)
  (data : CreatePostData) (s s' : Store) (p : PostWithTags) :
  createPost marked now data s = (Ok p, s') ->
  (exists row, In row (rows s') /\ toPostWithTags row = p
               /\ contentHtml row = contentHtml p)
  /\ (forall md, cp_contentMarkdown data = Some md -> md <> [] ->
       given (cp_contentHtml data) = false ->
       contentHtml p = Some (marked md))
  /\ (forall html, cp_contentHtml data = Some html -> html <> [] ->
       contentHtml p = Some html).
Proof.
  intros Hc. apply createPost_inv in Hc as (_ & -> & Hrows). split; [|split].
  - eexists. split; [|split; reflexivity].
    rewrite Hrows. apply in_or_app. right. now left.
  - intros md Hmd Hne Hh.
    unfold toPostWithTags, new_row, create_input.
    cbn [contentHtml ci_contentHtml]. rewrite Hmd.
    now rewrite processContent_markdown.
  - intros html Hh Hne.
    unfold toPostWithTags, new_row, create_input.
    cbn [contentHtml ci_contentHtml]. rewrite Hh.
    now apply processContent_html.
Qed.

Lemma C7_contentHtml_of_create_witness :
  exists p s',
    createPost sample_marked 0%Z (sample_data 0 PUBLISHED) empty_store = (Ok p, s')
    /\ contentHtml p = Some (units "<p># Hi</p>").
Proof.
  eexists. eexists. split; [reflexivity|].
  apply (proj1 (proj2 (@C7_contentHtml_of_create sample_marked 0%Z
                         (sample_data 0 PUBLISHED) empty_store _ _ eq_refl))
           (units "# Hi") eq_refl); [discriminate | reflexivity].
Defined.

(** C7 as stated fails when the markdown is the empty string: it is the
    only content supplied, and the stored post has no [contentHtml] at
    all, whatever the renderer. *)
Lemma C7_counterexample_empty_markdown :
  cp_contentMarkdown only_empty_markdown = Some []
  /\ cp_contentHtml only_empty_markdown = None
  /\ forall marked : jsstring -> jsstring,
       exists p s',
         createPost marked 0%Z only_empty_markdown empty_store = (Ok p, s')
         /\ contentHtml p = None
         /\ map (@contentHtml _) (rows s') = [None].
Proof.
  split; [reflexivity|]. split; [reflexivity|].
  intros marked. eexists. eexists. split; [reflexivity|].
  split; reflexivity.
Qed.

(** *** Unknown identifiers *)

(** C8.  For an identifier that no row has, [updatePost] fails with the
    error of a record to update that is not found and [deletePost] with
    the error of a record to delete that does not exist, and the store is
    the one before the call.  The admin routes then answer with an error
    and leave the store as it was; the status is 404 exactly when the
    message of the error has the phrase that the route looks for. *)
Theorem C8_unknown_id_not_found (marked : jsstring -> jsstring)
  (cause : PrismaError -> jsstring) (now : Date)
  (i : PostId) (data : UpdatePostData) (s : Store) :
  ~ In i (ids s) ->
  updatePost marked now i data s = (Err RecordToUpdateNotFound, s)
  /\ deletePost i s = (Err RecordToDeleteDoesNotExist, s)
  /\ (exists code,
        admin_update marked cause now i data s = (Failure code, s)
        /\ (code = 404
            <-> includes (cause RecordToUpdateNotFound)
                  (units "Record to update not found") = true))
  /\ (exists code,
        admin_delete cause i s = (Failure code, s)
        /\ (code = 404
            <-> includes (cause RecordToDeleteDoesNotExist)
                  (units "Record to delete does not exist") = true)).
Proof.
  intros Hi. apply find_id_none in Hi.
  assert (Hu : updatePost marked now i data s = (Err RecordToUpdateNotFound, s)).
  { unfold updatePost, Prisma.update. now rewrite Hi. }
  assert (Hd : deletePost i s = (Err RecordToDeleteDoesNotExist, s)).
  { unfold deletePost, Prisma.delete. now rewrite Hi. }
  split; [exact Hu|]. split; [exact Hd|].
  unfold admin_update, admin_delete. rewrite Hu, Hd. cbn [message].
  split.
  - destruct (includes (cause RecordToUpdateNotFound) _).
    + eexists. split; [reflexivity | split; reflexivity].
    + destruct (includes (cause RecordToUpdateNotFound) _);
        (eexists; split; [reflexivity | split; discriminate]).
  - destruct (includes (cause RecordToDeleteDoesNotExist) _);
      (eexists; split; [reflexivity | split; try reflexivity; discriminate]).
Qed.


Lemma C8_unknown_id_not_found_witness :
  updatePost sample_marked 9%Z 7 title_update (sample_store 2 0)
  = (Err RecordToUpdateNotFound, sample_store 2 0)
  /\ deletePost 7 (sample_store 2 0)
     = (Err RecordToDeleteDoesNotExist, sample_store 2 0).
Proof.
  destruct (@C8_unknown_id_not_found sample_marked (fun _ => []) 9%Z 7
              title_update (sample_store 2 0)) as (H1 & H2 & _).
  - vm_compute. intros [H|[H|[]]]; discriminate H.
  - split; [exact H1 | exact H2].
Defined.

(** With the wording of a client that says it otherwise, the routes answer
    500 for an identifier that no row has. *)
Example unknown_id_other_wording :
  fst (admin_update sample_marked (fun _ => units "No record was found.")
         9%Z 7 title_update (sample_store 2 0))
  = Failure 500
  /\ fst (admin_delete (fun _ => units "No record was found.") 7
            (sample_store 2 0)) = Failure 500
  /\ fst (admin_update sample_marked
            (fun _ => units "Record to update not found.")
            9%Z 7 title_update (sample_store 2 0))
     = Failure 404.
Proof. repeat split. Qed.


(** *** Upsert *)

Lemma NoDup_map_eq {A B} (f : A -> B) (l : list A) (x y : A) :
  NoDup (map f l) -> In x l -> In y l -> f x = f y -> x = y.
Proof.
  induction l as [|a r IH]; simpl; [intros _ []|].
  intros Hnd Hx Hy Hf. inversion Hnd as [|? ? Ha Hr]; subst.
  destruct Hx as [->|Hx], Hy as [->|Hy]; auto.
  - exfalso. apply Ha. rewrite Hf. now apply in_map.
  - exfalso. apply Ha. rewrite <- Hf. now apply in_map.
Qed.

Lemma replace_row_same_slug (p : Post) (l : list Post) :
  (forall x, In x l -> id x = id p -> slug x = slug p) ->
  map (@slug jsstring) (replace_row p l) = map (@slug jsstring) l.
Proof.
  induction l as [|q r IH]; simpl; intros H; [reflexivity|].
  destruct (N.eqb_spec (id q) (id p)) as [E|E]; simpl.
  - f_equal. symmetry. apply H; auto.
  - f_equal. apply IH. intros x Hx. apply H. now right.
Qed.


(** An update that leaves the slug alone goes through. *)
Lemma update_keeping_slug (now : Date) (u : UpdateInput) (s : Store) (old : Post) :
  wf s -> In old (rows s) -> ui_slug u = None ->
  Prisma.update now (id old) u s
  = (Ok (apply_update now u old),
     {| rows := replace_row (apply_update now u old) (rows s);
        next_id := next_id s |}).
Proof.
  intros [Hid Hsl Hfr] Hin Hu. unfold Prisma.update.
  rewrite (@find_id_in s old Hid Hin).
  assert (Hslug : slug (apply_update now u old) = slug old)
    by (simpl; now rewrite Hu).
  rewrite Hslug.
  replace (slug_taken_by_other (slug old) (id old) s) with false; [reflexivity|].
  symmetry. apply slug_taken_by_other_false. intros p Hp Hs.
  f_equal. eapply NoDup_map_eq; eauto.
Qed.

Section Upsert.

Variable marked : jsstring -> jsstring.

Lemma default_or_else (a : option jsstring) (b : jsstring) :
  or_else a b = default (nonempty a) b.
Proof. now destruct a as [[|c r]|]. Qed.

(** The HTML that a call stores, by the content of its payload. *)
Lemma processContent_cases (md html : option jsstring) :
  or_else (fst (processContent marked md html)) [] = default md []
  /\ snd (processContent marked md html)
     = match nonempty html, nonempty md with
       | Some h, _ => Some h
       | None, Some m => Some (marked m)
       | None, None => None
       end.
Proof.
  unfold processContent.
  destruct md as [[|c m]|], html as [[|d h]|]; split; reflexivity.
Qed.

Lemma carries_new_row (now : Date) (data : CreatePostData) (i : PostId) :
  carries marked now data None
    (toPostWithTags (new_row i now (create_input marked now data))).
Proof.
  destruct (processContent_cases (cp_contentMarkdown data) (cp_contentHtml data))
    as [Hmd Hhtml].
  unfold carries, value_before.
  cbn [toPostWithTags new_row create_input title contentMarkdown contentHtml
       tags author publishedAt status updatedAt summary imageUrl sourceUrl
       ci_title ci_contentMarkdown ci_contentHtml ci_tags ci_author
       ci_publishedAt ci_status ci_summary ci_imageUrl ci_sourceUrl].
  rewrite Hmd, Hhtml, parseTags_stringifyTags, default_or_else.
  repeat split;
    try (destruct (nonempty (cp_contentHtml data)),
           (nonempty (cp_contentMarkdown data)); reflexivity);
    try (now destruct (cp_summary data));
    try (now destruct (cp_imageUrl data));
    now destruct (cp_sourceUrl data).
Qed.

Lemma carries_updated_row (now : Date) (data : CreatePostData) (old : Post) :
  carries marked now data (Some old)
    (toPostWithTags (apply_update now (upsert_update_input marked now data) old)).
Proof.
  destruct (processContent_cases (cp_contentMarkdown data) (cp_contentHtml data))
    as [Hmd Hhtml].
  unfold carries, value_before.
  cbn [toPostWithTags apply_update upsert_update_input title contentMarkdown
       contentHtml tags author publishedAt status updatedAt summary imageUrl
       sourceUrl ui_title ui_contentMarkdown ui_contentHtml ui_tags ui_author
       ui_publishedAt ui_status ui_summary ui_imageUrl ui_sourceUrl
       Prisma.set set_nullable no_data absent andb].
  rewrite Hmd, Hhtml, parseTags_stringifyTags, default_or_else.
  repeat split;
    try (destruct (nonempty (cp_contentHtml data)),
           (nonempty (cp_contentMarkdown data)); reflexivity);
    try (now destruct (cp_summary data));
    try (now destruct (cp_imageUrl data));
    try (now destruct (cp_sourceUrl data)).
Qed.


(** What one upsert does to a table that satisfies the invariant. *)
Lemma upsert_result (now : Date) (data : CreatePostData) (s : Store) :
  wf s ->
  exists row s',
    upsertPostBySlug marked now data s = (Ok (toPostWithTags row), s')
    /\ wf s'
    /\ In row (rows s')
    /\ slug row = slug_of data
    /\ carries marked now data (findUnique_slug (slug_of data) s)
         (toPostWithTags row)
    /\ (forall old, findUnique_slug (slug_of data) s = Some old ->
          row = apply_update now (upsert_update_input marked now data) old
          /\ rows s' = replace_row row (rows s)
          /\ next_id s' = next_id s).
Proof.
  intros Hwf.
  pose proof (wf_upsertPostBySlug marked now data Hwf) as Hwf'.
  unfold upsertPostBySlug, Prisma.upsert in *. fold (slug_of data) in *.
  destruct (findUnique_slug (slug_of data) s) as [old|] eqn:Hf.
  - apply find_slug_some in Hf as [Hin Hsl].
    rewrite update_keeping_slug in * by auto. simpl in Hwf'.
    eexists. eexists. split; [reflexivity|]. split; [exact Hwf'|].
    split; [|split; [exact Hsl|split; [apply carries_updated_row|]]].
    + simpl. apply replace_row_new. simpl. apply in_map, Hin.
    + intros old' [= <-]. auto.
  - unfold Prisma.create in *.
    change (ci_slug (create_input marked now data)) with (slug_of data) in *.
    rewrite (slug_taken_find _ _ Hf) in *. simpl in Hwf'.
    eexists. eexists. split; [reflexivity|]. split; [exact Hwf'|].
    split; [|split; [reflexivity|split; [apply carries_new_row|]]].
    + simpl. apply in_or_app. right. now left.
    + intros old' [=].
Qed.

End Upsert.

(** C10.  When a post already has the slug that [upsertPostBySlug]
    computes, the call succeeds and rewrites that row in place: the row
    keeps its [id], its [slug] and its [createdAt], the keys of the table
    are the ones before the call, and every other row is untouched. *)
Theorem C10_upsert_keeps_id_and_slug (marked : jsstring -> jsstring)
  (now : Date) (data : CreatePostData) (s : Store) (old : Post) :
  wf s ->
  findUnique_slug (slug_of data) s = Some old ->
  exists row s',
    upsertPostBySlug marked now data s = (Ok (toPostWithTags row), s')
    /\ row = apply_update now (upsert_update_input marked now data) old
    /\ id row = id old /\ slug row = slug old /\ createdAt row = createdAt old
    /\ findUnique_id (id old) s' = Some row
    /\ ids s' = ids s /\ slugs s' = slugs s
    /\ (forall q, In q (rows s) -> id q <> id old -> In q (rows s')).
Proof.
  intros Hwf Hf.
  destruct (upsert_result marked now data Hwf)
    as (row & s' & Hu & Hwf' & Hin & Hsl & _ & Hold).
  destruct (Hold old Hf) as (Hrow & Hrows & _).
  apply find_slug_some in Hf as [Hin_old Hsl_old].
  assert (Hid : id row = id old) by (rewrite Hrow; reflexivity).
  exists row, s'. split; [exact Hu|]. split; [exact Hrow|].
  split; [exact Hid|]. split; [congruence|].
  split; [rewrite Hrow; reflexivity|].
  split; [rewrite <- Hid; apply find_id_in; [apply Hwf' | exact Hin]|].
  unfold ids, slugs. rewrite Hrows.
  split; [apply replace_row_ids|]. split.
  - apply replace_row_same_slug. intros x Hx Hxid.
    rewrite Hsl, <- Hsl_old. f_equal.
    eapply NoDup_map_eq; [apply (wf_ids Hwf) | | | ]; eauto. congruence.
  - intros q Hq Hne. apply replace_row_other; [exact Hq | congruence].
Qed.

Lemma C10_upsert_keeps_id_and_slug_witness :
  exists row s',
    upsertPostBySlug sample_marked 50%Z (sample_data 1 DRAFT) (sample_store 3 0)
    = (Ok (toPostWithTags row), s')
    /\ id row = 1 /\ slug row = units "post-01" /\ createdAt row = 1%Z
    /\ status row = DRAFT /\ ids s' = [0; 1; 2].
Proof.
  destruct (@C10_upsert_keeps_id_and_slug sample_marked 50%Z (sample_data 1 DRAFT)
              (sample_store 3 0)
              (new_row 1 1%Z (create_input sample_marked 1%Z (sample_data 1 PUBLISHED))))
    as (row & s' & Hu & Hrow & Hid & Hsl & Hc & _ & Hids & _).
  - apply wf_sample_store.
  - reflexivity.
  - exists row, s'. split; [exact Hu|]. split; [exact Hid|].
    split; [exact Hsl|]. split; [exact Hc|]. split; [rewrite Hrow; reflexivity|].
    exact Hids.
Defined.




Example upsert_twice_run :
  let s1 := snd (upsertPostBySlug sample_marked 10%Z (sample_data 7 PUBLISHED)
                   (sample_store 2 0)) in
  let s2 := snd (upsertPostBySlug sample_marked 20%Z (sample_data 7 PUBLISHED) s1) in
  map (fun p : Post => (id p, slug p, publishedAt p, createdAt p, updatedAt p))
    (rows s2)
  = [(0, units "post-00", 0%Z, 0%Z, 0%Z);
     (1, units "post-01", 1%Z, 1%Z, 1%Z);
     (2, units "post-07", 20%Z, 10%Z, 20%Z)].
Proof. reflexivity. Qed.

End WriteFacts.

(** ** Authentication *)

Module AuthFacts.

Import JSFacts.

Lemma startsWith_app (p r : jsstring) : startsWith (p ++ r) p = true.
Proof.
  induction p as [|a p IH]; simpl; [now destruct r|].
  now rewrite N.eqb_refl.
Qed.

Lemma startsWith_inv (s p : jsstring) :
  startsWith s p = true -> s = p ++ skipn (length p) s.
Proof.
  revert s; induction p as [|a p IH]; intros s; [reflexivity|].
  destruct s as [|b s]; simpl; [discriminate|].
  intros H. apply andb_true_iff in H as [Hab Hs].
  apply N.eqb_eq in Hab. subst b. simpl. f_equal. now apply IH.
Qed.

Lemma not_startsWith (h p r : jsstring) :
  startsWith h p = false -> h <> p ++ r.
Proof. intros H ->. rewrite startsWith_app in H. discriminate. Qed.

Lemma skipn_app_exact {A} (p r : list A) : skipn (length p) (p ++ r) = r.
Proof. induction p; simpl; auto. Qed.

Lemma truthy_nonempty (s : jsstring) : truthy s = true <-> s <> [].
Proof. destruct s; simpl; split; congruence. Qed.

(** The three tests of [requireAuth] on the header amount to one
    comparison. *)
Lemma bearer_test (h tok : jsstring) :
  truthy h && startsWith h BEARER && JS.eqb (substring 7 h) tok
  = JS.eqb h (BEARER ++ tok).
Proof.
  destruct (eqb_spec h (BEARER ++ tok)) as [->|Hne].
  - change (startsWith (BEARER ++ tok) BEARER) with true.
    change (substring 7 (BEARER ++ tok)) with tok. now rewrite eqb_refl.
  - destruct (truthy h); [|reflexivity].
    destruct (startsWith h BEARER) eqn:Hs; [|reflexivity]. simpl.
    apply startsWith_inv in Hs. change (length BEARER) with 7%nat in Hs.
    apply eqb_neq. unfold substring. intros E. apply Hne.
    rewrite Hs. f_equal. exact E.
Qed.

Lemma requireAuth_cases (authHeader token : option jsstring) :
  requireAuth authHeader token
  = match token with
    | None => Reject 500
    | Some tok =>
        if truthy tok then
          match authHeader with
          | Some h => if JS.eqb h (BEARER ++ tok) then Next else Reject 401
          | None => Reject 401
          end
        else Reject 500
    end.
Proof.
  unfold requireAuth. destruct token as [tok|]; [|reflexivity].
  destruct (truthy tok); [|reflexivity].
  destruct authHeader as [h|]; [|reflexivity].
  cbn [given or_else negb orb]. rewrite <- bearer_test.
  destruct (truthy h); [|reflexivity].
  destruct (startsWith h BEARER); [|reflexivity].
  now destruct (JS.eqb (substring 7 h) tok).
Qed.

Lemma requireWebhookSecret_cases (providedSecret secret : option jsstring) :
  requireWebhookSecret providedSecret secret
  = match secret with
    | None => Reject 500
    | Some sec =>
        if truthy sec then
          match providedSecret with
          | Some h => if JS.eqb h sec then Next else Reject 401
          | None => Reject 401
          end
        else Reject 500
    end.
Proof.
  unfold requireWebhookSecret. destruct secret as [sec|]; [|reflexivity].
  destruct (truthy sec) eqn:Hs; [|reflexivity].
  destruct providedSecret as [h|]; [|reflexivity].
  cbn [given or_else negb]. destruct (truthy h) eqn:Hh.
  - now destruct (JS.eqb h sec).
  - destruct h; [|discriminate]. destruct sec; [discriminate | reflexivity].
Qed.

(** X1.  [requireAuth] lets a request through exactly when a token is
    configured (and is not empty) and the [Authorization] header is
    ["Bearer "] followed by that token; it answers 500 exactly when no
    token is configured, and 401 in every other case. *)
Theorem X1_requireAuth_passes_iff (authHeader token : option jsstring) :
  (requireAuth authHeader token = Next <->
   exists tok, token = Some tok /\ tok <> [] /\ authHeader = Some (BEARER ++ tok))
  /\ (requireAuth authHeader token = Reject 500 <-> given token = false)
  /\ (requireAuth authHeader token <> Next ->
      given token = true -> requireAuth authHeader token = Reject 401).
Proof.
  rewrite requireAuth_cases.
  destruct token as [tok|]; cbn [given].
  2:{ repeat split; try discriminate; try reflexivity.
      intros (t & H & _). discriminate. }
  destruct (truthy tok) eqn:Htok.
  2:{ repeat split; try discriminate; try reflexivity.
      intros (t & [= <-] & Hne & _). apply truthy_nonempty in Hne. congruence. }
  assert (Hne : tok <> []) by now apply truthy_nonempty.
  destruct authHeader as [h|].
  2:{ repeat split; try discriminate; try reflexivity.
      intros (t & _ & _ & H). discriminate. }
  destruct (eqb_spec h (BEARER ++ tok)) as [->|E].
  - repeat split; try discriminate; try (intros _; reflexivity).
    + intros _. now exists tok.
    + intros H. exfalso. now apply H.
  - repeat split; try discriminate; try reflexivity.
    intros (t & [= <-] & _ & [= Eh]). contradiction.
Qed.

(** X2.  [requireWebhookSecret] lets a request through exactly when a
    secret is configured (and is not empty) and the header [x-n8n-secret]
    is that secret; it answers 500 exactly when no secret is configured,
    and 401 in every other case. *)
Theorem X2_requireWebhookSecret_passes_iff (providedSecret secret : option jsstring) :
  (requireWebhookSecret providedSecret secret = Next <->
   exists sec, secret = Some sec /\ sec <> [] /\ providedSecret = Some sec)
  /\ (requireWebhookSecret providedSecret secret = Reject 500 <->
      given secret = false)
  /\ (requireWebhookSecret providedSecret secret <> Next ->
      given secret = true ->
      requireWebhookSecret providedSecret secret = Reject 401).
Proof.
  rewrite requireWebhookSecret_cases.
  destruct secret as [sec|]; cbn [given].
  2:{ repeat split; try discriminate; try reflexivity.
      intros (t & H & _). discriminate. }
  destruct (truthy sec) eqn:Hsec.
  2:{ repeat split; try discriminate; try reflexivity.
      intros (t & [= <-] & Hne & _). apply truthy_nonempty in Hne. congruence. }
  assert (Hne : sec <> []) by now apply truthy_nonempty.
  destruct providedSecret as [h|].
  2:{ repeat split; try discriminate; try reflexivity.
      intros (t & _ & _ & H). discriminate. }
  destruct (eqb_spec h sec) as [->|E].
  - repeat split; try discriminate; try (intros _; reflexivity).
    + intros _. now exists sec.
    + intros H. exfalso. now apply H.
  - repeat split; try discriminate; try reflexivity.
    intros (t & [= <-] & _ & [= Eh]). contradiction.
Qed.

End AuthFacts.

(** ** Order and pages *)

(** ** The order of texts *)

Module Utf8Facts.

Import Unicode.

#[local] Ltac Zify.zify_post_hook ::= Z.to_euclidean_division_equations.

Lemma bytes_leb_lt (x y : N) (a b : list N) :
  x < y -> bytes_leb (x :: a) (y :: b) = true /\ bytes_leb (y :: b) (x :: a) = false.
Proof.
  intros H. cbn [bytes_leb].
  rewrite (proj2 (N.ltb_lt x y) H), (proj2 (N.ltb_ge y x)) by lia.
  rewrite (proj2 (N.eqb_neq y x)) by lia. split; reflexivity.
Qed.

Lemma bytes_leb_same (x : N) (a b : list N) :
  bytes_leb (x :: a) (x :: b) = bytes_leb a b.
Proof. cbn [bytes_leb]. now rewrite N.ltb_irrefl, N.eqb_refl. Qed.

Ltac digits :=
  match goal with
  | |- bytes_leb (?x :: _) (?y :: _) = true /\ _ =>
      let L := fresh "L" in
      let E := fresh "E" in
      let G := fresh "G" in
      destruct (N.lt_total x y) as [L|[E|G]];
      [ apply bytes_leb_lt; exact L
      | first [ exfalso; lia | rewrite <- E, !bytes_leb_same; digits ]
      | exfalso; lia ]
  end.

Lemma utf8_of_lt (c d : N) (a b : list N) :
  c < d ->
  bytes_leb (utf8_of c ++ a) (utf8_of d ++ b) = true
  /\ bytes_leb (utf8_of d ++ b) (utf8_of c ++ a) = false.
Proof.
  intros H. unfold utf8_of.
  destruct (N.ltb_spec c 0x80), (N.ltb_spec c 0x800), (N.ltb_spec c 0x10000),
    (N.ltb_spec d 0x80), (N.ltb_spec d 0x800), (N.ltb_spec d 0x10000);
    try lia; cbn [app]; digits.
Qed.

Lemma utf8_of_nonempty (c : N) : utf8_of c <> [].
Proof.
  unfold utf8_of. destruct (c <? 0x80); [discriminate|].
  destruct (c <? 0x800); [discriminate|]. destruct (c <? 0x10000); discriminate.
Qed.

Lemma bytes_leb_app_same (p a b : list N) :
  bytes_leb (p ++ a) (p ++ b) = bytes_leb a b.
Proof.
  induction p as [|x p IH]; [reflexivity|].
  cbn [app]. now rewrite bytes_leb_same.
Qed.

(** UTF-8 keeps the order of the code points. *)
Lemma utf8_order (a b : list N) :
  bytes_leb (flat_map utf8_of a) (flat_map utf8_of b) = lex_leb a b.
Proof.
  revert b; induction a as [|c a IH]; intros [|d b]; [reflexivity | reflexivity | |].
  - cbn [flat_map lex_leb]. pose proof (utf8_of_nonempty c).
    destruct (utf8_of c); [congruence | reflexivity].
  - cbn [flat_map lex_leb].
    destruct (N.ltb_spec c d) as [Hlt|Hge].
    + now apply utf8_of_lt.
    + destruct (N.ltb_spec d c) as [Hgt|Hle].
      * now apply utf8_of_lt.
      * replace d with c by lia. now rewrite bytes_leb_app_same.
Qed.

(** SQLite orders titles by their code points. *)
Lemma string_leb_code_points (a b : jsstring) :
  string_leb a b = title_leb a b.
Proof. apply utf8_order. Qed.

End Utf8Facts.


(** ** The order of listings *)

Module OrderFacts.

Import StoreFacts QueryFacts ListingFacts Utf8Facts.

Lemma bytes_leb_total (a b : list N) :
  bytes_leb a b = false -> bytes_leb b a = true.
Proof.
  revert b; induction a as [|x a IH]; intros [|y b]; simpl; try discriminate;
    try reflexivity.
  intros H. apply orb_false_iff in H as [Hlt H].
  apply N.ltb_ge in Hlt.
  destruct (N.eqb_spec x y) as [->|Hne]; simpl in H.
  - rewrite N.eqb_refl, (IH _ H). now rewrite orb_true_r.
  - replace (y <? x) with true; [reflexivity|]. symmetry. apply N.ltb_lt. lia.
Qed.

Lemma string_leb_total (a b : jsstring) :
  string_leb a b = false -> string_leb b a = true.
Proof. apply bytes_leb_total. Qed.

(** A text in ASCII is stored as it is, so that titles in ASCII are
    ordered by their characters. *)
Lemma utf8_ascii (s : jsstring) :
  Forall (fun c => c < 0x80) s -> Unicode.utf8 s = s.
Proof.
  unfold Unicode.utf8. induction 1 as [|c r Hc _ IH]; [reflexivity|].
  cbn [Unicode.code_points].
  assert (Hh : JSON.is_high_surrogate c = false).
  { unfold JSON.is_high_surrogate, in_range. apply andb_false_iff. left.
    apply N.leb_gt. lia. }
  assert (Hl : JSON.is_low_surrogate c = false).
  { unfold JSON.is_low_surrogate, in_range. apply andb_false_iff. left.
    apply N.leb_gt. lia. }
  rewrite Hh, Hl. cbn [flat_map]. rewrite IH. unfold Unicode.utf8_of.
  now rewrite (proj2 (N.ltb_lt c 0x80) Hc).
Qed.

Lemma string_leb_ascii (a b : jsstring) :
  Forall (fun c => c < 0x80) a -> Forall (fun c => c < 0x80) b ->
  string_leb a b = bytes_leb a b.
Proof. intros Ha Hb. unfold string_leb. now rewrite !utf8_ascii. Qed.

(** The order of the stored bytes is the one of SQLite on the titles of
    two posts: a letter of the basic plane stands before one beyond it. *)
Example string_leb_beyond_the_basic_plane :
  string_leb [0xFF21] [0xD83D; 0xDE00] = true
  /\ string_leb [0xD83D; 0xDE00] [0xFF21] = false.
Proof. split; reflexivity. Qed.

Lemma before_total (f : OrderField) (o : SortOrder) (p q : Post) :
  before f o p q = false -> before f o q p = true.
Proof.
  destruct o, f; simpl; try apply string_leb_total;
    intros H; apply Z.leb_gt in H; apply Z.leb_le; lia.
Qed.

Lemma sorted_by_cons {A} (le : A -> A -> bool) (a : A) (l : list A) :
  sorted_by le (a :: l) = true ->
  sorted_by le l = true.
Proof.
  destruct l as [|b r]; [reflexivity|]. simpl.
  intros H. now apply andb_true_iff in H.
Qed.

Lemma insert_sorted_sorted (le : Post -> Post -> bool) (p : Post) (l : list Post) :
  (forall a b, le a b = false -> le b a = true) ->
  sorted_by le l = true -> sorted_by le (insert_sorted le p l) = true.
Proof.
  intros Htot. induction l as [|q r IH]; [reflexivity|].
  intros Hs. cbn [insert_sorted]. destruct (le p q) eqn:Hpq.
  - cbn [sorted_by]. now rewrite Hpq.
  - pose proof (IH (sorted_by_cons _ _ _ Hs)) as Hins.
    destruct r as [|q' r']; cbn [insert_sorted] in *.
    + cbn [sorted_by]. now rewrite (Htot _ _ Hpq).
    + destruct (le p q') eqn:Hpq'.
      * cbn [sorted_by] in *. rewrite (Htot _ _ Hpq). exact Hins.
      * cbn [sorted_by] in Hs. apply andb_true_iff in Hs as [Hqq' _].
        change (sorted_by le (q :: q' :: insert_sorted le p r'))
          with (le q q' && sorted_by le (q' :: insert_sorted le p r')).
        now rewrite Hqq'.
Qed.

(** The rows come out of [order_rows] in the requested order. *)
Lemma order_rows_sorted (f : OrderField) (o : SortOrder) (l : list Post) :
  sorted_by (before f o) (order_rows f o l) = true.
Proof.
  unfold order_rows. induction l as [|p r IH]; [reflexivity|]. simpl.
  apply insert_sorted_sorted; [apply before_total | exact IH].
Qed.

Lemma sorted_by_app {A} (le : A -> A -> bool) (a b : list A) :
  sorted_by le (a ++ b) = true -> sorted_by le a = true /\ sorted_by le b = true.
Proof.
  induction a as [|x a IH]; [now split|].
  intros H. pose proof (sorted_by_cons _ _ _ H) as Ht.
  destruct (IH Ht) as [Ha Hb]. split; [|exact Hb].
  destruct a as [|y a']; [reflexivity|].
  simpl in H. apply andb_true_iff in H as [Hxy _].
  cbn [sorted_by]. now rewrite Hxy.
Qed.

Lemma sorted_by_snoc {A} (le : A -> A -> bool) (l : list A) (x : A) :
  sorted_by le l = true ->
  (l <> [] -> le (last l x) x = true) ->
  sorted_by le (l ++ [x]) = true.
Proof.
  induction l as [|a l IH]; [reflexivity|]. intros Hs Hlast.
  destruct l as [|b r].
  - cbn [app sorted_by]. rewrite andb_true_r. apply Hlast. discriminate.
  - change (sorted_by le ((a :: b :: r) ++ [x]))
      with (le a b && sorted_by le ((b :: r) ++ [x])).
    cbn [sorted_by] in Hs. apply andb_true_iff in Hs as [Hab Hs].
    rewrite Hab. apply IH; [exact Hs|]. intros _. apply Hlast. discriminate.
Qed.

(** A sorted list, read backwards, is sorted for the opposite order. *)
Lemma sorted_by_rev {A} (le : A -> A -> bool) (l : list A) :
  sorted_by le l = true -> sorted_by (fun a b => le b a) (rev l) = true.
Proof.
  induction l as [|a l IH]; [reflexivity|]. intros Hs.
  cbn [rev]. apply sorted_by_snoc.
  - apply IH. eapply sorted_by_cons, Hs.
  - intros Hne. destruct l as [|b r]; [now contradiction Hne|].
    cbn [rev]. rewrite last_last.
    cbn [sorted_by] in Hs. now apply andb_true_iff in Hs.
Qed.

Lemma sorted_by_ext {A} (le le' : A -> A -> bool) (l : list A) :
  (forall a b, le a b = le' a b) -> sorted_by le l = sorted_by le' l.
Proof.
  intros H. induction l as [|a l IH]; [reflexivity|].
  destruct l as [|b r]; [reflexivity|].
  change (le a b && sorted_by le (b :: r) = le' a b && sorted_by le' (b :: r)).
  now rewrite H, IH.
Qed.

Lemma before_opposite (f : OrderField) (o : SortOrder) (p q : Post) :
  before f (opposite o) q p = before f o p q.
Proof. now destruct o. Qed.

(** A window is a run of consecutive rows of the result: of the ordered
    one, or, read backwards, of the one in the opposite order. *)
Lemma window_segment (skip take : Z) (forward backward out : list Post) :
  window skip take forward backward = Ok out ->
  (exists a b, forward = a ++ out ++ b)
  \/ (exists a b, backward = a ++ rev out ++ b).
Proof.
  unfold window. destruct (negb _); [discriminate|].
  destruct (skip <? 0)%Z; [discriminate|].
  destruct (0 <=? take)%Z; intros [= <-].
  - left. exists (firstn (Z.to_nat skip) forward),
      (skipn (Z.to_nat take) (skipn (Z.to_nat skip) forward)).
    now rewrite !firstn_skipn.
  - right. exists (firstn (Z.to_nat skip) backward),
      (skipn (Z.to_nat (- take)) (skipn (Z.to_nat skip) backward)).
    now rewrite rev_involutive, !firstn_skipn.
Qed.

(** The order of the query is the order of the listing: of the dates, and
    of the code points of the titles. *)
Lemma in_order_before (f : OrderField) (o : SortOrder) (p q : Post) :
  in_order f o (toPostWithTags p) (toPostWithTags q) = before f o p q.
Proof.
  destruct o, f; cbn [in_order key_leb before field_leb toPostWithTags title
                      publishedAt updatedAt];
    try reflexivity; symmetry; apply string_leb_code_points.
Qed.

Lemma sorted_by_map (f : OrderField) (o : SortOrder) (l : list Post) :
  sorted_by (in_order f o) (map toPostWithTags l) = sorted_by (before f o) l.
Proof.
  induction l as [|p l IH]; [reflexivity|].
  destruct l as [|q r]; [reflexivity|].
  change (sorted_by (in_order f o) (map toPostWithTags (p :: q :: r)))
    with (in_order f o (toPostWithTags p) (toPostWithTags q)
          && sorted_by (in_order f o) (map toPostWithTags (q :: r))).
  rewrite IH, in_order_before. reflexivity.
Qed.

Lemma findMany_sorted (w : WhereInput) (skip take : Z) (f : OrderField)
  (o : SortOrder) (s : Store) (out : list Post) :
  findMany w skip take f o s = Ok out -> sorted_by (before f o) out = true.
Proof.
  unfold findMany. cbv zeta. intros H.
  apply window_segment in H as [(a & b & H)|(a & b & H)].
  - pose proof (order_rows_sorted f o (filter (matches w) (rows s))) as Hs.
    rewrite H in Hs. apply sorted_by_app in Hs as [_ Hs].
    now apply sorted_by_app in Hs.
  - pose proof (order_rows_sorted f (opposite o) (filter (matches w) (rows s)))
      as Hs.
    rewrite H in Hs. apply sorted_by_app in Hs as [_ Hs].
    apply sorted_by_app in Hs as [Hs _]. apply sorted_by_rev in Hs.
    rewrite rev_involutive in Hs. rewrite <- Hs.
    apply sorted_by_ext. intros p q. symmetry. apply before_opposite.
Qed.

(** A negative [take] with equal keys: of two posts published at the same
    time, the query for the last one in descending order runs in ascending
    order, where the post that was created first comes first, and returns
    that one. *)
Example negative_take_with_equal_keys :
  let s := snd (createPost sample_marked 5%Z (sample_data 1 PUBLISHED)
                  (snd (createPost sample_marked 5%Z (sample_data 0 PUBLISHED)
                          empty_store))) in
  map (@publishedAt _) (rows s) = [5%Z; 5%Z]
  /\ option_map (map (@slug _))
       (match findMany (Some PUBLISHED) 0 (-1) ByPublishedAt Desc s with
        | Ok posts => Some posts
        | Err _ => None
        end) = Some [units "post-00"]
  /\ option_map (map (@slug _))
       (match findMany (Some PUBLISHED) 0 1 ByPublishedAt Desc s with
        | Ok posts => Some posts
        | Err _ => None
        end) = Some [units "post-00"].
Proof. repeat split. Qed.

(** X3.  The items of a page of [getPosts] stand in the requested order
    (by default the newest [publishedAt] first; titles by their code
    points, which is how SQLite orders their UTF-8 bytes), and so do the
    posts of the RSS feed, newest first. *)
Theorem X3_listings_are_ordered (options : GetPostsOptions)
  (parsed_limit : option Z) (s : Store) :
  sorted_by (in_order (default (o_orderBy options) ByPublishedAt)
               (default (o_order options) Desc))
    (items_of (getPosts options s)) = true
  /\ sorted_by (in_order ByPublishedAt Desc)
       (feed_posts (rss_feed parsed_limit s)) = true.
Proof.
  split.
  - destruct (getPosts options s) as [r|] eqn:E; [|reflexivity].
    apply getPosts_inv in E as (posts & Hf & Hi & _). simpl.
    rewrite Hi, sorted_by_map. eapply findMany_sorted, Hf.
  - unfold rss_feed, getPublishedPostsForRSS.
    destruct (findMany _ _ _ _ _ _) as [posts|] eqn:E; [|reflexivity].
    simpl. rewrite sorted_by_map. eapply findMany_sorted, E.
Qed.


(** *** Walking through the pages *)

Lemma firstn_add {A} (a b : nat) (l : list A) :
  firstn (a + b) l = firstn a l ++ firstn b (skipn a l).
Proof.
  revert l; induction a as [|a IH]; intros l; [reflexivity|].
  destruct l as [|x l]; simpl; [now rewrite firstn_nil | now rewrite IH].
Qed.

Lemma full_listing_length (options : GetPostsOptions) (s : Store) :
  Z.of_nat (length (full_listing options s)) = count (where_of options) s.
Proof.
  unfold full_listing, count. now rewrite length_map, order_rows_length.
Qed.

(** The items of page [p], as a piece of the full listing. *)
Lemma getPosts_page (options : GetPostsOptions) (p : Z) (s : Store) :
  (1 <= p)%Z -> (0 <= maxLimit_of options)%Z ->
  (p * maxLimit_of options <= Double.MAX_SAFE_INTEGER)%Z ->
  getPosts (with_page options p) s
  = Ok {| items :=
            firstn (Z.to_nat (maxLimit_of options))
              (skipn (Z.to_nat ((p - 1) * maxLimit_of options))
                 (full_listing options s));
          page := p;
          total := count (where_of options) s;
          hasMore :=
            ((p - 1) * maxLimit_of options + maxLimit_of options
             <? count (where_of options) s)%Z |}.
Proof.
  intros Hp Hl Hs. rewrite getPosts_returns by assumption.
  unfold full_listing. cbn [with_page default o_page].
  now rewrite skipn_map, firstn_map.
Qed.

(** The items of page [p] of a table with fewer than [2^53] rows of the
    requested status: the page may lie so far that its offset is rounded,
    or rejected, and then it is beyond the listing and has no item. *)
Lemma getPosts_items (options : GetPostsOptions) (p : Z) (s : Store) :
  (1 <= p)%Z -> (1 <= maxLimit_of options)%Z ->
  (count (where_of options) s <= Double.MAX_SAFE_INTEGER)%Z ->
  items_of (getPosts (with_page options p) s)
  = firstn (Z.to_nat (maxLimit_of options))
      (skipn (Z.to_nat ((p - 1) * maxLimit_of options))
         (full_listing options s)).
Proof.
  intros Hp Hl Hsize.
  pose proof (full_listing_length options s) as Hlen.
  set (m := maxLimit_of options) in *.
  assert (Hm50 : (m <= 50)%Z) by (unfold m, maxLimit_of; lia).
  destruct (Z.le_gt_cases (count (where_of options) s) ((p - 1) * m))
    as [Hfar|Hnear].
  - (* beyond the listing *)
    rewrite (skipn_all2 (full_listing options s)) by lia. rewrite firstn_nil.
    pose proof (@skip_of_beyond (with_page options p)
                  (count (where_of options) s) Hp Hl Hsize Hfar) as Hskip.
    destruct (getPosts (with_page options p) s) as [r|] eqn:E; [|reflexivity].
    apply getPosts_inv in E as (posts & Hf & Hi & _). cbn [items_of]. rewrite Hi.
    unfold findMany, window in Hf. cbv zeta in Hf.
    destruct (negb _); [discriminate|].
    destruct (skip_of (with_page options p) <? 0)%Z; [discriminate|].
    change (maxLimit_of (with_page options p)) with m in Hf.
    destruct (Z.leb_spec 0 m); [|lia]. injection Hf as <-.
    rewrite skipn_all2; [now rewrite firstn_nil|].
    rewrite order_rows_length.
    change (where_of (with_page options p)) with (where_of options).
    unfold count in Hskip. lia.
  - (* within the listing: the offset is exact *)
    unfold Double.MAX_SAFE_INTEGER in Hsize.
    assert (Hskip : skip_of (with_page options p) = ((p - 1) * m)%Z).
    { apply (@skip_of_exact (with_page options p));
        change (maxLimit_of (with_page options p)) with m;
        change (default (o_page (with_page options p)) 1%Z) with p;
        unfold Double.MAX_SAFE_INTEGER; lia. }
    unfold getPosts, findMany. cbv zeta. rewrite Hskip.
    change (maxLimit_of (with_page options p)) with m.
    rewrite window_nonneg by nia. cbn [items_of items].
    unfold full_listing. now rewrite skipn_map, firstn_map.
Qed.

(** X4.  On a table with fewer than [2^53] rows of the requested status
    and for a limit of at least 1, a reader who fetches the pages 1 to [k]
    one after the other gets the first [k * min(limit, 50)] posts of the
    full ordered listing, each once and in order; with enough pages to
    cover [total], the reader gets the whole listing. *)
Theorem X4_pages_cover_the_listing (options : GetPostsOptions) (k : nat)
  (s : Store) :
  (1 <= default (o_limit options) 10)%Z ->
  (count (where_of options) s <= Double.MAX_SAFE_INTEGER)%Z ->
  fetch_pages options k s
  = firstn (k * Z.to_nat (maxLimit_of options)) (full_listing options s)
  /\ ((count (where_of options) s <= Z.of_nat k * maxLimit_of options)%Z ->
      fetch_pages options k s = full_listing options s).
Proof.
  intros Hl Hsize.
  assert (Hmax : (1 <= maxLimit_of options)%Z) by (unfold maxLimit_of; lia).
  assert (Hfetch : fetch_pages options k s
                   = firstn (k * Z.to_nat (maxLimit_of options))
                       (full_listing options s)).
  { unfold fetch_pages. induction k as [|k IH]; [reflexivity|].
    rewrite seq_S, flat_map_app, IH. cbn [flat_map].
    rewrite getPosts_items by lia. rewrite app_nil_r.
    replace (Z.to_nat ((Z.of_nat (1 + k) - 1) * maxLimit_of options))
      with (k * Z.to_nat (maxLimit_of options))%nat by nia.
    rewrite <- firstn_add. f_equal. lia. }
  split; [exact Hfetch|].
  intros Hcover. rewrite Hfetch. apply firstn_all2.
  pose proof (full_listing_length options s). nia.
Qed.

Lemma X4_pages_cover_the_listing_witness :
  fetch_pages page3 3 (sample_store 25 5) = full_listing page3 (sample_store 25 5)
  /\ length (fetch_pages page3 3 (sample_store 25 5)) = 25%nat.
Proof.
  destruct (@X4_pages_cover_the_listing page3 3 (sample_store 25 5)) as [_ H];
    [simpl; lia | vm_compute; discriminate |].
  rewrite H by (vm_compute; discriminate).
  split; [reflexivity | vm_compute; reflexivity].
Defined.

(** X5.  For a page and a limit of at least 1 such that the offset of the
    page after the next is a safe integer, [getPosts] returns for the page
    and for the next one, and [hasMore] is true exactly when the next page
    has an item. *)
Theorem X5_hasMore_iff_next_page (options : GetPostsOptions) (s : Store) :
  (1 <= default (o_page options) 1)%Z ->
  (1 <= default (o_limit options) 10)%Z ->
  ((default (o_page options) 1 + 1) * maxLimit_of options
   <= Double.MAX_SAFE_INTEGER)%Z ->
  exists r r',
    getPosts options s = Ok r
    /\ getPosts (with_page options (default (o_page options) 1 + 1)%Z) s = Ok r'
    /\ (hasMore r = true <-> items r' <> []).
Proof.
  intros Hp Hl Hsafe.
  assert (Hmax : (1 <= maxLimit_of options)%Z) by (unfold maxLimit_of; lia).
  rewrite getPosts_returns by nia. rewrite getPosts_page by lia.
  eexists. eexists. split; [reflexivity|]. split; [reflexivity|].
  cbn [hasMore items].
  set (l := full_listing options s).
  pose proof (full_listing_length options s) as Hlen. fold l in Hlen.
  rewrite <- Hlen.
  set (m := maxLimit_of options) in *.
  set (p := default (o_page options) 1%Z) in *.
  replace ((p + 1 - 1) * m)%Z with (p * m)%Z by lia.
  assert (Hnonempty : firstn (Z.to_nat m) (skipn (Z.to_nat (p * m)) l) <> []
                      <-> (p * m < Z.of_nat (length l))%Z).
  { rewrite <- length_zero_iff_nil, length_firstn, length_skipn. nia. }
  rewrite Hnonempty, Z.ltb_lt. nia.
Qed.

Lemma X5_hasMore_iff_next_page_witness :
  exists r r',
    getPosts page3 (sample_store 25 5) = Ok r
    /\ getPosts (with_page page3 4%Z) (sample_store 25 5) = Ok r'
    /\ hasMore r = false /\ items r' = [].
Proof.
  destruct (@X5_hasMore_iff_next_page page3 (sample_store 25 5))
    as (r & r' & Hr & Hr' & Hiff);
    [simpl; lia | simpl; lia | vm_compute; discriminate |].
  exists r, r'. split; [exact Hr|]. split; [exact Hr'|].
  assert (Hm : hasMore r = false).
  { revert Hr. vm_compute. intros [= <-]. reflexivity. }
  split; [exact Hm|].
  destruct (items r') as [|x t] eqn:E; [reflexivity|].
  exfalso. rewrite Hm in Hiff. destruct Hiff as [_ H].
  discriminate H. discriminate.
Defined.

End OrderFacts.

(** ** More on writing *)

Module CrudFacts.

Import JSFacts JSONFacts StoreFacts QueryFacts WriteFacts.

Section WithRenderer.

Variable marked : jsstring -> jsstring.

Lemma createPost_taken (now : Date) (data : CreatePostData) (s : Store) :
  In (slug_of data) (slugs s) ->
  createPost marked now data s = (Err UniqueConstraintFailed, s).
Proof.
  intros H. apply slug_taken_iff in H. unfold createPost, Prisma.create.
  change (ci_slug (create_input marked now data)) with (slug_of data).
  now rewrite H.
Qed.

Lemma createPost_free (now : Date) (data : CreatePostData) (s : Store) :
  ~ In (slug_of data) (slugs s) ->
  createPost marked now data s
  = (Ok (toPostWithTags (new_row (next_id s) now (create_input marked now data))),
     {| rows := rows s ++ [new_row (next_id s) now (create_input marked now data)];
        next_id := next_id s + 1 |}).
Proof.
  intros H. unfold createPost, Prisma.create.
  change (ci_slug (create_input marked now data)) with (slug_of data).
  replace (slug_taken (slug_of data) s) with false; [reflexivity|].
  symmetry. apply not_true_iff_false. now rewrite slug_taken_iff.
Qed.

End WithRenderer.

(** X6.  [createPost] on a payload whose slug (given, or derived from the
    title) is already that of a post fails with the unique-constraint
    error, the admin route answers 409, and the store is left as it
    was. *)
Theorem X6_create_conflict (marked : jsstring -> jsstring)
  (cause : PrismaError -> jsstring) (now : Date)
  (data : CreatePostData) (s : Store) :
  In (slug_of data) (slugs s) ->
  createPost marked now data s = (Err UniqueConstraintFailed, s)
  /\ admin_create marked cause now data s = (Refused 409, s).
Proof.
  intros H. unfold admin_create. now rewrite createPost_taken.
Qed.

Lemma X6_create_conflict_witness :
  createPost sample_marked 9%Z (sample_data 1 DRAFT) (sample_store 2 0)
  = (Err UniqueConstraintFailed, sample_store 2 0)
  /\ admin_create sample_marked (fun _ => []) 9%Z (sample_data 1 DRAFT)
       (sample_store 2 0)
     = (Refused 409, sample_store 2 0).
Proof.
  apply X6_create_conflict. vm_compute. right. left. reflexivity.
Defined.

(** X7.  [createPost] on a payload whose slug no post has succeeds (201
    on the admin route): the new row is appended with a fresh id and the
    fields of the payload, it is what [getPostById] and [getPostBySlug]
    then return, and a second [createPost] of the same payload fails with
    the unique-constraint error. *)
Theorem X7_create_then_lookup (marked : jsstring -> jsstring)
  (cause : PrismaError -> jsstring) (now later : Date)
  (data : CreatePostData) (s : Store) :
  wf s -> ~ In (slug_of data) (slugs s) ->
  exists row s',
    createPost marked now data s = (Ok (toPostWithTags row), s')
    /\ admin_create marked cause now data s = (Sent 201 (toPostWithTags row), s')
    /\ rows s' = rows s ++ [row]
    /\ id row = next_id s /\ ~ In (id row) (ids s)
    /\ slug row = slug_of data /\ createdAt row = now
    /\ carries marked now data None (toPostWithTags row)
    /\ getPostById (id row) s' = Some (toPostWithTags row)
    /\ getPostBySlug (slug_of data) s' = Some (toPostWithTags row)
    /\ createPost marked later data s' = (Err UniqueConstraintFailed, s').
Proof.
  intros Hwf Hfree.
  pose proof (wf_createPost marked now data Hwf) as Hwf'.
  unfold admin_create. rewrite createPost_free in * by exact Hfree.
  simpl in Hwf'.
  set (row := new_row (next_id s) now (create_input marked now data)) in *.
  set (s' := {| rows := rows s ++ [row]; next_id := next_id s + 1 |}) in *.
  assert (Hin : In row (rows s')) by (simpl; apply in_or_app; right; now left).
  exists row, s'. repeat (split; [reflexivity|]).
  split.
  { intros Hi. apply in_map_iff in Hi as (q & Hq & Hi).
    pose proof (wf_fresh Hwf) as Hfr. rewrite Forall_forall in Hfr.
    apply Hfr in Hi. simpl in Hq. lia. }
  split; [reflexivity|]. split; [reflexivity|].
  split; [apply carries_new_row|].
  split; [unfold getPostById; now rewrite (@find_id_in s' row (wf_ids Hwf') Hin)|].
  split.
  { unfold getPostBySlug.
    change (slug_of data) with (slug row).
    now rewrite (@find_slug_in s' row (wf_slugs Hwf') Hin). }
  apply createPost_taken. unfold slugs. simpl. rewrite map_app.
  apply in_or_app. right. now left.
Qed.

Lemma X7_create_then_lookup_witness :
  exists row s',
    createPost sample_marked 9%Z (sample_data 5 DRAFT) (sample_store 2 0)
    = (Ok (toPostWithTags row), s')
    /\ id row = 2 /\ slug row = units "post-05"
    /\ getPostBySlug (units "post-05") s' = Some (toPostWithTags row).
Proof.
  destruct (@X7_create_then_lookup sample_marked (fun _ => []) 9%Z 10%Z
              (sample_data 5 DRAFT) (sample_store 2 0) (wf_sample_store 2 0))
    as (row & s' & H1 & _ & _ & H2 & _ & H3 & _ & _ & _ & H4 & _).
  - vm_compute. intros [H|[H|[]]]; discriminate H.
  - exists row, s'. auto.
Defined.

(** X8.  When no post has the slug of the payload, [upsertPostBySlug]
    does what [createPost] does: the same answer and the same store. *)
Theorem X8_upsert_of_new_slug_is_create (marked : jsstring -> jsstring)
  (now : Date) (data : CreatePostData) (s : Store) :
  ~ In (slug_of data) (slugs s) ->
  upsertPostBySlug marked now data s = createPost marked now data s.
Proof.
  intros H. apply find_slug_none in H.
  unfold upsertPostBySlug, Prisma.upsert, createPost. now rewrite H.
Qed.

Lemma X8_upsert_of_new_slug_is_create_witness :
  upsertPostBySlug sample_marked 9%Z (sample_data 5 DRAFT) (sample_store 2 0)
  = createPost sample_marked 9%Z (sample_data 5 DRAFT) (sample_store 2 0).
Proof.
  apply X8_upsert_of_new_slug_is_create.
  vm_compute. intros [H|[H|[]]]; discriminate H.
Defined.


(** *** Update *)






(** A body without any field changes nothing, the time of the last update
    included. *)
Example empty_update_keeps_updatedAt :
  updatePost sample_marked 9%Z 1 no_fields (sample_store 2 0)
  = (Ok (toPostWithTags (sample_row 1 PUBLISHED)), sample_store 2 0)
  /\ updatedAt (sample_row 1 PUBLISHED) = 1%Z.
Proof. split; reflexivity. Qed.

(** X10.  What [updatePost] stores as content, for an update that
    succeeds.  With neither content field in the payload both stay.  A
    non-empty [contentMarkdown] without [contentHtml] is stored and its
    HTML is derived again by the renderer.  A non-empty [contentHtml] is
    stored as given.  An empty [contentMarkdown] is stored as the empty
    text, and no HTML is derived from it. *)
Theorem X10_update_content (marked : jsstring -> jsstring) (now : Date)
  (i : PostId) (data : UpdatePostData) (s s' : Store) (old : Post)
  (post : PostWithTags) :
  findUnique_id i s = Some old ->
  updatePost marked now i data s = (Ok post, s') ->
  (up_contentMarkdown data = None -> up_contentHtml data = None ->
   contentMarkdown post = contentMarkdown old
   /\ contentHtml post = contentHtml old)
  /\ (forall md, up_contentMarkdown data = Some md -> md <> [] ->
      given (up_contentHtml data) = false ->
      contentMarkdown post = md /\ contentHtml post = Some (marked md))
  /\ (forall html, up_contentHtml data = Some html -> html <> [] ->
      contentHtml post = Some html)
  /\ (up_contentMarkdown data = Some [] ->
      contentMarkdown post = []
      /\ contentHtml post = set_nullable (up_contentHtml data) (contentHtml old)).
Proof.
  intros Hf Hu. unfold updatePost, Prisma.update in Hu. rewrite Hf in Hu.
  destruct (slug_taken_by_other _ i s); [discriminate|].
  injection Hu as <- <-.
  cbn [toPostWithTags contentMarkdown contentHtml apply_update update_input
       ui_contentMarkdown ui_contentHtml].
  split; [|split; [|split]].
  - intros -> ->. split; reflexivity.
  - intros md -> Hne Hh. rewrite processContent_markdown by assumption.
    split; reflexivity.
  - intros html -> Hne. rewrite processContent_html by assumption. reflexivity.
  - intros ->. split; [reflexivity|].
    unfold processContent. cbn [given truthy andb].
    destruct (up_contentHtml data) as [[|c h]|]; reflexivity.
Qed.


Lemma X10_update_content_witness :
  exists post s',
    updatePost sample_marked 9%Z 1 markdown_update (sample_store 2 0) = (Ok post, s')
    /\ contentMarkdown post = units "# New"
    /\ contentHtml post = Some (units "<p># New</p>").
Proof.
  eexists. eexists. split; [reflexivity|].
  apply (proj1 (proj2 (@X10_update_content sample_marked 9%Z 1 markdown_update
                         (sample_store 2 0) _ (sample_row 1 PUBLISHED) _
                         eq_refl eq_refl))
           (units "# New") eq_refl); [discriminate | reflexivity].
Defined.

(** X11.  [updatePost] with a slug that another post has fails with the
    unique-constraint error, the admin route answers 409, and the store is
    left as it was. *)
Theorem X11_update_slug_conflict (marked : jsstring -> jsstring)
  (cause : PrismaError -> jsstring) (now : Date)
  (i : PostId) (data : UpdatePostData) (s : Store) (old other : Post)
  (sl : jsstring) :
  findUnique_id i s = Some old ->
  up_slug data = Some sl ->
  In other (rows s) -> slug other = sl -> id other <> i ->
  updatePost marked now i data s = (Err UniqueConstraintFailed, s)
  /\ admin_update marked cause now i data s = (Failure 409, s).
Proof.
  intros Hf Hsl Hin Hs Hne.
  assert (Hu : updatePost marked now i data s = (Err UniqueConstraintFailed, s)).
  { unfold updatePost, Prisma.update. rewrite Hf.
    replace (slug_taken_by_other _ i s) with true; [reflexivity|].
    symmetry. unfold slug_taken_by_other. apply existsb_exists.
    exists other. split; [exact Hin|].
    cbn [apply_update slug update_input ui_slug]. rewrite Hsl. cbn [Prisma.set].
    apply andb_true_iff. split; [now apply eqb_eq|].
    now apply negb_true_iff, N.eqb_neq. }
  split; [exact Hu|]. unfold admin_update. now rewrite Hu.
Qed.

Lemma X11_update_slug_conflict_witness :
  updatePost sample_marked 9%Z 1 slug_update (sample_store 2 0)
  = (Err UniqueConstraintFailed, sample_store 2 0)
  /\ admin_update sample_marked (fun _ => []) 9%Z 1 slug_update (sample_store 2 0)
     = (Failure 409, sample_store 2 0).
Proof.
  apply (@X11_update_slug_conflict sample_marked (fun _ => []) 9%Z 1 slug_update
           (sample_store 2 0)
           (sample_row 1 PUBLISHED) (sample_row 0 PUBLISHED) (units "post-00"));
    try reflexivity.
  - left. reflexivity.
  - discriminate.
Defined.

(** *** Delete *)

Lemma filter_other_ids_length (i : PostId) (l : list Post) :
  NoDup (map (@id jsstring) l) -> In i (map (@id jsstring) l) ->
  S (length (filter (fun p : Post => negb (id p =? i)) l)) = length l.
Proof.
  induction l as [|q r IH]; simpl; [intros _ []|].
  intros Hnd Hin. inversion Hnd as [|? ? Hq Hr]; subst.
  destruct (N.eqb_spec (id q) i) as [E|E]; simpl.
  - f_equal. clear IH Hin Hnd Hr. subst i.
    induction r as [|x r IH]; [reflexivity|]. simpl.
    destruct (N.eqb_spec (id x) (id q)) as [E|E]; simpl.
    + exfalso. apply Hq. left. exact E.
    + f_equal. apply IH. intros H. apply Hq. now right.
  - f_equal. apply IH; [exact Hr|]. destruct Hin; [contradiction | assumption].
Qed.

(** X12.  [deletePost] of an existing post succeeds and removes that row
    and no other: the table has one row fewer, the post is no longer
    found by its id or its slug, every other post is still there, a second
    delete fails as not found, and the slug can be used by a new post. *)
Theorem X12_delete_removes_one_row (marked : jsstring -> jsstring)
  (cause : PrismaError -> jsstring) (now : Date)
  (i : PostId) (data : CreatePostData) (s : Store) (old : Post) :
  wf s -> findUnique_id i s = Some old ->
  exists s',
    deletePost i s = (Ok tt, s')
    /\ admin_delete cause i s = (Success tt, s')
    /\ S (length (rows s')) = length (rows s)
    /\ getPostById i s' = None
    /\ getPostBySlug (slug old) s' = None
    /\ (forall q, In q (rows s') <-> In q (rows s) /\ id q <> i)
    /\ deletePost i s' = (Err RecordToDeleteDoesNotExist, s')
    /\ (slug_of data = slug old ->
        exists post s'', createPost marked now data s' = (Ok post, s'')).
Proof.
  intros Hwf Hf.
  assert (Hd : deletePost i s
               = (Ok tt, {| rows := filter (fun p : Post => negb (id p =? i)) (rows s);
                            next_id := next_id s |})).
  { unfold deletePost, Prisma.delete. now rewrite Hf. }
  set (s' := {| rows := filter (fun p : Post => negb (id p =? i)) (rows s);
                next_id := next_id s |}) in *.
  apply find_id_some in Hf as [Hin Hid].
  assert (Hrows : forall q, In q (rows s') <-> In q (rows s) /\ id q <> i).
  { intros q. simpl. rewrite filter_In, negb_true_iff, N.eqb_neq. reflexivity. }
  assert (Hgone : ~ In i (ids s')).
  { intros H. apply in_map_iff in H as (q & Hq & H). apply Hrows in H. tauto. }
  assert (Hslug : ~ In (slug old) (slugs s')).
  { intros H. apply in_map_iff in H as (q & Hq & H). apply Hrows in H as [H Hne].
    apply Hne. rewrite <- Hid. f_equal.
    eapply NoDup_map_eq; [apply (wf_slugs Hwf) | | |]; eauto. }
  exists s'. split; [exact Hd|].
  split; [unfold admin_delete; now rewrite Hd|].
  split.
  { simpl. apply filter_other_ids_length; [apply (wf_ids Hwf)|].
    rewrite <- Hid. now apply in_map. }
  split; [unfold getPostById; now rewrite (proj2 (find_id_none i s') Hgone)|].
  split; [unfold getPostBySlug; now rewrite (proj2 (find_slug_none _ s') Hslug)|].
  split; [exact Hrows|].
  split.
  { unfold deletePost, Prisma.delete. now rewrite (proj2 (find_id_none i s') Hgone). }
  intros Hsl. rewrite createPost_free by now rewrite Hsl.
  eexists. eexists. reflexivity.
Qed.

Lemma X12_delete_removes_one_row_witness :
  exists s',
    deletePost 1 (sample_store 3 0) = (Ok tt, s')
    /\ length (rows s') = 2%nat
    /\ getPostBySlug (units "post-01") s' = None
    /\ exists post s'',
         createPost sample_marked 9%Z (sample_data 1 DRAFT) s' = (Ok post, s'').
Proof.
  destruct (@X12_delete_removes_one_row sample_marked (fun _ => []) 9%Z 1
              (sample_data 1 DRAFT) (sample_store 3 0) (sample_row 1 PUBLISHED)
              (wf_sample_store 3 0) eq_refl)
    as (s' & H1 & _ & H2 & _ & H3 & _ & _ & H4).
  exists s'. split; [exact H1|].
  split; [simpl in H2; now injection H2|].
  split; [exact H3|]. apply H4. reflexivity.
Defined.

End CrudFacts.

(** ** Upsert, the webhook and the admin views *)

Module RouteFacts.

Import JSFacts JSONFacts StoreFacts QueryFacts ListingFacts WriteFacts
  AuthFacts OrderFacts CrudFacts.

Lemma processContent_nothing marked (md html : option jsstring) :
  given md = false -> given html = false ->
  snd (processContent marked md html) = None.
Proof. intros Hm Hh. unfold processContent. now rewrite Hm, Hh. Qed.

(** X13.  What [upsertPostBySlug] does to an existing post with the
    fields that the payload omits: [tags] become empty, [author] becomes
    the site name, [status] becomes [PUBLISHED], [publishedAt] the time of
    the call and [contentMarkdown] the empty text; [summary], [imageUrl],
    [sourceUrl] and (without any content in the payload) [contentHtml]
    keep the values the post had. *)
Theorem X13_upsert_omitted_fields (marked : jsstring -> jsstring) (now : Date)
  (data : CreatePostData) (s : Store) (old : Post) :
  wf s -> findUnique_slug (slug_of data) s = Some old ->
  exists row s',
    upsertPostBySlug marked now data s = (Ok (toPostWithTags row), s')
    /\ findUnique_slug (slug_of data) s' = Some row
    /\ (cp_tags data = None -> tags (toPostWithTags row) = JSON.of_strings [])
    /\ (cp_author data = None -> author row = SITE_AUTHOR)
    /\ (cp_status data = None -> status row = PUBLISHED)
    /\ (cp_publishedAt data = None -> publishedAt row = now)
    /\ (cp_contentMarkdown data = None -> contentMarkdown row = [])
    /\ (cp_summary data = None -> summary row = summary old)
    /\ (cp_imageUrl data = None -> imageUrl row = imageUrl old)
    /\ (cp_sourceUrl data = None -> sourceUrl row = sourceUrl old)
    /\ (given (cp_contentMarkdown data) = false ->
        given (cp_contentHtml data) = false ->
        contentHtml row = contentHtml old).
Proof.
  intros Hwf Hf.
  destruct (upsert_result marked now data Hwf)
    as (row & s' & Hu & Hwf' & Hin & Hsl & _ & Hold).
  destruct (Hold old Hf) as (Hrow & _ & _).
  exists row, s'. split; [exact Hu|].
  split; [rewrite <- Hsl; apply find_slug_in; [apply Hwf' | exact Hin]|].
  rewrite Hrow.
  cbn [toPostWithTags tags author status publishedAt contentMarkdown summary
       imageUrl sourceUrl contentHtml apply_update upsert_update_input
       ui_tags ui_author ui_status ui_publishedAt ui_contentMarkdown
       ui_summary ui_imageUrl ui_sourceUrl ui_contentHtml Prisma.set].
  repeat split; try (intros ->; reflexivity).
  intros Hmd Hh. now rewrite processContent_nothing.
Qed.

Lemma X13_upsert_omitted_fields_witness :
  exists row s',
    upsertPostBySlug sample_marked 50%Z
      (webhook_data (bare_payload (units "Post 01"))) (sample_store 2 1)
    = (Ok (toPostWithTags row), s')
    /\ tags (toPostWithTags row) = JSON.of_strings []
    /\ contentMarkdown row = []
    /\ contentHtml row = Some (units "<p># Hi</p>").
Proof.
  destruct (@X13_upsert_omitted_fields sample_marked 50%Z
              (webhook_data (bare_payload (units "Post 01"))) (sample_store 2 1)
              (sample_row 1 PUBLISHED) (wf_sample_store 2 1) eq_refl)
    as (row & s' & H1 & _ & H2 & _ & _ & _ & H3 & _ & _ & _ & H4).
  exists row, s'. split; [exact H1|]. split; [now apply H2|].
  split; [now apply H3|]. now rewrite H4.
Defined.

(** X14.  The webhook, on a table that satisfies the invariant, always
    answers with the id and the slug of a post that is now [PUBLISHED],
    has the title of the payload and the site name as author, and, when
    its slug is not empty, is what the public route then serves under that
    slug: also when the slug was that of a draft.  (A title without ASCII
    letters, digits, white space and hyphens has the empty slug, which no
    request to [/posts/:slug] can name.) *)
Theorem X14_webhook_publishes (marked : jsstring -> jsstring) (now : Date)
  (payload : WebhookPayload) (s : Store) :
  wf s ->
  exists row s',
    webhook marked now payload s = (Sent 200 (id row, slug row), s')
    /\ wf s'
    /\ slug row = slug_of (webhook_data payload)
    /\ title row = wh_title payload
    /\ status row = PUBLISHED
    /\ author row = SITE_AUTHOR
    /\ (slug row <> [] ->
        public_post (slug row) s' = Success (toPostWithTags row)).
Proof.
  intros Hwf.
  destruct (upsert_result marked now (webhook_data payload) Hwf)
    as (row & s' & Hu & Hwf' & Hin & Hsl & Hc & _).
  destruct Hc as (Ht & _ & _ & _ & Ha & _ & Hst & _).
  cbn [toPostWithTags title author status] in Ht, Ha, Hst.
  exists row, s'. unfold webhook. rewrite Hu.
  split; [reflexivity|]. split; [exact Hwf'|]. split; [exact Hsl|].
  split; [exact Ht|]. split; [exact Hst|]. split; [exact Ha|].
  intros _. unfold public_post, getPostBySlug.
  rewrite (@find_slug_in s' row (wf_slugs Hwf') Hin).
  cbn [option_map toPostWithTags status]. now rewrite Hst.
Qed.

Lemma X14_webhook_publishes_witness :
  exists row s',
    webhook sample_marked 50%Z (bare_payload (units "Post 02")) (sample_store 2 1)
    = (Sent 200 (id row, slug row), s')
    /\ id row = 2 /\ slug row = units "post-02" /\ status row = PUBLISHED
    /\ public_post (units "post-02") (sample_store 2 1) = Failure 404
    /\ public_post (units "post-02") s' = Success (toPostWithTags row).
Proof.
  destruct (@X14_webhook_publishes sample_marked 50%Z (bare_payload (units "Post 02"))
              (sample_store 2 1) (wf_sample_store 2 1))
    as (row & s' & H1 & _ & H2 & _ & H3 & _ & H4).
  exists row, s'. split; [exact H1|].
  assert (Hid : id row = 2).
  { revert H1. vm_compute. intros [= H _]. symmetry. exact H. }
  split; [exact Hid|]. split; [exact H2|]. split; [exact H3|].
  split; [reflexivity|]. rewrite <- H4; [f_equal; exact (eq_sym H2)|].
  rewrite H2. discriminate.
Defined.

(** A title in another script has the empty slug. *)
Example webhook_empty_slug :
  fst (webhook sample_marked 50%Z (bare_payload [0x4F60; 0x597D]) empty_store)
  = Sent 200 (0, []).
Proof. reflexivity. Qed.


(** *** The admin views *)

Lemma getPosts_where_inv (w : WhereInput) (options : GetPostsOptions)
  (s : Store) (r : PaginatedPosts) :
  getPosts_where w options s = Ok r ->
  exists posts,
    findMany w (skip_of options) (maxLimit_of options)
      (default (o_orderBy options) ByPublishedAt)
      (default (o_order options) Desc) s = Ok posts
    /\ items r = map toPostWithTags posts
    /\ total r = count w s.
Proof.
  unfold getPosts_where. destruct (findMany _ _ _ _ _ _) as [posts|] eqn:E;
    [|discriminate].
  intros [= <-]. exists posts. simpl. auto.
Qed.

Lemma getPosts_is_where (options : GetPostsOptions) (s : Store) :
  getPosts options s = getPosts_where (where_of options) options s.
Proof. reflexivity. Qed.

Lemma toPostWithTags_status (st : PostStatus) (l : list Post) :
  Forall (fun p => matches (Some st) p = true) l ->
  Forall (fun p : PostWithTags => status p = st) (map toPostWithTags l).
Proof.
  intros H. apply Forall_map. eapply Forall_impl; [|exact H].
  intros p Hp. simpl in *. now apply status_eqb_eq.
Qed.

Lemma filter_no_condition (l : list Post) : filter (matches None) l = l.
Proof. induction l as [|p l IH]; simpl; congruence. Qed.

(** X15.  The admin listing filters by status like the public one does:
    without a [status] parameter it lists [PUBLISHED] posts only, with
    [status=DRAFT] or [status=PUBLISHED] the posts of that status only;
    every draft appears in it only when the parameter is the empty text,
    for which [total] counts all the rows of the table. *)
Theorem X15_admin_listing_by_status (q : AdminListQuery) (s : Store) :
  (aq_status q = StatusAbsent ->
   Forall published (listing_posts (admin_posts q s)))
  /\ (forall st, aq_status q = StatusNamed st ->
      Forall (fun p : PostWithTags => status p = st)
        (listing_posts (admin_posts q s)))
  /\ (aq_status q = StatusEmpty ->
      forall r, admin_posts q s = Success r ->
      total r = Z.of_nat (length (rows s)))
  /\ (aq_status q = StatusOther -> admin_posts q s = Failure 500).
Proof.
  unfold admin_posts.
  split; [|split; [|split]].
  - intros ->. destruct (aq_orderBy q), (aq_order q); simpl; try constructor;
      match goal with
      | |- context [getPosts ?o s] =>
          destruct (getPosts o s) as [r|] eqn:E; simpl; [|constructor];
          apply getPosts_inv in E as (posts & Hf & Hi & _);
          rewrite Hi; apply toPostWithTags_published;
          apply findMany_matches in Hf; exact Hf
      end.
  - intros st ->. destruct (aq_orderBy q), (aq_order q); simpl; try constructor;
      match goal with
      | |- context [getPosts ?o s] =>
          destruct (getPosts o s) as [r|] eqn:E; simpl; [|constructor];
          apply getPosts_inv in E as (posts & Hf & Hi & _);
          rewrite Hi; apply toPostWithTags_status;
          apply findMany_matches in Hf; rewrite where_of_status in Hf;
          exact Hf
      end.
  - intros -> r. destruct (aq_orderBy q), (aq_order q); try discriminate;
      match goal with
      | |- context [getPosts_where None ?o s] =>
          destruct (getPosts_where None o s) as [r0|] eqn:E; [|discriminate];
          intros [= <-]; apply getPosts_where_inv in E as (posts & _ & _ & Ht);
          rewrite Ht; unfold count; simpl;
          now rewrite filter_no_condition
      end.
  - intros ->. now destruct (aq_orderBy q), (aq_order q).
Qed.

(** X16.  A stored post is always served to the admin by its id,
    whatever its status, while the public route serves it under its slug
    only when it is [PUBLISHED] and answers 404 for a draft; both answer 404
    for a key that no post has. *)
Theorem X16_drafts_are_admin_only (s : Store) (row : Post) :
  wf s -> In row (rows s) ->
  admin_post (id row) s = Success (toPostWithTags row)
  /\ (status row = PUBLISHED ->
      public_post (slug row) s = Success (toPostWithTags row))
  /\ (status row = DRAFT -> public_post (slug row) s = Failure 404)
  /\ (forall i, ~ In i (ids s) -> admin_post i s = Failure 404)
  /\ (forall sl, ~ In sl (slugs s) -> public_post sl s = Failure 404).
Proof.
  intros Hwf Hin. unfold admin_post, public_post, getPostById, getPostBySlug.
  rewrite (@find_id_in s row (wf_ids Hwf) Hin).
  rewrite (@find_slug_in s row (wf_slugs Hwf) Hin).
  cbn [option_map toPostWithTags status].
  split; [reflexivity|]. split; [now intros ->|]. split; [now intros ->|].
  split.
  - intros i Hi. now rewrite (proj2 (find_id_none i s) Hi).
  - intros sl Hsl. now rewrite (proj2 (find_slug_none sl s) Hsl).
Qed.

Lemma X16_drafts_are_admin_only_witness :
  admin_post 2 (sample_store 2 1) = Success (toPostWithTags (sample_row 2 DRAFT))
  /\ public_post (units "post-02") (sample_store 2 1) = Failure 404.
Proof.
  destruct (@X16_drafts_are_admin_only (sample_store 2 1) (sample_row 2 DRAFT)
              (wf_sample_store 2 1)) as (H1 & _ & H2 & _).
  - right. right. left. reflexivity.
  - split; [exact H1 | now apply H2].
Defined.


Example admin_listing_hides_drafts :
  option_map (@total)
    (match admin_posts {| aq_page := None; aq_limit := None;
                          aq_status := StatusAbsent; aq_orderBy := Missing;
                          aq_order := Missing |} (sample_store 2 1) with
     | Success r => Some r
     | Failure _ => None
     end) = Some 2%Z.
Proof. reflexivity. Qed.

(** *** The items of the feed *)

Lemma NoDup_map_filter {A B} (f : A -> B) (g : A -> bool) (l : list A) :
  NoDup (map f l) -> NoDup (map f (filter g l)).
Proof.
  induction l as [|a l IH]; simpl; [constructor|].
  intros H. inversion H as [|? ? Ha Hl]; subst.
  destruct (g a); simpl; [|auto].
  constructor; [|auto]. intros Hin. apply Ha.
  apply in_map_iff in Hin as (x & Hx & Hin). apply filter_In in Hin as [Hin _].
  rewrite <- Hx. now apply in_map.
Qed.

(** The rows that [findMany] returns are distinct rows of the table. *)
Lemma findMany_NoDup {B} (key : Post -> B) (w : WhereInput) (skip take : Z)
  (f : OrderField) (o : SortOrder) (s : Store) (out : list Post) :
  NoDup (map key (rows s)) ->
  findMany w skip take f o s = Ok out -> NoDup (map key out).
Proof.
  intros Hnd H. unfold findMany in H. cbv zeta in H.
  assert (Hall : forall o', NoDup (map key (order_rows f o'
                                             (filter (matches w) (rows s))))).
  { intros o'. eapply Permutation_NoDup.
    - apply Permutation_map. symmetry. apply order_rows_perm.
    - now apply NoDup_map_filter. }
  apply window_segment in H as [(a & b & H)|(a & b & H)].
  - specialize (Hall o). rewrite H, !map_app in Hall.
    apply NoDup_app_remove_l in Hall. now apply NoDup_app_remove_r in Hall.
  - specialize (Hall (opposite o)). rewrite H, !map_app in Hall.
    apply NoDup_app_remove_l in Hall. apply NoDup_app_remove_r in Hall.
    rewrite map_rev in Hall. apply NoDup_rev in Hall.
    now rewrite rev_involutive in Hall.
Qed.

Lemma findMany_in (w : WhereInput) (skip take : Z) (f : OrderField)
  (o : SortOrder) (s : Store) (out : list Post) (p : Post) :
  findMany w skip take f o s = Ok out -> In p out -> In p (rows s).
Proof.
  intros H Hin. unfold findMany in H. cbv zeta in H.
  apply window_segment in H as [(a & b & H)|(a & b & H)].
  - assert (Hp : In p (order_rows f o (filter (matches w) (rows s)))).
    { rewrite H. apply in_or_app. right. apply in_or_app. now left. }
    apply (Permutation_in _ (order_rows_perm f o _)) in Hp.
    now apply filter_In in Hp.
  - assert (Hp : In p (order_rows f (opposite o) (filter (matches w) (rows s)))).
    { rewrite H. apply in_or_app. right. apply in_or_app. left.
      now apply in_rev in Hin. }
    apply (Permutation_in _ (order_rows_perm f (opposite o) _)) in Hp.
    now apply filter_In in Hp.
Qed.

Lemma sorted_by_map_gen {A B} (le : A -> A -> bool) (le' : B -> B -> bool)
  (g : A -> B) (l : list A) :
  (forall a b, le' (g a) (g b) = le a b) ->
  sorted_by le' (map g l) = sorted_by le l.
Proof.
  intros H. induction l as [|p l IH]; [reflexivity|].
  destruct l as [|q r]; [reflexivity|].
  change (sorted_by le' (map g (p :: q :: r)))
    with (le' (g p) (g q) && sorted_by le' (map g (q :: r))).
  rewrite IH, H. reflexivity.
Qed.

(** The feed query goes through for every limit that is a 64-bit
    integer: the cap of 100 sees to the upper end. *)
Lemma rss_returns (parsed_limit : option Z) (s : Store) :
  (forall n, parsed_limit = Some n -> (- 2 ^ 63 <= n)%Z) ->
  exists posts,
    findMany (Some PUBLISHED) 0 (rss_limit parsed_limit) ByPublishedAt Desc s
    = Ok posts.
Proof.
  intros Hn. unfold findMany, window. cbv zeta.
  assert (Hlim : (- 2 ^ 63 <= rss_limit parsed_limit < 2 ^ 63)%Z).
  { unfold rss_limit, int_or. destruct parsed_limit as [n|]; [|lia].
    specialize (Hn n eq_refl). destruct (n =? 0)%Z; lia. }
  rewrite (proj2 (in_int64_iff (rss_limit parsed_limit)) Hlim).
  change (in_int64 0) with true. cbn [andb negb Z.ltb Z.compare].
  destruct (0 <=? rss_limit parsed_limit)%Z; eexists; reflexivity.
Qed.

(** A limit below every 64-bit integer makes the query fail, and the route
    answers 500. *)
Lemma rss_out_of_range (n : Z) (s : Store) :
  (n < - 2 ^ 63)%Z -> rss_feed (Some n) s = Failure 500.
Proof.
  intros Hn. unfold rss_feed, getPublishedPostsForRSS, findMany. cbv zeta.
  cbn [default]. rewrite window_out_of_range; [reflexivity|]. right.
  unfold rss_limit, int_or. destruct (Z.eqb_spec n 0); lia.
Qed.

(** X17.  For a limit that is a 64-bit integer, or none, the RSS route
    answers with a feed.  On a table that satisfies the invariant its
    items have pairwise different guids and pairwise different urls, they
    stand newest first, and each one is made from a [PUBLISHED] row of the
    table: its guid is the id of the row and its url is the site address,
    [/blog/] and the slug of the row. *)
Theorem X17_feed_items (site : option jsstring) (parsed_limit : option Z)
  (s : Store) :
  wf s ->
  (forall n, parsed_limit = Some n -> (- 2 ^ 63 <= n)%Z) ->
  exists its,
    rss_items site parsed_limit s = Success its
    /\ NoDup (map fi_guid its)
    /\ NoDup (map fi_url its)
    /\ sorted_by (fun a b => (fi_date b <=? fi_date a)%Z) its = true
    /\ Forall (fun it =>
                 exists row, In row (rows s) /\ status row = PUBLISHED
                             /\ it = feed_item (or_else site DEFAULT_SITE)
                                      (toPostWithTags row)
                             /\ fi_guid it = id row
                             /\ fi_url it
                                = or_else site DEFAULT_SITE ++ units "/blog/"
                                  ++ slug row) its.
Proof.
  intros Hwf Hn. destruct (rss_returns s Hn) as (posts & Hf).
  unfold rss_items, getPublishedPostsForRSS. cbn [default]. rewrite Hf.
  eexists. split; [reflexivity|].
  set (base := or_else site DEFAULT_SITE).
  rewrite !map_map. cbn [feed_item fi_guid fi_url toPostWithTags id slug].
  split; [exact (@findMany_NoDup _ (@id jsstring) _ _ _ _ _ _ _ (wf_ids Hwf) Hf)|].
  split.
  { pose proof (@findMany_NoDup _ (@slug jsstring) _ _ _ _ _ _ _ (wf_slugs Hwf) Hf) as Hs.
    clear Hf. induction posts as [|p l IH]; simpl; [constructor|].
    inversion Hs as [|? ? Hp Hl]; subst. constructor; [|auto].
    intros Hin. apply in_map_iff in Hin as (x & Hx & Hin). apply Hp.
    apply app_inv_head in Hx. apply (app_inv_head (units "/blog/")) in Hx.
    rewrite <- Hx. now apply in_map. }
  split.
  { rewrite <- (@findMany_sorted _ _ _ _ _ _ _ Hf). rewrite <- map_map.
    rewrite (sorted_by_map_gen (in_order ByPublishedAt Desc)); [|reflexivity].
    apply sorted_by_map. }
  rewrite Forall_map, Forall_forall. intros p Hp.
  exists p. split; [eapply findMany_in; eauto|].
  split; [|repeat split].
  apply findMany_matches in Hf. rewrite Forall_forall in Hf.
  apply Hf in Hp. simpl in Hp. now apply status_eqb_eq.
Qed.

Lemma X17_feed_items_witness :
  exists its,
    rss_items None None (sample_store 2 1) = Success its
    /\ map fi_guid its = [1; 0]
    /\ map fi_url its = [units "http://localhost:8080/blog/post-01";
                         units "http://localhost:8080/blog/post-00"].
Proof.
  destruct (@X17_feed_items None None (sample_store 2 1) (wf_sample_store 2 1))
    as (its & H & _); [discriminate|].
  exists its. split; [exact H|].
  revert H. vm_compute. intros [= <-]. split; reflexivity.
Defined.


(** *** Reachable stores and guarded requests *)

(** X18.  In every store that the service reaches from the empty table
    (by create, update, delete and upsert), ids and slugs are unique, and
    every stored post is what [getPostById] returns for its id and what
    [getPostBySlug] returns for its slug. *)
Theorem X18_reachable_store_lookups (marked : jsstring -> jsstring) (s : Store) :
  reachable marked s ->
  NoDup (ids s) /\ NoDup (slugs s)
  /\ forall p, In p (rows s) ->
       getPostById (id p) s = Some (toPostWithTags p)
       /\ getPostBySlug (slug p) s = Some (toPostWithTags p).
Proof.
  intros Hr. apply reachable_wf in Hr. destruct Hr as [Hid Hsl _].
  split; [exact Hid|]. split; [exact Hsl|].
  intros p Hp. unfold getPostById, getPostBySlug.
  now rewrite (@find_id_in s p Hid Hp), (@find_slug_in s p Hsl Hp).
Qed.

Lemma X18_reachable_store_lookups_witness :
  getPostBySlug (units "post-00") (sample_store 1 0)
  = Some (toPostWithTags (sample_row 0 PUBLISHED)).
Proof.
  refine (proj2 (proj2 (proj2 (@X18_reachable_store_lookups sample_marked
            (sample_store 1 0) _)) (sample_row 0 PUBLISHED) _)).
  - exact (reach_create 0%Z (sample_data 0 PUBLISHED) (reach_empty sample_marked)).
  - left. reflexivity.
Defined.

(** X19.  Behind [requireAuth], a request whose [Authorization] header is
    not ["Bearer "] followed by the configured token reaches no admin
    handler: create, update and delete are answered 401 (500 when no token
    is configured) and the store is left as it was.  The same holds for
    the webhook behind [requireWebhookSecret] when the header is not the
    configured secret. *)
Theorem X19_unauthorised_requests_change_nothing (marked : jsstring -> jsstring)
  (cause : PrismaError -> jsstring)
  (header configured : option jsstring) (now : Date) (i : PostId)
  (created : CreatePostData) (updated : UpdatePostData)
  (payload : WebhookPayload) (s : Store) :
  ((forall tok, configured = Some tok -> header <> Some (BEARER ++ tok)) ->
   exists status,
     (status = 401 \/ status = 500)
     /\ admin_create_request marked cause header configured now created s
        = (Denied status, s)
     /\ admin_update_request marked cause header configured now i updated s
        = (Denied status, s)
     /\ admin_delete_request cause header configured i s = (Denied status, s))
  /\ (header <> configured ->
      exists status,
        (status = 401 \/ status = 500)
        /\ webhook_request marked header configured now payload s
           = (Denied status, s)).
Proof.
  split.
  - intros H.
    unfold admin_create_request, admin_update_request, admin_delete_request.
    rewrite requireAuth_cases.
    destruct configured as [tok|]; [|exists 500; cbn [guarded]; auto].
    destruct (truthy tok); [|exists 500; cbn [guarded]; auto].
    destruct header as [h|]; [|exists 401; cbn [guarded]; auto].
    destruct (eqb_spec h (BEARER ++ tok)) as [->|_];
      [exfalso; now apply (H tok) | exists 401; cbn [guarded]; auto].
  - intros H. unfold webhook_request. rewrite requireWebhookSecret_cases.
    destruct configured as [sec|]; [|exists 500; cbn [guarded]; auto].
    destruct (truthy sec); [|exists 500; cbn [guarded]; auto].
    destruct header as [h|]; [|exists 401; cbn [guarded]; auto].
    destruct (eqb_spec h sec) as [->|_];
      [exfalso; now apply H | exists 401; cbn [guarded]; auto].
Qed.

Lemma X19_unauthorised_requests_change_nothing_witness :
  admin_delete_request (fun _ => []) (Some (units "Bearer guess")) (Some SECRET) 1
    (sample_store 2 0) = (Denied 401, sample_store 2 0)
  /\ admin_delete_request (fun _ => []) (Some (BEARER ++ SECRET)) (Some SECRET) 1
       (sample_store 2 0)
     = (Handled (Success tt), snd (deletePost 1 (sample_store 2 0))).
Proof.
  split; [|reflexivity].
  destruct (@X19_unauthorised_requests_change_nothing sample_marked (fun _ => [])
              (Some (units "Bearer guess")) (Some SECRET) 0%Z 1
              (sample_data 0 DRAFT) title_update (bare_payload [])
              (sample_store 2 0)) as [H _].
  destruct H as (status & _ & _ & _ & Hd).
  - intros tok [= <-]. discriminate.
  - rewrite Hd. f_equal. f_equal.
    revert Hd. vm_compute. intros [= <-]. reflexivity.
Defined.


(** *** Stored tags *)

Lemma tags_written_create (marked : jsstring -> jsstring) (now : Date)
  (data : CreatePostData) (s : Store) :
  Forall tags_written (rows s) ->
  Forall tags_written (rows (snd (createPost marked now data s))).
Proof.
  intros H. unfold createPost, Prisma.create.
  destruct (slug_taken _ s); [exact H|]. simpl.
  apply Forall_app. split; [exact H|]. constructor; [|constructor].
  eexists. reflexivity.
Qed.

Lemma tags_written_update (now : Date) (i : PostId) (u : UpdateInput) (s : Store) :
  (forall t, ui_tags u = Some t -> exists ts, t = stringifyTags ts) ->
  Forall tags_written (rows s) ->
  Forall tags_written (rows (snd (Prisma.update now i u s))).
Proof.
  intros Hu H. unfold Prisma.update.
  destruct (findUnique_id i s) as [old|] eqn:Hf; [|exact H].
  destruct (slug_taken_by_other _ i s); [exact H|]. simpl.
  apply find_id_some in Hf as [Hin _].
  rewrite Forall_forall in *. intros q Hq.
  apply replace_row_in_inv in Hq as [->|Hq]; [|now apply H].
  unfold tags_written. cbn [apply_update tags].
  destruct (ui_tags u) as [t|]; cbn [Prisma.set]; [now apply Hu | now apply H].
Qed.

Lemma snd_service_result {A B} (r : result A * Store) (f : A -> B) :
  snd (match r with
       | (Ok a, s') => (Ok (f a), s')
       | (Err e, s') => (Err e, s')
       end) = snd r.
Proof. now destruct r as [[a|e] s']. Qed.

(** X20.  In every store that the service reaches from the empty table,
    the [tags] column of every row is the serialised form of a sequence of
    strings, so that decoding it never falls back to the empty sequence of
    the [catch]: the post that is returned has exactly those tags. *)
Theorem X20_stored_tags_always_decode (marked : jsstring -> jsstring) (s : Store) :
  reachable marked s ->
  forall p, In p (rows s) ->
  exists ts, tags p = stringifyTags ts
             /\ tags (toPostWithTags p) = JSON.of_strings ts.
Proof.
  intros Hr.
  assert (H : Forall tags_written (rows s)).
  { induction Hr as [|now data s _ IH|now i data s _ IH|i s _ IH|now data s _ IH].
    - constructor.
    - now apply tags_written_create.
    - unfold updatePost. rewrite snd_service_result.
      apply tags_written_update; [|exact IH].
      cbn [update_input ui_tags]. intros t Ht.
      destruct (up_tags data) as [ts|]; [|discriminate].
      injection Ht as <-. now exists ts.
    - unfold deletePost, Prisma.delete.
      destruct (findUnique_id i s); [|exact IH]. simpl.
      rewrite Forall_forall in *. intros q Hq. apply filter_In in Hq as [Hq _].
      now apply IH.
    - unfold upsertPostBySlug, Prisma.upsert. rewrite snd_service_result.
      destruct (findUnique_slug _ s) as [old|].
      + apply tags_written_update; [|exact IH].
        cbn [upsert_update_input ui_tags]. intros t [= <-]. eexists. reflexivity.
      + pose proof (@tags_written_create marked now data s IH) as Hc.
        unfold createPost in Hc. now rewrite snd_service_result in Hc. }
  intros p Hp. rewrite Forall_forall in H. destruct (H p Hp) as (ts & Hts).
  exists ts. split; [exact Hts|].
  cbn [toPostWithTags tags]. rewrite Hts. apply parseTags_stringifyTags.
Qed.

Lemma X20_stored_tags_always_decode_witness :
  exists ts, tags (sample_row 0 PUBLISHED) = stringifyTags ts
             /\ tags (toPostWithTags (sample_row 0 PUBLISHED)) = JSON.of_strings ts.
Proof.
  apply (@X20_stored_tags_always_decode sample_marked (sample_store 1 0)).
  - exact (reach_create 0%Z (sample_data 0 PUBLISHED) (reach_empty sample_marked)).
  - left. reflexivity.
Defined.

End RouteFacts.

(** ** More on slugs *)

Module SlugMore.

Import Slug JSFacts SlugFacts.

Lemma slug_char_lower (c : codeunit) : slug_char c = true -> lower_unit c = [c].
Proof.
  unfold slug_char, lower_unit. intros H.
  replace (in_range 65 90 c) with false.
  2:{ symmetry. units_arith. lia. }
  replace (c =? 304) with false.
  2:{ symmetry. units_arith. lia. }
  replace (c =? 8490) with false; [reflexivity|].
  symmetry. units_arith. lia.
Qed.

Lemma toLowerCase_slug (s : jsstring) :
  forallb slug_char s = true -> toLowerCase s = s.
Proof.
  unfold toLowerCase. induction s as [|c r IH]; simpl; [reflexivity|].
  intros H. apply andb_true_iff in H as [Hc Hr].
  now rewrite (slug_char_lower _ Hc), IH.
Qed.

Lemma slug_char_kept (c : codeunit) : slug_char c = true -> kept c = true.
Proof.
  unfold slug_char, kept. intros H.
  apply orb_true_iff in H as [H|H]; [|now rewrite H, orb_true_r].
  apply orb_true_iff in H as [H|H]; rewrite H; [reflexivity|].
  now rewrite orb_true_r.
Qed.

Lemma strip_slug (s : jsstring) : forallb slug_char s = true -> strip s = s.
Proof.
  unfold strip. induction s as [|c r IH]; simpl; [reflexivity|].
  intros H. apply andb_true_iff in H as [Hc Hr].
  now rewrite (slug_char_kept _ Hc), IH.
Qed.

Lemma spaces_to_hyphen_slug (s : jsstring) (b : bool) :
  forallb slug_char s = true -> spaces_to_hyphen b s = s.
Proof.
  revert b; induction s as [|c r IH]; intros b; simpl; [reflexivity|].
  intros H. apply andb_true_iff in H as [Hc Hr].
  now rewrite (slug_char_not_space _ Hc), IH.
Qed.

Lemma collapse_hyphens_fixed (s : jsstring) (b : bool) :
  no_double_hyphen s = true ->
  (b = true -> no_leading_hyphen s = true) ->
  collapse_hyphens b s = s.
Proof.
  revert b; induction s as [|c r IH]; intros b Hnd Hlead; [reflexivity|].
  cbn [collapse_hyphens].
  assert (Hr : no_double_hyphen r = true).
  { destruct r as [|d r']; [reflexivity|]. simpl in Hnd.
    now apply andb_true_iff in Hnd. }
  destruct (N.eqb_spec c HYPHEN) as [->|Hne].
  - destruct b.
    + specialize (Hlead eq_refl). discriminate Hlead.
    + f_equal. apply IH; [exact Hr|]. intros _.
      destruct r as [|d r']; [reflexivity|]. simpl in Hnd.
      apply andb_true_iff in Hnd as [Hnd _]. exact Hnd.
  - f_equal. apply IH; [exact Hr|]. intros E. discriminate E.
Qed.

(** X21.  Whatever the title, the slug is made of [a-z], [0-9] and hyphens
    only, never has two hyphens in a row, and is a fixed point: the slug
    of a slug is that slug. *)
Theorem X21_generateSlug_alphabet_and_idempotence (title : jsstring) :
  forallb slug_char (generateSlug title) = true
  /\ no_double_hyphen (generateSlug title) = true
  /\ generateSlug (generateSlug title) = generateSlug title.
Proof.
  pose proof (generateSlug_chars title) as Hc.
  pose proof (generateSlug_no_double_hyphen title) as Hd.
  split; [exact Hc|]. split; [exact Hd|].
  set (r := generateSlug title) in *.
  unfold generateSlug at 1. rewrite trim_is_identity.
  rewrite (toLowerCase_slug _ Hc), (strip_slug _ Hc).
  rewrite (spaces_to_hyphen_slug _ false Hc).
  apply collapse_hyphens_fixed; [exact Hd | discriminate].
Qed.

(** *** When the ends of a slug are clean *)

Lemma ends_with_hyphen_trailing (l : jsstring) :
  ends_with_hyphen l -> no_trailing_hyphen l = false.
Proof.
  intros (t & ->). unfold no_trailing_hyphen. now rewrite rev_app_distr.
Qed.

Lemma spaces_to_hyphen_snoc (s : jsstring) (z : codeunit) (b : bool) :
  is_space z = false ->
  spaces_to_hyphen b (s ++ [z]) = spaces_to_hyphen b s ++ [z].
Proof.
  intros Hz. revert b; induction s as [|c r IH]; intros b; simpl.
  - now rewrite Hz.
  - destruct (is_space c); [destruct b|]; now rewrite IH.
Qed.

Lemma collapse_hyphens_snoc (s : jsstring) (z : codeunit) (b : bool) :
  z <> HYPHEN ->
  collapse_hyphens b (s ++ [z]) = collapse_hyphens b s ++ [z].
Proof.
  intros Hz. revert b; induction s as [|c r IH]; intros b; simpl.
  - now destruct (N.eqb_spec z HYPHEN).
  - destruct (c =? HYPHEN); [destruct b|]; now rewrite IH.
Qed.

Lemma spaces_to_hyphen_space_end (s : jsstring) (z : codeunit) (b : bool) :
  is_space z = true ->
  (b = true /\ spaces_to_hyphen b (s ++ [z]) = [])
  \/ ends_with_hyphen (spaces_to_hyphen b (s ++ [z])).
Proof.
  intros Hz. revert b; induction s as [|c r IH]; intros b; simpl.
  - rewrite Hz. destruct b; [now left | right; now exists []].
  - destruct (is_space c).
    + destruct b; [apply IH|]. right.
      destruct (IH true) as [[_ ->]|(t & ->)];
        [now exists [] | now exists (HYPHEN :: t)].
    + right. destruct (IH false) as [[E _]|(t & ->)];
        [discriminate | now exists (c :: t)].
Qed.

Lemma collapse_hyphens_hyphen_end (s : jsstring) (b : bool) :
  (b = true /\ collapse_hyphens b (s ++ [HYPHEN]) = [])
  \/ ends_with_hyphen (collapse_hyphens b (s ++ [HYPHEN])).
Proof.
  revert b; induction s as [|c r IH]; intros b; simpl.
  - destruct b; [now left | right; now exists []].
  - destruct (c =? HYPHEN).
    + destruct b; [apply IH|]. right.
      destruct (IH true) as [[_ ->]|(t & ->)];
        [now exists [] | now exists (HYPHEN :: t)].
    + right. destruct (IH false) as [[E _]|(t & ->)];
        [discriminate | now exists (c :: t)].
Qed.

Lemma kept_cases (c : codeunit) :
  kept c = true -> alnum c = true \/ is_space c = true \/ c = HYPHEN.
Proof.
  unfold kept, alnum. intros H.
  apply orb_true_iff in H as [H|H]; [|right; right; now apply N.eqb_eq].
  apply orb_true_iff in H as [H|H]; [now left | now (right; left)].
Qed.

Lemma alnum_plain (c : codeunit) :
  alnum c = true -> is_space c = false /\ c <> HYPHEN.
Proof.
  unfold alnum. intros H. split.
  - units_arith. lia.
  - intros ->. revert H. reflexivity || discriminate.
Qed.

Lemma not_alnum_space : forall c, is_space c = true -> alnum c = false.
Proof.
  intros c H. destruct (alnum c) eqn:E; [|reflexivity].
  apply alnum_plain in E as [E _]. congruence.
Qed.

(** The first unit of the chain's result. *)
Lemma leading_hyphen_iff (k : jsstring) :
  Forall (fun c => kept c = true) k ->
  no_leading_hyphen (collapse_hyphens false (spaces_to_hyphen false k))
  = match k with [] => true | c :: _ => alnum c end.
Proof.
  destruct k as [|c r]; [reflexivity|]. intros H.
  inversion H as [|? ? Hc _]; subst. cbn [spaces_to_hyphen].
  destruct (kept_cases _ Hc) as [Ha|[Hs| ->]].
  - destruct (alnum_plain _ Ha) as [Hs Hh]. rewrite Hs, Ha.
    cbn [collapse_hyphens]. destruct (N.eqb_spec c HYPHEN); [contradiction|].
    simpl. now destruct (N.eqb_spec c HYPHEN).
  - rewrite Hs, (not_alnum_space _ Hs). reflexivity.
  - reflexivity.
Qed.

(** The last unit of the chain's result. *)
Lemma trailing_hyphen_iff (k : jsstring) :
  Forall (fun c => kept c = true) k ->
  no_trailing_hyphen (collapse_hyphens false (spaces_to_hyphen false k))
  = match rev k with [] => true | c :: _ => alnum c end.
Proof.
  destruct (rev k) as [|z t] eqn:E.
  { apply (f_equal (@rev _)) in E. rewrite rev_involutive in E. now subst k. }
  apply (f_equal (@rev _)) in E. rewrite rev_involutive in E. simpl in E.
  subst k. intros H. apply Forall_app in H as [_ H].
  inversion H as [|? ? Hz _]; subst.
  destruct (kept_cases _ Hz) as [Ha|[Hs| ->]].
  - destruct (alnum_plain _ Ha) as [Hs Hh].
    rewrite spaces_to_hyphen_snoc, collapse_hyphens_snoc by assumption.
    unfold no_trailing_hyphen. rewrite rev_app_distr. simpl.
    rewrite Ha. now destruct (N.eqb_spec z HYPHEN).
  - rewrite (not_alnum_space _ Hs).
    destruct (spaces_to_hyphen_space_end (rev t) z false Hs)
      as [[E _]|(u & ->)]; [discriminate|].
    apply ends_with_hyphen_trailing.
    destruct (collapse_hyphens_hyphen_end u false) as [[E _]|H']; [discriminate|].
    exact H'.
  - rewrite spaces_to_hyphen_snoc by reflexivity.
    change (alnum HYPHEN) with false. apply ends_with_hyphen_trailing.
    destruct (collapse_hyphens_hyphen_end (spaces_to_hyphen false (rev t)) false)
      as [[E _]|H']; [discriminate | exact H'].
Qed.

(** X22.  The slug of a title is well formed (no hyphen at either end,
    besides the alphabet and the single hyphens that always hold) exactly
    when, of the units of the lower-cased title that the first [replace]
    keeps, the first and the last are letters or digits. *)
Theorem X22_generateSlug_well_formed_iff (title : jsstring) :
  well_formed_slug (generateSlug title)
  = clean_ends (strip (toLowerCase title)).
Proof.
  unfold well_formed_slug.
  rewrite generateSlug_chars, generateSlug_no_double_hyphen, andb_true_r.
  unfold generateSlug. rewrite trim_is_identity. cbn [andb]. unfold clean_ends.
  rewrite leading_hyphen_iff, trailing_hyphen_iff by apply strip_kept.
  reflexivity.
Qed.

Example well_formed_slug_examples :
  well_formed_slug (generateSlug (units "Getting Started with AI in the Classroom"))
  = true
  /\ well_formed_slug (generateSlug (units "What is AI?")) = true
  /\ well_formed_slug (generateSlug (units "What is AI ?")) = false
  /\ well_formed_slug (generateSlug (units " Hello")) = false.
Proof. repeat split. Qed.

End SlugMore.

(** ** The seed script *)

Module SeedFacts.

Import JSFacts StoreFacts QueryFacts WriteFacts RouteFacts.

Lemma seed_nonempty (now : Date) (s : Store) :
  rows s <> [] -> seed now s = (Ok tt, s).
Proof.
  intros H. unfold seed, count. rewrite filter_no_condition.
  destruct (rows s) as [|p l]; [congruence | reflexivity].
Qed.

Lemma seed_empty (now : Date) (s : Store) :
  rows s = [] ->
  exists first second,
    samplePosts now = [first; second]
    /\ seed now s
       = (Ok tt,
          {| rows := [new_row (next_id s) now (seed_input first);
                      new_row (next_id s + 1) now (seed_input second)];
             next_id := next_id s + 1 + 1 |}).
Proof.
  destruct s as [rs nid]; simpl; intros ->.
  eexists. eexists. split; [reflexivity|]. reflexivity.
Qed.

Lemma create_all_wf (now : Date) (l : list SamplePost) (s : Store) :
  wf s -> wf (snd (create_all now l s)).
Proof.
  revert s; induction l as [|p l IH]; intros s Hwf; simpl; [exact Hwf|].
  destruct (Prisma.create now (seed_input p) s) as [[post|e] s'] eqn:E.
  - apply IH. eapply wf_create; [exact Hwf | exact E].
  - simpl. eapply wf_create; [exact Hwf | exact E].
Qed.

(** X23.  The seed script fills an empty table only: on a table with at
    least one post it changes nothing, so running it again after a first
    run changes nothing either.  On an empty table it succeeds and stores
    two [PUBLISHED] posts, whose slugs are the ones [generateSlug] derives
    from their titles and which the listing shows with the welcome post
    first.  It keeps the invariant of the table. *)
Theorem X23_seed_fills_an_empty_table_once (now later : Date) (s : Store) :
  (rows s <> [] -> seed now s = (Ok tt, s))
  /\ fst (seed now s) = Ok tt
  /\ seed later (snd (seed now s)) = (Ok tt, snd (seed now s))
  /\ (wf s -> wf (snd (seed now s)))
  /\ (rows s = [] ->
      map (@slug _) (rows (snd (seed now s)))
      = [units "welcome-to-teacher-ai-academy";
         units "getting-started-with-ai-in-the-classroom"]
      /\ map (fun p : Post => generateSlug (title p)) (rows (snd (seed now s)))
         = map (@slug _) (rows (snd (seed now s)))
      /\ map (@status _) (rows (snd (seed now s))) = [PUBLISHED; PUBLISHED]
      /\ map (@slug _) (full_listing no_options (snd (seed now s)))
         = [units "welcome-to-teacher-ai-academy";
            units "getting-started-with-ai-in-the-classroom"]).
Proof.
  split; [apply seed_nonempty|].
  destruct (rows s) as [|p l] eqn:Hrows.
  - destruct (seed_empty now s Hrows) as (first & second & Hs & Hseed).
    injection Hs as <- <-. rewrite Hseed. cbn [fst snd].
    split; [reflexivity|].
    split; [apply seed_nonempty; discriminate|].
    split.
    { intros Hwf. pose proof (create_all_wf now (samplePosts now) Hwf) as H.
      unfold seed, count in Hseed. rewrite Hrows in Hseed. simpl filter in Hseed.
      cbn [length Z.of_nat Z.ltb Z.compare] in Hseed.
      rewrite Hseed in H. exact H. }
    intros _. split; [reflexivity|]. split; [reflexivity|].
    split; [reflexivity|].
    unfold full_listing, order_rows. cbn [rows filter matches where_of no_options
      o_status default truthy status_name units status new_row seed_input
      ci_status sp_status status_eqb fold_right insert_sorted o_orderBy o_order
      before field_leb publishedAt ci_publishedAt sp_publishedAt].
    replace (now - 86400000 <=? now)%Z with true by (symmetry; apply Z.leb_le; lia).
    reflexivity.
  - rewrite seed_nonempty by (rewrite Hrows; discriminate). cbn [fst snd].
    split; [reflexivity|].
    split; [apply seed_nonempty; rewrite Hrows; discriminate|].
    split; [trivial|]. intros H. discriminate H.
Qed.

End SeedFacts.

(** ** The blog helper of the pages *)

Module BlogFacts.

Import JSFacts StoreFacts QueryFacts ListingFacts OrderFacts RouteFacts.












(** The page [10^20] is not answered, and the helper throws. *)
Example blog_far_page :
  BlogAPI.getPosts (10 ^ 20) 10 (sample_store 2 0) = None.
Proof. vm_compute. reflexivity. Qed.

End BlogFacts.
